(** * MikroORM [Utils]: change detection over entity snapshots

    A shallow embedding of [src/lib/utils/Utils.ts]: the value model of
    the JavaScript fragment the utilities work on, the metadata
    descriptors they read, and the functions [merge], [diff],
    [prepareEntity], [shouldIgnoreProperty], [extractPK],
    [getCompositeKeyHash] with the predicates they are built from;
    then the helpers around them: [diffEntities], [isEmpty], [unique],
    [findDuplicates], [asArray], [renameKey], [defaultValue],
    [extractEnumValues], [normalizePath], [relativePath] and
    [absolutePath]. *)

From Stdlib Require Import String Ascii List ZArith Bool DecimalString Lia.
From Stdlib Require Import Permutation.
Import ListNotations.
Open Scope string_scope.
Open Scope list_scope.

(* ================================================================= *)
(** ** JavaScript values *)

Module JS.

(** Constructors the utilities test with [instanceof]. *)
Inductive builtin : Type :=
| Date | RegExp | Buffer | Reference | ArrayCollection | Collection.

(** The class of an object: a literal [{}], an instance of one of the
    constructors above, or an instance of a user class (an entity class,
    a driver's ObjectId) known by its [constructor.name]. *)
Inductive klass : Type :=
| KObject
| KBuiltin (c : builtin)
| KClass (name : string).

Definition number_to_string (n : Z) : string := NilZero.string_of_int (Z.to_int n).

(** A property name is an array index when it is the canonical decimal
    form of an integer in [0, 2^32 - 2]; [Object.keys] lists such names
    first, in ascending numeric order, before all other names, which
    come in insertion order. *)
Definition array_index (s : string) : option Z :=
  match NilZero.int_of_string s with
  | Some i =>
      let z := Z.of_int i in
      if ((0 <=? z)%Z && (z <? 4294967295)%Z && (number_to_string z =? s))%bool
      then Some z else None
  | None => None
  end.

(** *** Property lists

    The properties of an object as a list of names and values, in the
    order of enumeration; the values are of any type, so that the same
    lists serve for objects held by value and for objects in a store. *)
Section Properties.

Context {V : Type}.

Definition keys (ps : list (string * V)) : list string := map fst ps.

Fixpoint lookup (k : string) (ps : list (string * V)) : option V :=
  match ps with
  | [] => None
  | (k', v) :: rest => if k' =? k then Some v else lookup k rest
  end.

Definition mem (k : string) (ps : list (string * V)) : bool :=
  match lookup k ps with Some _ => true | None => false end.

Fixpoint replace (k : string) (v : V) (ps : list (string * V)) : list (string * V) :=
  match ps with
  | [] => []
  | (k', v') :: rest =>
      if k' =? k then (k', v) :: rest else (k', v') :: replace k v rest
  end.

Fixpoint insert_index (n : Z) (k : string) (v : V) (ps : list (string * V))
  : list (string * V) :=
  match ps with
  | [] => [(k, v)]
  | (k', v') :: rest =>
      match array_index k' with
      | Some m => if (m <? n)%Z then (k', v') :: insert_index n k v rest
                  else (k, v) :: ps
      | None => (k, v) :: ps
      end
  end.

(** A new own enumerable property takes its place in the enumeration
    order. *)
Definition add_prop (k : string) (v : V) (ps : list (string * V)) : list (string * V) :=
  match array_index k with
  | Some n => insert_index n k v ps
  | None => ps ++ [(k, v)]
  end.

(** An object: its class, its own enumerable properties in the order
    [Object.keys] lists them, and in [hidden] the properties a read or
    [in] still finds but enumeration skips: own non-enumerable ones,
    inherited ones, and accessors, each held as the value it yields. *)
Record object : Type := mkObj {
  cls : klass;
  own : list (string * V);
  hidden : list (string * V)
}.

(** A read of [o[k]] that finds the property: own enumerable properties
    shadow the hidden ones. *)
Definition find (o : object) (k : string) : option V :=
  match lookup k (own o) with
  | Some v => Some v
  | None => lookup k (hidden o)
  end.

(** [k in o] *)
Definition has (o : object) (k : string) : bool := mem k (own o) || mem k (hidden o).

(** [o[k] = v] (also [Object.assign(o, { [k]: v })]): an existing
    property keeps its place and its enumerability, a new one is
    enumerable.  A write to a name that only [hidden] has is a write to
    that property, as it is for an own property that can be written;
    [hidden] does not say whether a property can be written or is
    inherited, and what is proved of a write is proved for names that
    [hidden] does not have. *)
Definition assign (o : object) (k : string) (v : V) : object :=
  if mem k (own o) then mkObj (cls o) (replace k v (own o)) (hidden o)
  else if mem k (hidden o) then mkObj (cls o) (own o) (replace k v (hidden o))
  else mkObj (cls o) (add_prop k v (own o)) (hidden o).

(** [Object.defineProperty(o, k, { value: v })]: the attributes the
    descriptor leaves out stay as they are on an existing property and
    default to [false] on a new one, which is therefore not enumerable. *)
Definition defineProperty (o : object) (k : string) (v : V) : object :=
  if mem k (own o) then mkObj (cls o) (replace k v (own o)) (hidden o)
  else if mem k (hidden o) then mkObj (cls o) (own o) (replace k v (hidden o))
  else mkObj (cls o) (own o) (hidden o ++ [(k, v)]).

End Properties.

Arguments object V : clear implicits.

(** Values.  Numbers are the integers (no fractions, NaN or infinities).
    An object is held by value, with its class, its own enumerable
    properties and its hidden ones. *)
#[local] Unset Elimination Schemes.
Inductive value : Type :=
| VUndefined
| VNull
| VBool (b : bool)
| VNumber (n : Z)
| VString (s : string)
| VArray (items : list value)
| VObject (k : klass) (own : list (string * value)) (hidden : list (string * value)).
#[local] Set Elimination Schemes.

Definition props : Type := list (string * value).

(** An object on its own, for the parameters TypeScript types as
    objects ([Dictionary], an entity [T]). *)
Definition obj : Type := object value.

Definition VObj (o : obj) : value := VObject (cls o) (own o) (hidden o).

Definition as_obj (v : value) : option obj :=
  match v with
  | VObject k ps hs => Some (mkObj k ps hs)
  | _ => None
  end.

(** [{}] *)
Definition emptyObject : obj := mkObj KObject [] [].

(** [o[k]]: a missing property reads as [undefined]. *)
Definition get (o : obj) (k : string) : value :=
  match find o k with Some v => v | None => VUndefined end.

(** [v[k]] at the places where the code has already checked that [v] is
    an object. *)
Definition vget (v : value) (k : string) : value :=
  match as_obj v with Some o => get o k | None => VUndefined end.

(** [!!v] *)
Definition truthy (v : value) : bool :=
  match v with
  | VUndefined | VNull => false
  | VBool b => b
  | VNumber n => negb (n =? 0)%Z
  | VString s => negb (s =? "")
  | VArray _ | VObject _ _ _ => true
  end.

(** [a || b] on values. *)
Definition or_else (a b : value) : value := if truthy a then a else b.

Definition isArray (v : value) : bool :=
  match v with VArray _ => true | _ => false end.

Definition builtin_eqb (a b : builtin) : bool :=
  match a, b with
  | Date, Date | RegExp, RegExp | Buffer, Buffer | Reference, Reference
  | ArrayCollection, ArrayCollection | Collection, Collection => true
  | _, _ => false
  end.

(** Modelled from the spec: the classes of [../entity] are not part of
    the source at hand.  The spec has every Collection left out of a
    snapshot, which [shouldIgnoreProperty] tests with
    [instanceof ArrayCollection]: [Collection] extends
    [ArrayCollection]. *)
Definition extends (sub sup : builtin) : bool :=
  builtin_eqb sub sup ||
  match sub, sup with Collection, ArrayCollection => true | _, _ => false end.

(** [o instanceof c], from the class of [o]. *)
Definition instance_of (k : klass) (c : builtin) : bool :=
  match k with
  | KBuiltin c' => extends c' c
  | _ => false
  end.

(** [v instanceof c] *)
Definition instanceOf (v : value) (c : builtin) : bool :=
  match v with
  | VObject k _ _ => instance_of k c
  | _ => false
  end.

Definition builtin_name (c : builtin) : string :=
  match c with
  | Date => "Date" | RegExp => "RegExp" | Buffer => "Buffer"
  | Reference => "Reference" | ArrayCollection => "ArrayCollection"
  | Collection => "Collection"
  end.

(** [o.constructor.name] *)
Definition constructor_name (k : klass) : string :=
  match k with
  | KObject => "Object"
  | KBuiltin c => builtin_name c
  | KClass name => name
  end.

Definition lower_ascii (c : ascii) : ascii :=
  let n := nat_of_ascii c in
  if ((65 <=? n) && (n <=? 90))%nat then ascii_of_nat (n + 32) else c.

Fixpoint toLowerCase (s : string) : string :=
  match s with
  | EmptyString => EmptyString
  | String c rest => String (lower_ascii c) (toLowerCase rest)
  end.

(** [String(v)].  An array prints as its elements joined by commas; an
    object prints through its [toString], which the model holds among
    the hidden properties as the string it returns, [Object.prototype]'s
    own being the default. *)
Fixpoint to_string (v : value) : string :=
  match v with
  | VUndefined => "undefined"
  | VNull => "null"
  | VBool true => "true"
  | VBool false => "false"
  | VNumber n => number_to_string n
  | VString s => s
  | VArray items =>
      String.concat ","
        (map (fun x => match x with
                       | VUndefined | VNull => ""
                       | _ => to_string x
                       end) items)
  | VObject _ _ hs =>
      match lookup "toString" hs with
      | Some (VString s) => s
      | _ => "[object Object]"
      end
  end.

(** What [Array.prototype.join] makes of one element: [undefined] and
    [null] give the empty string. *)
Definition element_to_string (v : value) : string :=
  match v with
  | VUndefined | VNull => ""
  | _ => to_string v
  end.

(** [items.join(sep)] *)
Definition join (sep : string) (items : list value) : string :=
  String.concat sep (map element_to_string items).

Definition klass_eqb (a b : klass) : bool :=
  match a, b with
  | KObject, KObject => true
  | KBuiltin x, KBuiltin y => builtin_eqb x y
  | KClass x, KClass y => x =? y
  | _, _ => false
  end.

(** The [fast-deep-equal] package on this value model: primitives by
    [===], objects of one constructor only, arrays by length and
    position, other objects by their own enumerable keys, whatever the
    order of the keys.  The package compares a [Date] by its time, a
    [RegExp] by source and flags, and an object with a [valueOf] or
    [toString] of its own by what that returns; the values here carry
    none of these, and a result about [fastEqual] holding of two values
    is stated for data without them (see [plain_data]). *)
Fixpoint fastEqual (a b : value) : bool :=
  match a, b with
  | VUndefined, VUndefined => true
  | VNull, VNull => true
  | VBool x, VBool y => Bool.eqb x y
  | VNumber x, VNumber y => (x =? y)%Z
  | VString x, VString y => x =? y
  | VArray xs, VArray ys =>
      (fix pairwise (xs ys : list value) : bool :=
         match xs, ys with
         | [], [] => true
         | x :: xs', y :: ys' => fastEqual x y && pairwise xs' ys'
         | _, _ => false
         end) xs ys
  | VObject ka pa _, VObject kb pb _ =>
      klass_eqb ka kb && (length pa =? length pb)%nat &&
      (fix each (ps : props) : bool :=
         match ps with
         | [] => true
         | (k, va) :: rest =>
             match lookup k pb with
             | Some vb => fastEqual va vb && each rest
             | None => false
             end
         end) pa
  | _, _ => false
  end.

End JS.

Import JS.

(* ================================================================= *)
(** ** Metadata descriptors *)

(** [ReferenceType] of [../entity]. *)
Inductive ReferenceType : Type :=
| SCALAR | ONE_TO_ONE | MANY_TO_ONE | ONE_TO_MANY | MANY_TO_MANY.

Definition ReferenceType_eqb (a b : ReferenceType) : bool :=
  match a, b with
  | SCALAR, SCALAR | ONE_TO_ONE, ONE_TO_ONE | MANY_TO_ONE, MANY_TO_ONE
  | ONE_TO_MANY, ONE_TO_MANY | MANY_TO_MANY, MANY_TO_MANY => true
  | _, _ => false
  end.

(** The option monad carries the one failure the utilities let through:
    a lookup that the metadata registry refuses. *)
Definition bind {A B : Type} (m : option A) (f : A -> option B) : option B :=
  match m with Some a => f a | None => None end.

Notation "x <- m ;; k" := (bind m (fun x => k))
  (at level 61, m at next level, right associativity).

Module Utils.

Section Definitions.

(** The platform handed through to custom types ([../platforms]). *)
Variable Platform : Type.

(** The [clone] package behind [Utils.copy]. *)
Variable clone : value -> value.

(** The fields of [EntityProperty] ([../typings]) that the utilities
    read.  [customType] is the type's [convertToDatabaseValue]; an
    absent [persist] is [None]. *)
Record EntityProperty : Type := mkProp {
  name : string;
  type : string;
  reference : ReferenceType;
  primary : bool;
  owner : bool;
  inversedBy : option string;
  mappedBy : option string;
  persist : option bool;
  customType : option (value -> Platform -> value)
}.

(** The fields of [EntityMetadata] that the utilities read;
    [properties] is [Object.values(meta.properties)]. *)
Record EntityMetadata : Type := mkMeta {
  primaryKey : string;
  primaryKeys : list string;
  compositePK : bool;
  serializedPrimaryKey : string;
  properties : list EntityProperty
}.

(** Modelled from the spec: [MetadataStorage] ([../metadata]) is not
    part of the source at hand.  The registry is a lookup
    [get(typeName) -> EntityMetadata]; an unknown type is a failure of
    the registry that the utilities do not recover from. *)
Definition MetadataStorage : Type := string -> option EntityMetadata.

Definition metadata_get (metadata : MetadataStorage) (entityName : string)
  : option EntityMetadata := metadata entityName.

(** Modelled from the spec: [wrap] ([../entity]) is not part of the
    source at hand; it hands back the entity it is given, typed with the
    accessors the ORM defines on every entity ([__meta],
    [__serializedPrimaryKey]).  The latter is read like any property, so
    a referenced entity carries its serialized identity among its hidden
    properties. *)
Definition wrap (entity : value) : value := entity.

(** [wrap(data).__meta]: the descriptor an entity carries, if any. *)
Variable wrapped_meta : obj -> option EntityMetadata.

(* ================================================================= *)
(** ** Predicates *)

Definition isDefined (data : value) : bool :=
  match data with VUndefined => false | _ => true end.

(** [!!o && typeof o === 'object' && !Array.isArray(o) &&
     !not.some(cls => o instanceof cls)] *)
Definition isObject (o : value) (not : list builtin) : bool :=
  match o with
  | VObject _ _ _ => negb (existsb (instanceOf o) not)
  | _ => false
  end.

Definition isString (s : value) : bool :=
  match s with VString _ => true | _ => false end.

Definition isNumber (s : value) : bool :=
  match s with VNumber _ => true | _ => false end.

Definition equals (a b : value) : bool := fastEqual a b.

Definition copy (entity : value) : value := clone entity.

Definition isReference (data : value) : bool := instanceOf data Reference.

Definition isEntity (data : value) (allowReference : bool) : bool :=
  if allowReference && isReference data then true
  else isObject data [] && truthy (vget data "__entity").

(** [key.constructor.name.toLowerCase()]: the [constructor] property is
    the one a read finds on the object (its own, or one of [hidden]),
    else the constructor of the object's class.  [None] where the
    expression throws: the property is there and holds [null],
    [undefined] or anything else without a string for [name].  An
    object made without a prototype, where the expression throws as
    well, is not among the values. *)
Definition constructor_name_lower (o : obj) : option string :=
  match find o "constructor" with
  | Some c =>
      match vget c "name" with
      | VString s => Some (toLowerCase s)
      | _ => None
      end
  | None => Some (toLowerCase (constructor_name (cls o)))
  end.

(** [Utils.isObject(key) && key.constructor.name.toLowerCase() ===
    'objectid'], [None] where it throws. *)
Definition isObjectID (key : value) : option bool :=
  if isObject key [] then
    match as_obj key with
    | Some o => lower <- constructor_name_lower o ;; Some (lower =? "objectid")
    | None => Some false
    end
  else Some false.

Definition isPrimaryKey (key : value) : option bool :=
  if isString key || isNumber key then Some true else isObjectID key.

(* ================================================================= *)
(** ** merge *)

(** [merge] on values.  One source merged into the target: the body of
    [merge] between [sources.shift()] and the final call on the
    remaining sources.  The method changes its target in place; here the
    result is the target as it stands afterwards.  The inner
    [Utils.merge(target[key], value)] changes the object held at [key],
    so the target holds the changed object there.  [Heap.merge] below is
    the method on a store, where the change in place is a change of the
    store. *)
Fixpoint merge_source (target source : value) {struct source} : value :=
  match source with
  | VObject _ entries _ =>
      if isObject target [] && isObject source [] then
        match as_obj target with
        | Some t0 =>
            VObj
              ((fix forEach (es : props) (t : obj) {struct es} : obj :=
                  match es with
                  | [] => t
                  | (key, value) :: rest =>
                      forEach rest
                        (if isObject value [Date; RegExp; Buffer] then
                           let t1 := if has t key then t
                                     else assign t key (VObj emptyObject) in
                           assign t1 key (merge_source (get t1 key) value)
                         else assign t key value)
                  end) entries t0)
        | None => target
        end
      else target
  | _ => target
  end.

(** [Utils.merge(target, ...sources)] *)
Fixpoint merge (target : value) (sources : list value) : value :=
  match sources with
  | [] => target
  | source :: rest => merge (merge_source target source) rest
  end.

(* ================================================================= *)
(** ** diff *)

Definition diff (a b : obj) : obj :=
  fold_left
    (fun ret k =>
       if equals (get a k) (get b k) then ret else assign ret k (get b k))
    (keys (own b)) emptyObject.

(* ================================================================= *)
(** ** prepareEntity *)

Definition nonempty (s : option string) : bool :=
  match s with Some s' => negb (s' =? "") | None => false end.

Definition shouldIgnoreProperty (metadata : MetadataStorage) (entity : obj)
    (prop : EntityProperty) : option bool :=
  if negb (has entity (name prop)) then Some true
  else
    let v := get entity (name prop) in
    let collection := instanceOf v ArrayCollection in
    noPkRef <- (if isEntity v false
                then meta <- metadata_get metadata (type prop) ;;
                     Some (negb (truthy (vget v (primaryKey meta))))
                else Some false) ;;
    let noPkProp := primary prop && negb (truthy v) in
    let inverse := ReferenceType_eqb (reference prop) ONE_TO_ONE && negb (owner prop) in
    let isSetter :=
      existsb (ReferenceType_eqb (reference prop)) [ONE_TO_ONE; MANY_TO_ONE]
      && (nonempty (inversedBy prop) || nonempty (mappedBy prop)) in
    let emptyRef := isSetter && negb (isDefined v) in
    Some (collection || noPkProp || noPkRef || inverse || emptyRef
          || match persist prop with Some false => true | _ => false end).

(** The body of the loop over [Object.values(meta.properties)]. *)
Definition prepareProperty (metadata : MetadataStorage) (platform : Platform)
    (entity ret : obj) (prop : EntityProperty) : option obj :=
  ignore <- shouldIgnoreProperty metadata entity prop ;;
  if ignore then Some ret
  else
    let v := get entity (name prop) in
    if isEntity v true then
      meta <- metadata_get metadata (type prop) ;;
      Some (assign ret (name prop) (vget v (primaryKey meta)))
    else
      match customType prop with
      | Some convertToDatabaseValue =>
          Some (assign ret (name prop) (convertToDatabaseValue v platform))
      | None =>
          if isArray v || isObject v [] then Some (assign ret (name prop) (copy v))
          else Some (assign ret (name prop) v)
      end.

Definition prepareEntity (metadata : MetadataStorage) (platform : Platform)
    (entity : obj) : option obj :=
  if truthy (get entity "__prepared") then Some entity
  else
    meta <- metadata_get metadata (constructor_name (cls entity)) ;;
    ret <- fold_left
             (fun acc prop => ret <- acc ;; prepareProperty metadata platform entity ret prop)
             (properties meta) (Some emptyObject) ;;
    Some (defineProperty ret "__prepared" (VBool true)).

Definition diffEntities (a b : obj) (metadata : MetadataStorage)
    (platform : Platform) : option obj :=
  pa <- prepareEntity metadata platform a ;;
  pb <- prepareEntity metadata platform b ;;
  Some (diff pa pb).

(* ================================================================= *)
(** ** Primary keys *)

Definition getCompositeKeyHash (entity : obj) (meta : EntityMetadata) : string :=
  join "~"
    (map (fun pk =>
            if isEntity (get entity pk) true
            then vget (wrap (get entity pk)) "__serializedPrimaryKey"
            else get entity pk)
         (primaryKeys meta)).

(** [None] where the test of the key's shape throws. *)
Definition extractPK (data : value) (meta : option EntityMetadata) : option value :=
  key <- isPrimaryKey data ;;
  if key then Some data
  else
    let meta :=
      match meta with
      | None => if isEntity data false
                then match as_obj (wrap data) with
                     | Some o => wrapped_meta o
                     | None => None
                     end
                else None
      | Some _ => meta
      end in
    match (if isObject data [] then as_obj data else None), meta with
    | Some o, Some m =>
        if compositePK m then Some (VString (getCompositeKeyHash o m))
        else Some (or_else (or_else (get o (primaryKey m))
                                    (get o (serializedPrimaryKey m))) VNull)
    | _, _ => Some VNull
    end.

End Definitions.

Arguments name {Platform} _.
Arguments type {Platform} _.
Arguments reference {Platform} _.
Arguments primary {Platform} _.
Arguments owner {Platform} _.
Arguments inversedBy {Platform} _.
Arguments mappedBy {Platform} _.
Arguments persist {Platform} _.
Arguments customType {Platform} _.
Arguments mkProp {Platform} _ _ _ _ _ _ _ _ _.
Arguments primaryKey {Platform} _.
Arguments primaryKeys {Platform} _.
Arguments compositePK {Platform} _.
Arguments serializedPrimaryKey {Platform} _.
Arguments properties {Platform} _.
Arguments mkMeta {Platform} _ _ _ _ _.
Arguments metadata_get {Platform} _ _.
Arguments shouldIgnoreProperty {Platform} _ _ _.
Arguments prepareProperty {Platform} _ _ _ _ _ _.
Arguments prepareEntity {Platform} _ _ _ _.
Arguments diffEntities {Platform} _ _ _ _ _.
Arguments getCompositeKeyHash {Platform} _ _.
Arguments extractPK {Platform} _ _ _.

(* ================================================================= *)
(** ** Well-formed property lists *)

(** [k1] may stand before [k2] in an enumeration: array indices in
    ascending order, then the other names, and no name twice. *)
Definition key_before (k1 k2 : string) : bool :=
  match array_index k1, array_index k2 with
  | Some a, Some b => (a <? b)%Z
  | Some _, None => true
  | None, Some _ => false
  | None, None => negb (k1 =? k2)
  end.

(** The keys of an object as [Object.keys] can list them. *)
Fixpoint enumerated (ks : list string) : bool :=
  match ks with
  | [] => true
  | k :: rest => forallb (key_before k) rest && enumerated rest
  end.

(** One step of [merge]'s loop over [Object.entries(source)], as a
    function of the target so far. *)
Definition merge_entry (t : obj) (entry : string * value) : obj :=
  let (key, value) := entry in
  if isObject value [Date; RegExp; Buffer] then
    let t1 := if has t key then t else assign t key (VObj emptyObject) in
    assign t1 key (merge_source (get t1 key) value)
  else assign t key value.

(** The string one key field contributes to the composite key hash. *)
Definition key_segment (entity : obj) (pk : string) : string :=
  element_to_string
    (if isEntity (get entity pk) true
     then vget (get entity pk) "__serializedPrimaryKey"
     else get entity pk).

(** The rule of the specification for [diff], word for word: the fields
    of [b] that are absent from [a] or unequal to [a]'s. *)
Definition diff_as_specified (a b : obj) : props :=
  filter (fun kv => negb (has a (fst kv)) || negb (equals (get a (fst kv)) (snd kv)))
         (own b).

(** What [diff] computes: the fields of [b] that [equals] tells apart
    from the same read on [a]. *)
Definition changed_fields (a b : obj) : props :=
  filter (fun kv => negb (equals (get a (fst kv)) (snd kv))) (own b).

(** The loop of [diff] over the entries of [b] instead of its keys. *)
Definition diff_step (a : obj) (ret : obj) (kv : string * value) : obj :=
  if equals (get a (fst kv)) (snd kv) then ret else assign ret (fst kv) (snd kv).

(** The rule of the specification for [extractPK] on a plain structure
    with a single key, word for word: the raw field, the serialized
    field only if the raw one is absent, else [null]. *)
Definition extractPK_as_specified {Platform : Type} (data : obj)
    (meta : EntityMetadata Platform) : value :=
  if has data (primaryKey meta) then get data (primaryKey meta)
  else if has data (serializedPrimaryKey meta) then get data (serializedPrimaryKey meta)
  else VNull.

(* ================================================================= *)
(** ** Values as JavaScript can hold them *)

(** No name twice. *)
Fixpoint distinct (ks : list string) : bool :=
  match ks with
  | [] => true
  | k :: rest => negb (existsb (String.eqb k) rest) && distinct rest
  end.

(** No object, at any depth of the enumerable properties, lists a name
    twice. *)
Fixpoint well_formed (v : value) : bool :=
  match v with
  | VArray items => forallb well_formed items
  | VObject _ ps _ =>
      distinct (keys ps) && forallb (fun kv => well_formed (snd kv)) ps
  | _ => true
  end.

(** Names that [fast-deep-equal] reads off the objects it compares
    instead of treating them as data. *)
Definition reserved_name (k : string) : bool :=
  (k =? "constructor") || (k =? "valueOf") || (k =? "toString").

(** Plain data: primitives, arrays of plain data, and objects written
    as literals, with nothing hidden, no name twice, no reserved name,
    and plain data in every field.  No [Date], no [RegExp], no instance
    of a class.  Two copies of plain data are what [fast-deep-equal]
    finds equal. *)
Fixpoint plain_data (v : value) : bool :=
  match v with
  | VArray items => forallb plain_data items
  | VObject KObject ps [] =>
      distinct (keys ps) && negb (existsb reserved_name (keys ps))
      && forallb (fun kv => plain_data (snd kv)) ps
  | VObject _ _ _ => false
  | _ => true
  end.

(** A record of plain data: the enumerable fields have distinct names
    and hold plain data. *)
Definition plain_fields (o : obj) : bool :=
  distinct (keys (own o)) && forallb (fun kv => plain_data (snd kv)) (own o).

(** What the target holds at [k] once [merge] has taken the entry
    [(k, v)] of a source: the value itself, or the outcome of merging
    it into something. *)
Definition settled (t : obj) (k : string) (v : value) : Prop :=
  if isObject v [Date; RegExp; Buffer]
  then exists x, find t k = Some (merge_source x v)
  else find t k = Some v.

(** The loop of [prepareEntity] over the declared properties, and the
    value its body writes for a property it keeps. *)
Definition prepare_loop {Platform : Type} (clone : value -> value)
    (metadata : MetadataStorage Platform) (platform : Platform) (entity : obj)
  : list (EntityProperty Platform) -> option obj -> option obj :=
  fold_left (fun acc prop =>
               ret <- acc ;; prepareProperty clone metadata platform entity ret prop).

Definition written {Platform : Type} (clone : value -> value)
    (metadata : MetadataStorage Platform) (platform : Platform) (entity : obj)
    (prop : EntityProperty Platform) : option value :=
  let v := get entity (name prop) in
  if isEntity v true then
    meta <- metadata_get metadata (type prop) ;; Some (vget v (primaryKey meta))
  else
    match customType prop with
    | Some convertToDatabaseValue => Some (convertToDatabaseValue v platform)
    | None => if isArray v || isObject v [] then Some (clone v) else Some v
    end.

(* ================================================================= *)
(** ** isEmpty *)

Definition isEmpty (data : value) : bool :=
  if isArray data then
    match data with
    | VArray items => (length items =? 0)%nat
    | _ => false
    end
  else if isObject data [] then
    match as_obj data with
    | Some o => (length (keys (own o)) =? 0)%nat
    | None => false
    end
  else negb (truthy data).

(* ================================================================= *)
(** ** Removing and renaming properties *)

Fixpoint remove_key {V : Type} (k : string) (ps : list (string * V))
  : list (string * V) :=
  match ps with
  | [] => []
  | (k', v) :: rest => if k' =? k then rest else (k', v) :: remove_key k rest
  end.

(** [delete o[k]] for an own enumerable property, the only kind that
    [renameKey] deletes: the names it walks come from [Object.keys].  A
    property that only [hidden] has stays where it is. *)
Definition delete_prop {V : Type} (o : object V) (k : string) : object V :=
  mkObj (cls o) (remove_key k (own o)) (hidden o).

(** The name a property goes by after [renameKey]. *)
Definition renamed (from to key : string) : string :=
  if from =? key then to else key.

(* ================================================================= *)
(** ** extractEnumValues *)

(** [keys.includes(val)]: the keys are strings and [includes] compares
    without conversion, so only a string is ever found among them. *)
Definition includes (keys : list string) (val : value) : bool :=
  match val with
  | VString s => existsb (String.eqb s) keys
  | _ => false
  end.

Definition extractEnumValues (target : obj) : list value :=
  let keys := keys (own target) in
  let values := map snd (own target) in
  let numeric :=
    truthy (match List.find isNumber values with
            | Some v => v
            | None => VUndefined
            end) in
  if numeric then filter (fun val => negb (includes keys val)) values
  else values.

(** A numeric enum as the TypeScript compiler lays it out: for every
    member in the order of declaration, [E[E[name] = n] = name], so the
    object maps each name to its number and each number back to the
    (last) name that has it. *)
Definition enum_member (e : obj) (member : string * Z) : obj :=
  let (name, n) := member in
  assign (assign e name (VNumber n)) (number_to_string n) (VString name).

Definition numeric_enum (members : list (string * Z)) : obj :=
  fold_left enum_member members emptyObject.

(** A string enum: [E[name] = s] for every member. *)
Definition string_enum (members : list (string * string)) : obj :=
  fold_left (fun e member => assign e (fst member) (VString (snd member)))
            members emptyObject.

(** A member name as TypeScript allows it: it does not start like a
    number. *)
Definition member_name (s : string) : bool :=
  match s with
  | EmptyString => false
  | String c _ =>
      let n := nat_of_ascii c in
      negb (((48 <=? n) && (n <=? 57)) || (n =? 45))%nat
  end.

(** What an enum under construction looks like after the members
    [done]: the number values are those of the members, in their order;
    every other value is a member's name, held at a number's string. *)
Definition enum_laid_out (e : obj) (done : list (string * Z)) : Prop :=
  hidden e = []
  /\ filter isNumber (map snd (own e)) = map (fun m => VNumber (snd m)) done
  /\ (forall k v, In (k, v) (own e) ->
        (exists n, v = VNumber n /\ In k (map fst done))
        \/ (exists name z, v = VString name /\ In name (keys (own e))
                           /\ k = number_to_string z))
  /\ (forall name, In name (map fst done) -> In name (keys (own e))).

(* ================================================================= *)
(** ** Paths *)

Definition backslash : ascii := "092"%char.
Definition slash : ascii := "/"%char.

(** [s.replace(/\\/g, '/')] *)
Fixpoint replace_backslashes (s : string) : string :=
  match s with
  | EmptyString => EmptyString
  | String c rest =>
      String (if Ascii.eqb c backslash then slash else c) (replace_backslashes rest)
  end.

(** [s.replace(/\/$/, '')]: one slash at the very end goes. *)
Fixpoint strip_trailing_slash (s : string) : string :=
  match s with
  | EmptyString => EmptyString
  | String c EmptyString => if Ascii.eqb c slash then EmptyString else s
  | String c rest => String c (strip_trailing_slash rest)
  end.

Definition is_letter (c : ascii) : bool :=
  let n := nat_of_ascii c in
  (((65 <=? n) && (n <=? 90)) || ((97 <=? n) && (n <=? 122)))%nat.

(** [/[a-zA-Z]:/] matches somewhere in [s]. *)
Fixpoint has_drive (s : string) : bool :=
  match s with
  | String c (String d _ as rest) =>
      (is_letter c && Ascii.eqb d ":"%char) || has_drive rest
  | _ => false
  end.

(** [path.match(/^[/.]|[a-zA-Z]:/)] finds something. *)
Definition anchored (path : string) : bool :=
  match path with
  | String c _ => Ascii.eqb c slash || Ascii.eqb c "."%char
  | EmptyString => false
  end || has_drive path.

(** No backslash in [s]. *)
Fixpoint forward_only (s : string) : bool :=
  match s with
  | EmptyString => true
  | String c rest => negb (Ascii.eqb c backslash) && forward_only rest
  end.

Section Paths.

(** [normalize], [relative] and [isAbsolute] of Node's [path] module. *)
Variable normalize : string -> string.
Variable relative : string -> string -> string.
Variable isAbsolute : string -> bool.

Definition normalizePath (parts : list string) : string :=
  let path := strip_trailing_slash (replace_backslashes (String.concat "/" parts)) in
  let path := replace_backslashes (normalize path) in
  if anchored path then path else ("./" ++ path)%string.

Definition relativePath (path relativeTo : string) : string :=
  if path =? "" then path
  else
    let path := normalizePath [path] in
    if String.prefix "." path then path
    else
      let path := relative relativeTo path in
      normalizePath [path].

(** [baseDir] defaults to [process.cwd()] at the call. *)
Definition absolutePath (path baseDir : string) : string :=
  if path =? "" then normalizePath [baseDir]
  else
    let path := if isAbsolute path then path else (baseDir ++ "/" ++ path)%string in
    normalizePath [path].

End Paths.

End Utils.

Import Utils.

(* ================================================================= *)
(** ** merge on objects in a store

    [merge] changes its target in place.  Here objects and arrays live
    in a store and values refer to them, so that two values can refer to
    one object and a change through one is seen through the other. *)

Module Heap.

Definition loc : Type := nat.

(** A value as a variable or a property holds it: a primitive, or a
    reference to an array or an object of the store.  [RNaN] is the
    number that is not equal to itself. *)
Inductive ref_value : Type :=
| RUndefined
| RNull
| RBool (b : bool)
| RNumber (n : Z)
| RString (s : string)
| RRef (l : loc)
| RNaN.

Inductive cell : Type :=
| CArray (items : list ref_value)
| CObject (o : object ref_value).

Definition store : Type := list cell.

Definition read (st : store) (l : loc) : option cell := nth_error st l.

Fixpoint write (st : store) (l : loc) (c : cell) : store :=
  match st, l with
  | [], _ => []
  | _ :: rest, O => c :: rest
  | c0 :: rest, S l' => c0 :: write rest l' c
  end.

(** A new array or object takes the next free location. *)
Definition alloc (st : store) (c : cell) : loc * store := (length st, st ++ [c]).

(** The object a value refers to, with its location. *)
Definition object_at (st : store) (v : ref_value) : option (loc * object ref_value) :=
  match v with
  | RRef l => match read st l with
              | Some (CObject o) => Some (l, o)
              | _ => None
              end
  | _ => None
  end.

Definition isObject (st : store) (o : ref_value) (not : list builtin) : bool :=
  match object_at st o with
  | Some (_, ob) => negb (existsb (instance_of (cls ob)) not)
  | None => false
  end.

(** [k in target], [target[k]] and [target[k] = v] for the object at [t]. *)
Definition has_at (st : store) (t : loc) (k : string) : bool :=
  match read st t with
  | Some (CObject o) => has o k
  | _ => false
  end.

Definition get_at (st : store) (t : loc) (k : string) : ref_value :=
  match read st t with
  | Some (CObject o) => match find o k with Some v => v | None => RUndefined end
  | _ => RUndefined
  end.

Definition assign_at (st : store) (t : loc) (k : string) (v : ref_value) : store :=
  match read st t with
  | Some (CObject o) => write st t (CObject (assign o k v))
  | _ => st
  end.

(** [Utils.merge(target, ...sources)], statement by statement.  The
    recursion is the method's own, on the nested value and on the
    remaining sources; [fuel] bounds its depth, and [None] is a run that
    needs more.  The result is the store after the call and the value
    returned. *)
Fixpoint merge (fuel : nat) (st : store) (target : ref_value)
    (sources : list ref_value) {struct fuel} : option (store * ref_value) :=
  match fuel with
  | O => None
  | S fuel' =>
      match sources with
      | [] => Some (st, target)
      | source :: rest =>
          st' <- (if isObject st target [] && isObject st source [] then
                    match object_at st target, object_at st source with
                    | Some (t, _), Some (_, src) =>
                        (fix forEach (entries : list (string * ref_value)) (st : store)
                           {struct entries} : option store :=
                           match entries with
                           | [] => Some st
                           | (key, value) :: more =>
                               st' <- (if isObject st value [Date; RegExp; Buffer] then
                                         let st1 :=
                                           if has_at st t key then st
                                           else let (l, st0) := alloc st (CObject (mkObj KObject [] [])) in
                                                assign_at st0 t key (RRef l) in
                                         r <- merge fuel' st1 (get_at st1 t key) [value] ;;
                                         Some (fst r)
                                       else Some (assign_at st t key value)) ;;
                               forEach more st'
                           end) (own src) st
                    | _, _ => Some st
                    end
                  else Some st) ;;
          merge fuel' st' target rest
      end
  end.

(** One step of the loop over [Object.entries(source)], and the loop, as
    functions of their own: [t] is the location of the target. *)
Definition merge_entry (fuel : nat) (t : loc) (st : store)
    (entry : string * ref_value) : option store :=
  let (key, value) := entry in
  if isObject st value [Date; RegExp; Buffer] then
    let st1 :=
      if has_at st t key then st
      else let (l, st0) := alloc st (CObject (mkObj KObject [] [])) in
           assign_at st0 t key (RRef l) in
    r <- merge fuel st1 (get_at st1 t key) [value] ;;
    Some (fst r)
  else Some (assign_at st t key value).

Fixpoint merge_entries (fuel : nat) (t : loc) (entries : list (string * ref_value))
    (st : store) : option store :=
  match entries with
  | [] => Some st
  | entry :: more =>
      st' <- merge_entry fuel t st entry ;;
      merge_entries fuel t more st'
  end.

(** *** Values laid out in a store

    A value together with the location of each of its arrays and
    objects.  [erase] forgets the locations, [handle] is the reference
    (or primitive) that stands for the value, [locs] lists the
    locations, and [holds st t] says that the store has, at these
    locations, the arrays and objects of [t]. *)
#[local] Unset Elimination Schemes.
Inductive layout : Type :=
| LUndefined
| LNull
| LBool (b : bool)
| LNumber (n : Z)
| LString (s : string)
| LArray (l : loc) (items : list layout)
| LObject (l : loc) (k : klass) (own : list (string * layout))
          (hidden : list (string * layout)).
#[local] Set Elimination Schemes.

Definition map_values {A B : Type} (f : A -> B) (ps : list (string * A))
  : list (string * B) :=
  map (fun kv => (fst kv, f (snd kv))) ps.

Fixpoint erase (t : layout) : value :=
  match t with
  | LUndefined => VUndefined
  | LNull => VNull
  | LBool b => VBool b
  | LNumber n => VNumber n
  | LString s => VString s
  | LArray _ items => VArray (map erase items)
  | LObject _ k ps hs =>
      VObject k (map (fun kv => (fst kv, erase (snd kv))) ps)
                (map (fun kv => (fst kv, erase (snd kv))) hs)
  end.

Definition handle (t : layout) : ref_value :=
  match t with
  | LUndefined => RUndefined
  | LNull => RNull
  | LBool b => RBool b
  | LNumber n => RNumber n
  | LString s => RString s
  | LArray l _ => RRef l
  | LObject l _ _ _ => RRef l
  end.

Fixpoint locs (t : layout) : list loc :=
  match t with
  | LArray l items => l :: flat_map locs items
  | LObject l _ ps hs =>
      l :: flat_map (fun kv => locs (snd kv)) ps
        ++ flat_map (fun kv => locs (snd kv)) hs
  | _ => []
  end.

Definition map_object {A B : Type} (f : A -> B) (o : object A) : object B :=
  mkObj (cls o) (map_values f (own o)) (map_values f (hidden o)).

(** The object of a layout, its location apart, and back. *)
Definition node (l : loc) (o : object layout) : layout :=
  LObject l (cls o) (own o) (hidden o).

(** All properties of an object, enumerable or not. *)
Definition kids {V : Type} (o : object V) : list (string * V) := own o ++ hidden o.

Definition child_locs (ps : list (string * layout)) : list loc :=
  flat_map (fun kv => locs (snd kv)) ps.

Fixpoint holds (st : store) (t : layout) : Prop :=
  match t with
  | LArray l items =>
      read st l = Some (CArray (map handle items))
      /\ (fix all (ts : list layout) : Prop :=
            match ts with
            | [] => True
            | x :: rest => holds st x /\ all rest
            end) items
  | LObject l k ps hs =>
      read st l = Some (CObject (mkObj k (map_values handle ps) (map_values handle hs)))
      /\ (fix all (ts : list (string * layout)) : Prop :=
            match ts with
            | [] => True
            | x :: rest => holds st (snd x) /\ all rest
            end) ps
      /\ (fix all (ts : list (string * layout)) : Prop :=
            match ts with
            | [] => True
            | x :: rest => holds st (snd x) /\ all rest
            end) hs
  | _ => True
  end.

(** A value laid out at new locations, one after the other, from [next]
    on: the layout, and the cells it takes in the order of their
    locations.  An array or object comes first, its parts follow. *)
Section PlaceAll.

Variable place : loc -> value -> layout * list cell.

Fixpoint place_items (next : loc) (vs : list value) : list layout * list cell :=
  match vs with
  | [] => ([], [])
  | x :: rest =>
      let (t, c) := place next x in
      let (ts, cs) := place_items (next + length c) rest in
      (t :: ts, c ++ cs)
  end.

Fixpoint place_props (next : loc) (ps : list (string * value))
  : list (string * layout) * list cell :=
  match ps with
  | [] => ([], [])
  | (key, x) :: rest =>
      let (t, c) := place next x in
      let (ts, cs) := place_props (next + length c) rest in
      ((key, t) :: ts, c ++ cs)
  end.

End PlaceAll.

Fixpoint place (next : loc) (v : value) {struct v} : layout * list cell :=
  match v with
  | VUndefined => (LUndefined, [])
  | VNull => (LNull, [])
  | VBool b => (LBool b, [])
  | VNumber n => (LNumber n, [])
  | VString s => (LString s, [])
  | VArray items =>
      let (ts, cs) := place_items place (S next) items in
      (LArray next ts, CArray (map handle ts) :: cs)
  | VObject k ps hs =>
      let (tps, cps) := place_props place (S next) ps in
      let (ths, chs) := place_props place (S next + length cps) hs in
      (LObject next k tps ths,
       CObject (mkObj k (map_values handle tps) (map_values handle ths)) :: cps ++ chs)
  end.

(** [t] and [cs] lay [v] out from [next] on. *)
Definition placed (next : loc) (v : value) (t : layout) (cs : list cell) : Prop :=
  erase t = v
  /\ (forall l, In l (locs t) -> next <= l < next + length cs)
  /\ NoDup (locs t)
  /\ (forall st, length st = next -> holds (st ++ cs) t).

Definition placing (v : value) : Prop :=
  forall next, placed next v (fst (place next v)) (snd (place next v)).

(** How often a location occurs in a list: layouts are kept apart by
    [NoDup] on their locations, that is, no location counts twice. *)
Definition count (xs : list loc) (x : loc) : nat := count_occ Nat.eq_dec xs x.

(** What one source has to do, for every store and every target laid
    out apart from it: enough fuel lets [merge] return, with the target
    it was given; the store then holds at the target's place the value
    that [merge_source] computes; the layout stays apart; only the
    places of target and source, and new ones, have changed. *)
Definition simulated (S : layout) : Prop :=
  forall (st : store) (T : layout),
    holds st T -> holds st S -> NoDup (locs T ++ locs S) ->
    exists n st' T',
        (forall fuel, n <= fuel ->
           Heap.merge fuel st (handle T) [handle S] = Some (st', handle T))
        /\ holds st' T'
        /\ handle T' = handle T
        /\ erase T' = Utils.merge_source (erase T) (erase S)
        /\ NoDup (locs T')
        /\ (forall x, In x (locs T') ->
                      In x (locs T) \/ In x (locs S) \/ length st <= x)
        /\ length st <= length st'
        /\ (forall l, l < length st -> ~ In l (locs T) -> ~ In l (locs S) ->
                      read st' l = read st l).

(** *** Arrays and objects changed in place *)

(** How a [Set] tells values apart: primitives by value, NaN the same
    as NaN, arrays and objects by the location they live at. *)
Definition same_value (a b : ref_value) : bool :=
  match a, b with
  | RUndefined, RUndefined | RNull, RNull | RNaN, RNaN => true
  | RBool x, RBool y => Bool.eqb x y
  | RNumber x, RNumber y => (x =? y)%Z
  | RString x, RString y => (x =? y)%string
  | RRef x, RRef y => (x =? y)%nat
  | _, _ => false
  end.

(** [a === b], which is how [indexOf] compares: as a [Set] does, but
    NaN is not equal to NaN. *)
Definition strict_equal (a b : ref_value) : bool :=
  match a with
  | RNaN => false
  | _ => same_value a b
  end.

(** [s.add(x)] on a [Set], held as its elements in insertion order. *)
Definition set_add (s : list ref_value) (x : ref_value) : list ref_value :=
  if existsb (same_value x) s then s else s ++ [x].

(** [[...new Set(items)]], as the elements of the new array. *)
Definition unique (items : list ref_value) : list ref_value :=
  fold_left set_add items [].

(** [xs.indexOf(x)] counted from [i]; [-1] when [x] is not in [xs]. *)
Fixpoint indexOf_from (i : Z) (xs : list ref_value) (x : ref_value) : Z :=
  match xs with
  | [] => (-1)%Z
  | y :: rest => if strict_equal y x then i else indexOf_from (i + 1) rest x
  end.

Definition indexOf (xs : list ref_value) (x : ref_value) : Z := indexOf_from 0 xs x.

Definition isArray (st : store) (v : ref_value) : bool :=
  match v with
  | RRef l => match read st l with
              | Some (CArray _) => true
              | _ => false
              end
  | _ => false
  end.

(** [acc.concat(v)]: an array is spread into the result, any other
    value is appended. *)
Definition concat (st : store) (acc : list ref_value) (v : ref_value)
  : list ref_value :=
  match v with
  | RRef l => match read st l with
              | Some (CArray items) => acc ++ items
              | _ => acc ++ [v]
              end
  | _ => acc ++ [v]
  end.

(** [arr.reduce((acc, v, i, arr) => ..., init)], from index [i] on. *)
Fixpoint reduce {A : Type} (f : A -> ref_value -> Z -> A) (rest : list ref_value)
    (i : Z) (acc : A) : A :=
  match rest with
  | [] => acc
  | v :: more => reduce f more (i + 1) (f acc v i)
  end.

(** [findDuplicates(items)], as the elements of the array returned. *)
Definition findDuplicates (st : store) (items : list ref_value) : list ref_value :=
  reduce (fun acc v i =>
            if negb (indexOf items v =? i)%Z && (indexOf acc v =? -1)%Z
            then concat st acc v else acc)
         items 0%Z [].

(** [asArray(data)]: the store after the call and the array returned. *)
Definition asArray (st : store) (data : ref_value) : store * ref_value :=
  match data with
  | RUndefined => let (l, st') := alloc st (CArray []) in (st', RRef l)
  | _ =>
      if isArray st data then (st, data)
      else let (l, st') := alloc st (CArray [data]) in (st', RRef l)
  end.

Definition delete_at (st : store) (t : loc) (k : string) : store :=
  match read st t with
  | Some (CObject o) => write st t (CObject (delete_prop o k))
  | _ => st
  end.

(** [renameKey(payload, from, to)]: the store after the call. *)
Definition renameKey (st : store) (payload : ref_value) (from to : string) : store :=
  if isObject st payload [] then
    match object_at st payload with
    | Some (p, o) =>
        if has_at st p from && negb (has_at st p to) then
          fold_left
            (fun st key =>
               let value := get_at st p key in
               let st := delete_at st p key in
               assign_at st p (if from =? key then to else key) value)
            (keys (own o)) st
        else st
    | None => st
    end
  else st.

(** [defaultValue(prop, option, defaultValue)]: the store after the
    call.  [prop] is typed as a dictionary; on a primitive the [in]
    operator throws, and arrays with named properties are not part of
    the store: both are [None].  An option that only [hidden] has is
    found by [in] and written back; that write throws where the
    property cannot be written (the mark [prepareEntity] leaves is such
    a property) and gives the object a property of its own where the
    option is inherited.  [hidden] does not tell the two apart, and the
    model gives no store for such an option: [None] again. *)
Definition defaultValue (st : store) (prop : ref_value) (optionName : string)
    (defaultValue : ref_value) : option store :=
  match object_at st prop with
  | Some (p, o) =>
      if negb (mem optionName (own o)) && mem optionName (hidden o) then None
      else Some (assign_at st p optionName
                   (if has_at st p optionName then get_at st p optionName
                    else defaultValue))
  | None => None
  end.

(** How often [x] occurs in [items]. *)
Definition occurrences (items : list ref_value) (x : ref_value) : nat :=
  length (filter (same_value x) items).

End Heap.

(* ================================================================= *)
(** ** Sample data *)

Module Examples.

Definition num (n : Z) : value := VNumber n.
Definition str (s : string) : value := VString s.
Definition literal (ps : props) : obj := mkObj KObject ps [].

(** An instance of an entity class: the ORM's prototype gives it the
    [__entity] marker and the [__serializedPrimaryKey] accessor. *)
Definition entity_of (className : string) (ps : props) (serializedPK : value) : obj :=
  mkObj (KClass className) ps
        [("__entity", VBool true); ("__serializedPrimaryKey", serializedPK)].

(** Modelled from the spec: the accessor [__serializedPrimaryKey]
    ([../entity]) is not part of the source at hand.  For an entity with
    a composite key the spec has the identity as the joined string, a
    nested entity contributing its own identity: the accessor of such an
    entity yields its own composite key hash. *)
Definition composite_entity (className : string) (ps : props)
    (meta : EntityMetadata unit) : obj :=
  entity_of className ps
    (VString (getCompositeKeyHash
                (mkObj (KClass className) ps [("__entity", VBool true)]) meta)).

(** Modelled from the spec: [Reference] ([../entity]) is not part of the
    source at hand; the spec has it as a wrapper around a domain object,
    distinct from a directly embedded one.  The wrapper holds the entity
    in its [entity] field and answers a read of the entity's primary key
    with the entity's own; it is recognised by [instanceof], not by the
    [__entity] marker, which is why [isEntity] takes its
    [allowReference] flag. *)
Definition reference_to (pk : string) (entity : obj) : obj :=
  mkObj (KBuiltin Reference) [("entity", VObj entity)]
        [("__reference", VBool true); (pk, get entity pk)].

Definition scalar_prop (n : string) : EntityProperty unit :=
  mkProp n "number" SCALAR false false None None None None.

Definition primary_prop (n : string) : EntityProperty unit :=
  mkProp n "number" SCALAR true false None None None None.

Definition many_to_one (n target : string) : EntityProperty unit :=
  mkProp n target MANY_TO_ONE false false None None None None.

(** [Author] has the single key [id]; [Car] has the composite key
    [(name, year)]; [Book] refers to an author, [Driver] to a car. *)
Definition AuthorMeta : EntityMetadata unit :=
  mkMeta "id" ["id"] false "id" [primary_prop "id"; scalar_prop "name"].

Definition CarMeta : EntityMetadata unit :=
  mkMeta "name" ["name"; "year"] true "name"
         [primary_prop "name"; primary_prop "year"].

Definition BookMeta : EntityMetadata unit :=
  mkMeta "id" ["id"] false "id"
         [primary_prop "id"; scalar_prop "title"; many_to_one "author" "Author"].

Definition DriverMeta : EntityMetadata unit :=
  mkMeta "id" ["id"] false "id" [primary_prop "id"; many_to_one "car" "Car"].

(** An entity class that declares a property called [__prepared]. *)
Definition FlagMeta : EntityMetadata unit :=
  mkMeta "id" ["id"] false "id" [primary_prop "id"; scalar_prop "__prepared"].

Definition registry : MetadataStorage unit :=
  fun entityName =>
    if entityName =? "Author" then Some AuthorMeta
    else if entityName =? "Car" then Some CarMeta
    else if entityName =? "Book" then Some BookMeta
    else if entityName =? "Driver" then Some DriverMeta
    else if entityName =? "Flag" then Some FlagMeta
    else None.

Definition clone_id (v : value) : value := v.

Definition no_wrapped_meta (o : obj) : option (EntityMetadata unit) := None.

Definition savedAuthor : obj :=
  entity_of "Author" [("id", num 7); ("name", str "Ann")] (num 7).

Definition unsavedAuthor : obj :=
  entity_of "Author" [("name", str "Ann")] VUndefined.

Definition bookOf (author : obj) : obj :=
  entity_of "Book" [("id", num 5); ("title", str "T"); ("author", VObj author)] (num 5).

(** The snapshot of [bookOf savedAuthor]. *)
Definition preparedBook : obj :=
  mkObj KObject [("id", num 5); ("title", str "T"); ("author", num 7)]
        [("__prepared", VBool true)].

Definition car : obj :=
  composite_entity "Car" [("name", str "audi"); ("year", num 2020)] CarMeta.

Definition driver : obj :=
  entity_of "Driver" [("id", num 3); ("car", VObj car)] (num 3).

Definition flag : obj :=
  entity_of "Flag" [("id", num 1); ("__prepared", VBool false)] (num 1).

(** Key fields [a, b] with [a = 1], [b = "x"], enumerated either way. *)
Definition PairMeta : EntityMetadata unit :=
  mkMeta "a" ["a"; "b"] true "a" [primary_prop "a"; primary_prop "b"].

Definition pair_ab : obj :=
  composite_entity "Pair" [("a", num 1); ("b", str "x")] PairMeta.
Definition pair_ba : obj :=
  composite_entity "Pair" [("b", str "x"); ("a", num 1)] PairMeta.
Definition pair_null : obj :=
  composite_entity "Pair" [("a", VNull); ("b", str "x")] PairMeta.

(** A composite key with a key field that is itself an entity. *)
Definition OwnershipMeta : EntityMetadata unit :=
  mkMeta "car" ["car"; "id"] true "car" [primary_prop "car"; primary_prop "id"].
Definition ownership : obj :=
  composite_entity "Ownership" [("car", VObj car); ("id", num 3)] OwnershipMeta.

(** Snapshots for [diff]. *)
Definition snapA : obj := literal [("x", num 1); ("y", num 2)].
Definition snapB : obj := literal [("x", num 1); ("y", num 3); ("z", num 4)].
Definition snapUndefined : obj := literal [("z", VUndefined)].

(** Data for [extractPK]: the raw key is present and falsy. *)
Definition SerializedMeta : EntityMetadata unit :=
  mkMeta "id" ["id"] false "sid" [primary_prop "id"].
Definition zeroKey : obj := literal [("id", num 0); ("sid", str "s")].
Definition rawKey : obj := literal [("id", num 4); ("sid", str "s")].
Definition zeroId : obj := literal [("id", num 0)].

(** Targets and sources for [merge]. *)
Definition mergeTarget : value := VObj (literal [("a", num 1)]).
Definition mergeSources : list value :=
  [VObj (literal [("a", num 2); ("b", num 3)]); VObj (literal [("a", num 4)])].
Definition nestedSource : obj := literal [("a", VObj (literal [("x", num 1)]))].

(** The same in a store: the target at location 0, the sources at 1
    and 2. *)
Definition cellOf (ps : list (string * Heap.ref_value)) : Heap.cell :=
  Heap.CObject (mkObj KObject ps []).

Definition mergeStore : Heap.store :=
  [cellOf [("a", Heap.RNumber 1)];
   cellOf [("a", Heap.RNumber 2); ("b", Heap.RNumber 3)];
   cellOf [("a", Heap.RNumber 4)]].

Definition mergeTargetAt : Heap.layout :=
  Heap.LObject 0 KObject [("a", Heap.LNumber 1)] [].

Definition mergeSourcesAt : list Heap.layout :=
  [Heap.LObject 1 KObject [("a", Heap.LNumber 2); ("b", Heap.LNumber 3)] [];
   Heap.LObject 2 KObject [("a", Heap.LNumber 4)] []].

(** A target that holds a number where the source holds a structure. *)
Definition nestedStore : Heap.store :=
  [cellOf [("a", Heap.RNumber 1)];
   cellOf [("a", Heap.RRef 2)];
   cellOf [("x", Heap.RNumber 1)]].

(** A second edition of the book, and what [diffEntities] finds
    changed. *)
Definition retitledBook : obj :=
  entity_of "Book" [("id", num 5); ("title", str "U"); ("author", VObj savedAuthor)]
            (num 5).

Definition titleChange : obj := literal [("title", str "U")].

(** The snapshot of [unsavedAuthor], who has no [id] yet. *)
Definition preparedUnsavedAuthor : obj :=
  mkObj KObject [("name", str "Ann")] [("__prepared", VBool true)].

(** Two numeric enums, [enum { A = 1, B }] and [enum { A, B }]. *)
Definition fromOne : list (string * Z) := [("A", 1%Z); ("B", 2%Z)].
Definition fromZero : list (string * Z) := [("A", 0%Z); ("B", 1%Z)].

(** Stand-ins for Node's path functions, on paths that are in normal
    form already. *)
Definition normalize_id (path : string) : string := path.
Definition relative_to_root (from to : string) : string := to.
Definition isAbsolute_posix (path : string) : bool := String.prefix "/" path.

(** Stores for [renameKey], [defaultValue] and [findDuplicates]: an
    object [{a: 1, b: 2}]; an object with a property that is not
    enumerable; an array [[1, 2]]. *)
Definition pairStore : Heap.store :=
  [cellOf [("a", Heap.RNumber 1); ("b", Heap.RNumber 2)]].

Definition markedStore : Heap.store :=
  [Heap.CObject (mkObj KObject [("a", Heap.RNumber 2)] [("mark", Heap.RNumber 1)])].

Definition arrayStore : Heap.store :=
  [Heap.CArray [Heap.RNumber 1; Heap.RNumber 2]].

Definition repeated : list Heap.ref_value :=
  [Heap.RNumber 1; Heap.RString "x"; Heap.RNumber 1; Heap.RNumber 2; Heap.RString "x"].


(** A payload with a field called [constructor]:
    [{constructor: null, id: 1}]. *)
Definition constructorField : obj := literal [("constructor", VNull); ("id", num 1)].

(** [ownership] and [driver] again, the car held through a [Reference]
    wrapper this time. *)
Definition wrappedOwnership : obj :=
  composite_entity "Ownership"
    [("car", VObj (reference_to "name" car)); ("id", num 3)] OwnershipMeta.

Definition wrappedDriver : obj :=
  entity_of "Driver" [("id", num 3); ("car", VObj (reference_to "name" car))] (num 3).
End Examples.

(* ================================================================= *)
(** ** Property lists: reads after writes *)

Section PropertyLists.

Context {V : Type}.
Implicit Types (ps qs : list (string * V)) (o : object V) (k : string) (v : V).

Lemma lookup_In k ps v : lookup k ps = Some v -> In (k, v) ps.
Proof.
  induction ps as [|[k' v'] rest IH]; simpl; [discriminate|].
  destruct (String.eqb_spec k' k) as [->|Hne].
  - intros [= ->]. now left.
  - intros H. right. auto.
Qed.

Lemma mem_keys k ps : mem k ps = true <-> In k (keys ps).
Proof.
  unfold mem. induction ps as [|[k' v'] rest IH]; simpl.
  - split; [discriminate | tauto].
  - destruct (String.eqb_spec k' k) as [->|Hne].
    + split; auto.
    + rewrite IH. split; [auto | intros [H|H]; [contradiction | exact H]].
Qed.

Lemma mem_false_keys k ps : mem k ps = false <-> ~ In k (keys ps).
Proof.
  rewrite <- mem_keys. destruct (mem k ps); split; intros; congruence.
Qed.

Lemma mem_lookup_none k ps : mem k ps = false -> lookup k ps = None.
Proof. unfold mem. now destruct (lookup k ps). Qed.

Lemma lookup_NoDup k v ps :
  NoDup (keys ps) -> In (k, v) ps -> lookup k ps = Some v.
Proof.
  induction ps as [|[k' v'] rest IH]; simpl; [tauto|].
  intros Hnd [Heq|Hin].
  - injection Heq as -> ->. now rewrite String.eqb_refl.
  - inversion Hnd as [|? ? Hnotin Hnd']; subst.
    destruct (String.eqb_spec k' k) as [->|Hne]; [|auto].
    exfalso. apply Hnotin. change (In (fst (k, v)) (map fst rest)).
    now apply in_map.
Qed.

Lemma keys_replace k v ps : keys (replace k v ps) = keys ps.
Proof.
  induction ps as [|[k' v'] rest IH]; simpl; [reflexivity|].
  destruct (k' =? k); simpl; [reflexivity | now rewrite IH].
Qed.

Lemma lookup_replace_same k v ps :
  mem k ps = true -> lookup k (replace k v ps) = Some v.
Proof.
  unfold mem. induction ps as [|[k' v'] rest IH]; simpl; [discriminate|].
  destruct (k' =? k) eqn:E; simpl; rewrite E; auto.
Qed.

Lemma lookup_replace_other k k' v ps :
  k' <> k -> lookup k' (replace k v ps) = lookup k' ps.
Proof.
  intros Hne. induction ps as [|[k0 v0] rest IH]; simpl; [reflexivity|].
  destruct (String.eqb_spec k0 k) as [->|Hk]; simpl.
  - destruct (String.eqb_spec k k'); [congruence | reflexivity].
  - now rewrite IH.
Qed.

Lemma replace_same_value k v ps : lookup k ps = Some v -> replace k v ps = ps.
Proof.
  induction ps as [|[k' v'] rest IH]; simpl; [reflexivity|].
  destruct (k' =? k).
  - now intros [= ->].
  - intros H. now rewrite IH.
Qed.

Lemma mem_replace k k' v ps : mem k' (replace k v ps) = mem k' ps.
Proof.
  destruct (mem k' ps) eqn:E.
  - apply mem_keys. rewrite keys_replace. now apply mem_keys.
  - apply mem_false_keys. rewrite keys_replace. now apply mem_false_keys.
Qed.

Lemma lookup_app k ps qs :
  lookup k (ps ++ qs) =
  match lookup k ps with Some v => Some v | None => lookup k qs end.
Proof.
  induction ps as [|[k' v'] rest IH]; simpl; [reflexivity|].
  now destruct (k' =? k).
Qed.

Lemma lookup_insert_index (n : Z) k k' v ps :
  lookup k ps = None ->
  lookup k' (insert_index n k v ps) = if k =? k' then Some v else lookup k' ps.
Proof.
  induction ps as [|[k0 v0] rest IH]; simpl; [reflexivity|].
  destruct (String.eqb_spec k0 k) as [->|Hk0]; [discriminate|]. intros Hk.
  destruct (array_index k0) as [m|]; [destruct (m <? n)%Z|]; simpl;
    try rewrite (IH Hk);
    destruct (String.eqb_spec k k') as [<-|Hkk']; try reflexivity;
    destruct (String.eqb_spec k0 k); congruence.
Qed.

Lemma lookup_add_prop k k' v ps :
  lookup k ps = None ->
  lookup k' (add_prop k v ps) = if k =? k' then Some v else lookup k' ps.
Proof.
  intros Hk. unfold add_prop. destruct (array_index k) as [n|].
  - now apply lookup_insert_index.
  - rewrite lookup_app. simpl.
    destruct (String.eqb_spec k k') as [<-|Hne].
    + now rewrite Hk.
    + now destruct (lookup k' ps).
Qed.

Lemma find_assign_same o k v : find (assign o k v) k = Some v.
Proof.
  unfold find, assign.
  destruct (mem k (own o)) eqn:Eo; simpl.
  - now rewrite lookup_replace_same.
  - destruct (mem k (hidden o)) eqn:Eh; simpl.
    + rewrite (mem_lookup_none _ _ Eo). now rewrite lookup_replace_same.
    + rewrite lookup_add_prop by now apply mem_lookup_none.
      now rewrite String.eqb_refl.
Qed.

Lemma lookup_assign_other o k k' v :
  k' <> k ->
  lookup k' (own (assign o k v)) = lookup k' (own o) /\
  lookup k' (hidden (assign o k v)) = lookup k' (hidden o).
Proof.
  intros Hne. unfold assign.
  destruct (mem k (own o)) eqn:Eo; simpl.
  - now rewrite lookup_replace_other.
  - destruct (mem k (hidden o)) eqn:Eh; simpl.
    + now rewrite lookup_replace_other.
    + rewrite lookup_add_prop by now apply mem_lookup_none.
      destruct (String.eqb_spec k k'); [congruence | auto].
Qed.

Lemma find_assign_other o k k' v : k' <> k -> find (assign o k v) k' = find o k'.
Proof.
  intros Hne. unfold find.
  destruct (lookup_assign_other o k k' v Hne) as [-> ->]. reflexivity.
Qed.

Lemma has_find o k : has o k = match find o k with Some _ => true | None => false end.
Proof.
  unfold has, find, mem. now destruct (lookup k (own o)).
Qed.

Lemma has_assign_other o k k' v : k' <> k -> has (assign o k v) k' = has o k'.
Proof. intros Hne. now rewrite !has_find, find_assign_other. Qed.

Lemma has_assign_same o k v : has (assign o k v) k = true.
Proof. now rewrite has_find, find_assign_same. Qed.

Lemma has_assign_mono o k k' v : has o k' = true -> has (assign o k v) k' = true.
Proof.
  intros H. destruct (String.eqb_spec k' k) as [->|Hne].
  - apply has_assign_same.
  - now rewrite has_assign_other.
Qed.

Lemma cls_assign o k v : cls (assign o k v) = cls o.
Proof.
  unfold assign. now destruct (mem k (own o)), (mem k (hidden o)).
Qed.

Lemma assign_found o k v : find o k = Some v -> assign o k v = o.
Proof.
  destruct o as [c ps hs]. unfold find, assign, mem. simpl.
  destruct (lookup k ps) as [w|] eqn:Ep.
  - intros [= ->]. now rewrite (replace_same_value k v ps Ep).
  - intros Eh. rewrite Eh. now rewrite (replace_same_value k v hs Eh).
Qed.

Lemma keys_assign o k k' v :
  In k' (keys (own (assign o k v))) -> k' = k \/ In k' (keys (own o)).
Proof.
  intros H. destruct (String.eqb_spec k' k) as [->|Hne]; [now left|]. right.
  apply mem_keys. apply mem_keys in H. unfold mem in *.
  now destruct (lookup_assign_other o k k' v Hne) as [<- _].
Qed.

Lemma find_defineProperty_same o k v : find (defineProperty o k v) k = Some v.
Proof.
  unfold find, defineProperty.
  destruct (mem k (own o)) eqn:Eo; simpl.
  - now rewrite lookup_replace_same.
  - destruct (mem k (hidden o)) eqn:Eh; simpl;
      rewrite (mem_lookup_none _ _ Eo).
    + now rewrite lookup_replace_same.
    + rewrite lookup_app, (mem_lookup_none _ _ Eh). simpl.
      now rewrite String.eqb_refl.
Qed.

Lemma keys_defineProperty o k v :
  keys (own (defineProperty o k v)) = keys (own o).
Proof.
  unfold defineProperty.
  destruct (mem k (own o)); simpl; [apply keys_replace|].
  now destruct (mem k (hidden o)).
Qed.

End PropertyLists.

Lemma get_assign_same (o : obj) (k : string) (v : value) :
  get (assign o k v) k = v.
Proof. unfold get. now rewrite find_assign_same. Qed.

Lemma get_assign_other (o : obj) (k k' : string) (v : value) :
  k' <> k -> get (assign o k v) k' = get o k'.
Proof. intros Hne. unfold get. now rewrite find_assign_other. Qed.

Lemma get_defineProperty_same (o : obj) (k : string) (v : value) :
  get (defineProperty o k v) k = v.
Proof. unfold get. now rewrite find_defineProperty_same. Qed.

Lemma assign_same (t : obj) (k : string) :
  has t k = true -> assign t k (get t k) = t.
Proof.
  rewrite has_find. unfold get. destruct (find t k) as [v|] eqn:E; [|discriminate].
  intros _. now apply assign_found.
Qed.

(* ================================================================= *)
(** ** prepareEntity *)

Section PrepareEntity.

Variable Platform : Type.
Variable clone : value -> value.
Variable metadata : MetadataStorage Platform.
Variable platform : Platform.

Lemma prepareEntity_marked (entity : obj) :
  truthy (get entity "__prepared") = true ->
  prepareEntity clone metadata platform entity = Some entity.
Proof. unfold prepareEntity. now intros ->. Qed.

Lemma prepareEntity_marks (entity snapshot : obj) :
  prepareEntity clone metadata platform entity = Some snapshot ->
  truthy (get snapshot "__prepared") = true.
Proof.
  unfold prepareEntity.
  destruct (truthy (get entity "__prepared")) eqn:E.
  - now intros [= <-].
  - destruct (metadata_get metadata (constructor_name (cls entity))) as [meta|];
      simpl; [|discriminate].
    destruct (fold_left _ (properties meta) (Some emptyObject)) as [ret|];
      simpl; [|discriminate].
    intros [= <-]. now rewrite get_defineProperty_same.
Qed.

(** A field that holds an entity, embedded as it is, whose primary key
    is not set is left out of the snapshot. *)
Lemma shouldIgnoreProperty_unsaved_entity (entity : obj)
    (prop : EntityProperty Platform) (meta : EntityMetadata Platform) :
  has entity (name prop) = true ->
  isEntity (get entity (name prop)) false = true ->
  metadata_get metadata (type prop) = Some meta ->
  truthy (vget (get entity (name prop)) (primaryKey meta)) = false ->
  shouldIgnoreProperty metadata entity prop = Some true.
Proof.
  intros Hhas Hent Hmeta Hkey. unfold shouldIgnoreProperty.
  rewrite Hhas, Hent, Hmeta. simpl. rewrite Hkey. simpl.
  now rewrite !orb_true_r.
Qed.

Lemma prepareProperty_ignored (entity ret : obj) (prop : EntityProperty Platform) :
  shouldIgnoreProperty metadata entity prop = Some true ->
  prepareProperty clone metadata platform entity ret prop = Some ret.
Proof. unfold prepareProperty. now intros ->. Qed.

(** A field that survives and holds an entity or a [Reference] is
    reduced to what a read of [meta.primaryKey] on it gives, [meta]
    being the descriptor of the property's type. *)
Lemma prepareProperty_reference (entity ret : obj)
    (prop : EntityProperty Platform) (meta : EntityMetadata Platform) :
  shouldIgnoreProperty metadata entity prop = Some false ->
  isEntity (get entity (name prop)) true = true ->
  metadata_get metadata (type prop) = Some meta ->
  prepareProperty clone metadata platform entity ret prop
  = Some (assign ret (name prop) (vget (get entity (name prop)) (primaryKey meta))).
Proof.
  intros Hkeep Hent Hmeta. unfold prepareProperty.
  now rewrite Hkeep; simpl; rewrite Hent, Hmeta.
Qed.

(** C1.  [prepareEntity] is idempotent: preparing what [prepareEntity]
    returned gives the same result again (and a refusal of the registry
    stays a refusal), for every entity, registry and platform; a value
    that already carries a truthy [__prepared] is returned as it is. *)
Theorem prepareEntity_idempotent (entity : obj) :
  (snapshot <- prepareEntity clone metadata platform entity ;;
   prepareEntity clone metadata platform snapshot)
  = prepareEntity clone metadata platform entity
  /\ (truthy (get entity "__prepared") = true ->
      prepareEntity clone metadata platform entity = Some entity).
Proof.
  split; [|apply prepareEntity_marked].
  destruct (prepareEntity clone metadata platform entity) as [snapshot|] eqn:E;
    simpl; [|reflexivity].
  apply prepareEntity_marked. eapply prepareEntity_marks. eassumption.
Qed.

Lemma diff_keys (a b : obj) (k : string) :
  In k (keys (own (diff a b))) -> In k (keys (own b)).
Proof.
  unfold diff.
  assert (G : forall ks ret,
             In k (keys (own (fold_left
               (fun ret k => if equals (get a k) (get b k) then ret
                             else assign ret k (get b k)) ks ret))) ->
             In k ks \/ In k (keys (own ret))).
  { induction ks as [|k0 ks IH]; simpl; intros ret H; [now right|].
    apply IH in H as [H|H]; [now left; right|].
    destruct (equals (get a k0) (get b k0)); [now right|].
    apply keys_assign in H as [->|H]; [now left; left | now right]. }
  intros H. apply G in H as [H|H]; [exact H | contradiction].
Qed.

Lemma prepareProperty_keys (entity ret ret' : obj) (prop : EntityProperty Platform)
    (k : string) :
  prepareProperty clone metadata platform entity ret prop = Some ret' ->
  In k (keys (own ret')) -> k = name prop \/ In k (keys (own ret)).
Proof.
  unfold prepareProperty.
  destruct (shouldIgnoreProperty metadata entity prop) as [[|]|]; simpl;
    [now intros [= <-]; right | | discriminate].
  destruct (isEntity (get entity (name prop)) true).
  - destruct (metadata_get metadata (type prop)); simpl; [|discriminate].
    intros [= <-]. apply keys_assign.
  - destruct (customType prop);
      [|destruct (isArray _ || isObject _ [])]; intros [= <-]; apply keys_assign.
Qed.

Lemma prepare_loop_keys (entity : obj) (ps : list (EntityProperty Platform))
    (acc : option obj) (ret' : obj) (k : string) :
  fold_left (fun acc prop =>
               ret <- acc ;; prepareProperty clone metadata platform entity ret prop)
            ps acc = Some ret' ->
  In k (keys (own ret')) ->
  In k (map name ps) \/ exists ret, acc = Some ret /\ In k (keys (own ret)).
Proof.
  revert acc. induction ps as [|prop ps IH]; simpl; intros acc Hfold Hin.
  - right. now exists ret'.
  - destruct (IH _ Hfold Hin) as [H|[ret1 [Hstep H]]]; [now left; right|].
    destruct acc as [ret|]; simpl in Hstep; [|discriminate].
    destruct (prepareProperty_keys _ _ _ _ _ Hstep H) as [->|H'];
      [now left; left | right; now exists ret].
Qed.

(** C9, as the code has it.  For an entity that is not yet marked, every
    enumerable key of the snapshot is the name of a property that the
    entity's metadata declares; and unless the metadata itself declares a
    property called [__prepared], the marker is not enumerable: a read
    finds it, [Object.keys] does not, and no [diff] against the snapshot
    lists it. *)
Theorem prepareEntity_snapshot_keys (entity snapshot : obj)
    (meta : EntityMetadata Platform) :
  truthy (get entity "__prepared") = false ->
  metadata_get metadata (constructor_name (cls entity)) = Some meta ->
  prepareEntity clone metadata platform entity = Some snapshot ->
  (forall k, In k (keys (own snapshot)) -> In k (map name (properties meta)))
  /\ (~ In "__prepared" (map name (properties meta)) ->
      mem "__prepared" (own snapshot) = false
      /\ get snapshot "__prepared" = VBool true
      /\ forall a, mem "__prepared" (own (diff a snapshot)) = false).
Proof.
  intros Hfresh Hmeta. unfold prepareEntity. rewrite Hfresh, Hmeta. simpl.
  destruct (fold_left _ (properties meta) (Some emptyObject)) as [ret|] eqn:Hloop;
    simpl; [|discriminate].
  intros [= <-].
  assert (Hkeys : forall k, In k (keys (own (defineProperty ret "__prepared" (VBool true)))) ->
                            In k (map name (properties meta))).
  { intros k. rewrite keys_defineProperty. intros Hin.
    destruct (prepare_loop_keys _ _ _ _ _ Hloop Hin) as [H|[ret0 [[= <-] H]]];
      [exact H | contradiction]. }
  split; [exact Hkeys|]. intros Hundeclared.
  assert (Hmem : mem "__prepared" (own (defineProperty ret "__prepared" (VBool true))) = false).
  { apply mem_false_keys. intros H. apply Hundeclared. now apply Hkeys. }
  repeat split.
  - exact Hmem.
  - apply get_defineProperty_same.
  - intros a. apply mem_false_keys. intros H. apply diff_keys in H.
    apply mem_false_keys in Hmem. contradiction.
Qed.

End PrepareEntity.

(* ================================================================= *)
(** ** diff *)

Lemma key_before_neq (k1 k2 : string) : key_before k1 k2 = true -> k1 <> k2.
Proof.
  unfold key_before. intros H ->.
  destruct (array_index k2).
  - apply Z.ltb_lt in H. lia.
  - now rewrite String.eqb_refl in H.
Qed.

Lemma enumerated_NoDup (ks : list string) : enumerated ks = true -> NoDup ks.
Proof.
  induction ks as [|k rest IH]; simpl; [constructor|].
  intros H. apply andb_prop in H as [Hk Hrest]. constructor; [|auto].
  intros Hin. rewrite forallb_forall in Hk.
  now apply (key_before_neq k k (Hk k Hin)).
Qed.

Lemma insert_index_last (n : Z) (k : string) (v : value) (ps : props) :
  array_index k = Some n ->
  forallb (fun k' => key_before k' k) (keys ps) = true ->
  insert_index n k v ps = ps ++ [(k, v)].
Proof.
  intros Hk. induction ps as [|[k0 v0] rest IH]; simpl; [reflexivity|].
  intros H. apply andb_prop in H as [H0 Hrest].
  unfold key_before in H0. rewrite Hk in H0.
  destruct (array_index k0) as [m|]; [|discriminate].
  rewrite H0. now rewrite IH.
Qed.

Lemma add_prop_last (k : string) (v : value) (ps : props) :
  forallb (fun k' => key_before k' k) (keys ps) = true ->
  add_prop k v ps = ps ++ [(k, v)].
Proof.
  intros H. unfold add_prop. destruct (array_index k) eqn:E; [|reflexivity].
  now apply insert_index_last.
Qed.

Lemma assign_last (k : string) (v : value) (ps : props) :
  forallb (fun k' => key_before k' k) (keys ps) = true ->
  assign (mkObj KObject ps []) k v = mkObj KObject (ps ++ [(k, v)]) [].
Proof.
  intros H. unfold assign. simpl.
  assert (Hmem : mem k ps = false).
  { apply mem_false_keys. intros Hin. rewrite forallb_forall in H.
    now apply (key_before_neq k k (H k Hin)). }
  rewrite Hmem. unfold mem. simpl. now rewrite add_prop_last.
Qed.

Lemma diff_entries (a b : obj) :
  NoDup (keys (own b)) -> diff a b = fold_left (diff_step a) (own b) emptyObject.
Proof.
  intros Hnd. unfold diff.
  assert (G : forall l ret,
             (forall kv, In kv l -> get b (fst kv) = snd kv) ->
             fold_left (fun ret k => if equals (get a k) (get b k) then ret
                                     else assign ret k (get b k)) (keys l) ret
             = fold_left (diff_step a) l ret).
  { induction l as [|kv l IH]; simpl; intros ret Hget; [reflexivity|].
    unfold diff_step at 2. rewrite (Hget kv) by now left.
    apply IH. intros kv' Hin. apply Hget. now right. }
  apply G. intros [k v] Hin. simpl. unfold get, find.
  now rewrite (lookup_NoDup k v (own b) Hnd Hin).
Qed.

Lemma diff_loop (a : obj) (l acc : props) :
  enumerated (keys l) = true ->
  (forall k, In k (keys l) -> forallb (fun k' => key_before k' k) (keys acc) = true) ->
  fold_left (diff_step a) l (mkObj KObject acc [])
  = mkObj KObject
      (acc ++ filter (fun kv => negb (equals (get a (fst kv)) (snd kv))) l) [].
Proof.
  revert acc. induction l as [|[k v] l IH]; simpl; intros acc Henum Hacc.
  - now rewrite app_nil_r.
  - apply andb_prop in Henum as [Hk Hl].
    unfold diff_step at 2. simpl.
    destruct (equals (get a k) v); simpl.
    + apply IH; auto.
    + rewrite assign_last by (apply Hacc; now left).
      rewrite IH; [now rewrite <- app_assoc | exact Hl |].
      intros k2 Hin. unfold keys in *. rewrite map_app, forallb_app. simpl.
      rewrite (Hacc k2) by now right.
      rewrite forallb_forall in Hk. now rewrite (Hk k2 Hin).
Qed.

(** C2, as the code has it.  [diff a b] holds exactly the fields of [b]
    whose value [equals] tells apart from what the same read gives on
    [a] ([undefined] for a field [a] lacks), each with [b]'s value and
    in [b]'s order; nothing of [a] alone appears.  For [{x:1, y:2}] and
    [{x:1, y:3, z:4}] that is [{y:3, z:4}]. *)
Theorem diff_changed_fields :
  (forall a b : obj,
      enumerated (keys (own b)) = true ->
      diff a b = mkObj KObject (changed_fields a b) [])
  /\ diff Examples.snapA Examples.snapB
     = Examples.literal [("y", VNumber 3); ("z", VNumber 4)].
Proof.
  split; [|reflexivity].
  intros a b Henum.
  rewrite diff_entries by now apply enumerated_NoDup.
  apply (diff_loop a (own b) [] Henum). reflexivity.
Qed.

(* ================================================================= *)
(** ** Primary keys *)

Lemma lookup_Permutation (k : string) (ps qs : props) :
  NoDup (keys ps) -> Permutation ps qs -> lookup k ps = lookup k qs.
Proof.
  intros Hnd Hperm. revert Hnd.
  induction Hperm as [|[k0 v0] ps qs Hperm IH|[k1 v1] [k2 v2] ps|ps qs rs H1 IH1 H2 IH2];
    intros Hnd.
  - reflexivity.
  - simpl. inversion Hnd; subst. now rewrite IH.
  - simpl. destruct (String.eqb_spec k2 k) as [->|H2]; [|reflexivity].
    destruct (String.eqb_spec k1 k) as [->|H1]; [|reflexivity].
    simpl in Hnd. inversion Hnd as [|? ? Hnotin _]; subst.
    exfalso. apply Hnotin. now left.
  - rewrite IH1 by assumption. apply IH2.
    unfold keys. eapply Permutation_NoDup; [|exact Hnd].
    now apply Permutation_map.
Qed.

Lemma get_Permutation (o o' : obj) (k : string) :
  NoDup (keys (own o)) -> Permutation (own o) (own o') -> hidden o = hidden o' ->
  get o k = get o' k.
Proof.
  intros Hnd Hperm Hhid. unfold get, find.
  now rewrite (lookup_Permutation k _ _ Hnd Hperm), Hhid.
Qed.

Lemma getCompositeKeyHash_segments {Platform : Type} (entity : obj)
    (meta : EntityMetadata Platform) :
  getCompositeKeyHash entity meta
  = String.concat "~" (map (key_segment entity) (primaryKeys meta)).
Proof.
  unfold getCompositeKeyHash, join. now rewrite map_map.
Qed.

(** The order in which the instance enumerates its fields does not
    matter to the composite key hash: it reads the key fields by name,
    in the order the metadata declares them. *)
Lemma getCompositeKeyHash_enumeration {Platform : Type} (entity entity' : obj)
    (meta : EntityMetadata Platform) :
  NoDup (keys (own entity)) ->
  Permutation (own entity) (own entity') ->
  hidden entity = hidden entity' ->
  getCompositeKeyHash entity meta = getCompositeKeyHash entity' meta.
Proof.
  intros Hnd Hperm Hhid.
  rewrite !getCompositeKeyHash_segments. f_equal.
  apply map_ext. intros pk. unfold key_segment.
  now rewrite (get_Permutation entity entity' pk Hnd Hperm Hhid).
Qed.

(** C8.  A key field whose value is [null] or [undefined] does not make
    [getCompositeKeyHash] fail: the hash is still the joined string, and
    the field's segment in it is empty. *)
Theorem getCompositeKeyHash_null_field {Platform : Type} (entity : obj)
    (meta : EntityMetadata Platform) (before after : list string) (pk : string) :
  primaryKeys meta = before ++ pk :: after ->
  get entity pk = VNull \/ get entity pk = VUndefined ->
  getCompositeKeyHash entity meta
  = String.concat "~"
      (map (key_segment entity) before ++ "" :: map (key_segment entity) after).
Proof.
  intros Hkeys Hnull. rewrite getCompositeKeyHash_segments, Hkeys, map_app. simpl.
  do 3 f_equal. unfold key_segment. now destruct Hnull as [-> | ->].
Qed.

Section ExtractPK.

Variable Platform : Type.
Variable wrapped_meta : obj -> option (EntityMetadata Platform).

Lemma isObject_VObj (o : obj) : isObject (VObj o) [] = true.
Proof. reflexivity. Qed.

Lemma as_obj_VObj (o : obj) : as_obj (VObj o) = Some o.
Proof. now destruct o. Qed.

(** C6, as the code has it.  A value shaped like a primary key is
    returned as it is.  For an object with the metadata of a single key,
    the result is the raw key field if that is truthy, else the
    serialized field if that is truthy, else [null]: the fallback is
    taken for every falsy raw value, an absent one among them.  Without
    metadata, and for a value that is neither key-shaped nor an object,
    the result is [null].  Each case is for a value on which the test of
    the key's shape gives an answer; where that test throws there is no
    result. *)
Theorem extractPK_cases (data : value) (meta : option (EntityMetadata Platform)) :
  (isPrimaryKey data = Some true -> extractPK wrapped_meta data meta = Some data)
  /\ (forall (o : obj) (m : EntityMetadata Platform),
         isPrimaryKey data = Some false -> data = VObj o -> meta = Some m ->
         compositePK m = false ->
         extractPK wrapped_meta data meta
         = Some (if truthy (get o (primaryKey m)) then get o (primaryKey m)
                 else if truthy (get o (serializedPrimaryKey m))
                      then get o (serializedPrimaryKey m)
                      else VNull))
  /\ (isPrimaryKey data = Some false -> meta = None ->
      (forall o, as_obj data = Some o -> isEntity data false = true ->
                 wrapped_meta o = None) ->
      extractPK wrapped_meta data meta = Some VNull)
  /\ (isPrimaryKey data = Some false -> isObject data [] = false ->
      extractPK wrapped_meta data meta = Some VNull)
  /\ (isPrimaryKey data = None -> extractPK wrapped_meta data meta = None).
Proof.
  unfold extractPK. repeat split.
  - now intros ->.
  - intros o m -> -> -> Hsingle. cbn [bind].
    rewrite isObject_VObj, as_obj_VObj, Hsingle. unfold or_else.
    destruct (truthy (get o (primaryKey m))) eqn:E1; rewrite ?E1; [reflexivity|].
    now destruct (truthy (get o (serializedPrimaryKey m))).
  - intros -> -> Hnone. cbn [bind]. unfold wrap.
    destruct (isEntity data false) eqn:Eent.
    + destruct (as_obj data) as [o|] eqn:Eo.
      * rewrite (Hnone o eq_refl eq_refl). now destruct (isObject data []).
      * now destruct (isObject data []).
    + now destruct (isObject data []), (as_obj data).
  - intros -> Hobj. cbn [bind]. rewrite Hobj.
    now destruct meta; [|destruct (isEntity data false); [destruct (as_obj (wrap data)) as [o|]; [destruct (wrapped_meta o)|]|]].
  - now intros ->.
Qed.

End ExtractPK.

(* ================================================================= *)
(** ** merge *)

Lemma vget_VObj (o : obj) (k : string) : vget (VObj o) k = get o k.
Proof. now destruct o. Qed.

Lemma merge_source_obj (t s : obj) :
  merge_source (VObj t) (VObj s) = VObj (fold_left merge_entry (own s) t).
Proof.
  destruct t as [kt pt ht], s as [ks ps hs]. unfold VObj at 1 2. simpl.
  f_equal. generalize (mkObj kt pt ht) as t.
  induction ps as [|[key value] rest IH]; intros t; simpl; [reflexivity|].
  now rewrite IH.
Qed.

Lemma merge_source_not_object (target source : value) :
  isObject target [] = false \/ isObject source [] = false ->
  merge_source target source = target.
Proof.
  intros H. destruct source; try reflexivity. simpl.
  destruct H as [Ht | Hs]; [|discriminate].
  now destruct target.
Qed.

Lemma merge_single (target source : value) :
  merge target [source] = merge_source target source.
Proof. reflexivity. Qed.

Lemma merge_app (target : value) (xs ys : list value) :
  merge target (xs ++ ys) = merge (merge target xs) ys.
Proof.
  revert target. induction xs as [|x xs IH]; intros target; simpl; auto.
Qed.

Lemma merge_entry_other (t : obj) (entry : string * value) (k : string) :
  k <> fst entry ->
  get (merge_entry t entry) k = get t k /\ has (merge_entry t entry) k = has t k.
Proof.
  destruct entry as [key value]. simpl. intros Hne.
  destruct (isObject value [Date; RegExp; Buffer]).
  - rewrite get_assign_other, has_assign_other by assumption.
    destruct (has t key); [auto|].
    now rewrite get_assign_other, has_assign_other.
  - now rewrite get_assign_other, has_assign_other.
Qed.

Lemma merge_entries_other (entries : props) (t : obj) (k : string) :
  ~ In k (keys entries) ->
  get (fold_left merge_entry entries t) k = get t k
  /\ has (fold_left merge_entry entries t) k = has t k.
Proof.
  revert t. induction entries as [|entry rest IH]; intros t Hnotin; simpl; [auto|].
  simpl in Hnotin.
  destruct (IH (merge_entry t entry)) as [-> ->]; [tauto|].
  apply merge_entry_other. intros ->. tauto.
Qed.

Lemma merge_entry_cls (t : obj) (entry : string * value) :
  cls (merge_entry t entry) = cls t.
Proof.
  destruct entry as [key value]. simpl.
  destruct (isObject value [Date; RegExp; Buffer]); rewrite cls_assign; [|reflexivity].
  destruct (has t key); [reflexivity | apply cls_assign].
Qed.

Lemma merge_entry_has (t : obj) (entry : string * value) (k : string) :
  has t k = true -> has (merge_entry t entry) k = true.
Proof.
  destruct entry as [key value]. simpl. intros H.
  destruct (isObject value [Date; RegExp; Buffer]); apply has_assign_mono; [|exact H].
  destruct (has t key); [exact H | now apply has_assign_mono].
Qed.

Lemma merge_entries_kept (entries : props) (t : obj) :
  cls (fold_left merge_entry entries t) = cls t
  /\ forall k, has t k = true -> has (fold_left merge_entry entries t) k = true.
Proof.
  revert t. induction entries as [|entry rest IH]; intros t; simpl; [auto|].
  destruct (IH (merge_entry t entry)) as [Hcls Hhas]. split.
  - now rewrite Hcls, merge_entry_cls.
  - intros k Hk. apply Hhas. now apply merge_entry_has.
Qed.

Lemma merge_source_kept (t : obj) (source : value) :
  exists t', merge_source (VObj t) source = VObj t'
             /\ cls t' = cls t
             /\ forall k, has t k = true -> has t' k = true.
Proof.
  destruct (isObject source []) eqn:Es.
  - destruct source as [| | | | | |c ps hs]; try discriminate.
    change (VObject c ps hs) with (VObj (mkObj c ps hs)).
    rewrite merge_source_obj. eexists. split; [reflexivity|].
    apply merge_entries_kept.
  - exists t. rewrite merge_source_not_object by now right. auto.
Qed.

Lemma merge_kept (sources : list value) (t : obj) :
  exists t', merge (VObj t) sources = VObj t'
             /\ cls t' = cls t
             /\ forall k, has t k = true -> has t' k = true.
Proof.
  revert t. induction sources as [|source rest IH]; intros t; simpl.
  - exists t. auto.
  - destruct (merge_source_kept t source) as [t1 [-> [Hcls1 Hhas1]]].
    destruct (IH t1) as [t2 [-> [Hcls2 Hhas2]]].
    exists t2. split; [reflexivity|]. split; [congruence | auto].
Qed.

Lemma entries_split (k : string) (v : value) (entries : props) :
  NoDup (keys entries) -> lookup k entries = Some v ->
  exists before after,
    entries = before ++ (k, v) :: after
    /\ ~ In k (keys before) /\ ~ In k (keys after).
Proof.
  intros Hnd Hlook. apply lookup_In in Hlook.
  destruct (in_split _ _ Hlook) as [before [after ->]].
  exists before, after. split; [reflexivity|].
  unfold keys in *. rewrite map_app in Hnd. simpl in Hnd.
  pose proof (NoDup_remove_2 _ _ _ Hnd) as Hnotin.
  split; intros Hin; apply Hnotin; apply in_or_app; [now left | now right].
Qed.

(** What [merge] leaves at a key that the source holds, in terms of the
    target before the call. *)
Lemma merge_source_at (t s : obj) (k : string) (v : value) :
  NoDup (keys (own s)) -> lookup k (own s) = Some v ->
  vget (merge_source (VObj t) (VObj s)) k
  = if isObject v [Date; RegExp; Buffer]
    then merge_source (if has t k then get t k else VObj emptyObject) v
    else v.
Proof.
  intros Hnd Hlook.
  destruct (entries_split k v (own s) Hnd Hlook) as [before [after [Heq [Hb Ha]]]].
  rewrite merge_source_obj, vget_VObj, Heq, fold_left_app. cbn [fold_left].
  destruct (merge_entries_other after
              (merge_entry (fold_left merge_entry before t) (k, v)) k Ha) as [-> _].
  destruct (merge_entries_other before t k Hb) as [Hget Hhas].
  cbn [merge_entry]. destruct (isObject v [Date; RegExp; Buffer]).
  - rewrite get_assign_same, Hhas.
    destruct (has t k); [now rewrite Hget | now rewrite get_assign_same].
  - apply get_assign_same.
Qed.


(* ================================================================= *)
(** ** merge in a store *)

Module HeapFacts.

Import Heap.

(** *** The store *)

Lemma read_lt (st : store) (l : loc) (c : cell) :
  read st l = Some c -> l < length st.
Proof. intros H. apply nth_error_Some. unfold read in H. congruence. Qed.

Lemma length_write (st : store) (l : loc) (c : cell) :
  length (write st l c) = length st.
Proof.
  revert l. induction st as [|c0 st IH]; intros [|l]; simpl; auto.
Qed.

Lemma read_write_same (st : store) (l : loc) (c : cell) :
  l < length st -> read (write st l c) l = Some c.
Proof.
  revert l. induction st as [|c0 st IH]; intros [|l]; simpl; try lia; auto.
  intros H. apply IH. lia.
Qed.

Lemma read_write_other (st : store) (l l' : loc) (c : cell) :
  l' <> l -> read (write st l c) l' = read st l'.
Proof.
  revert l l'. induction st as [|c0 st IH]; intros [|l] [|l']; simpl; try congruence; auto.
Qed.

Lemma read_alloc_old (st : store) (c : cell) (l : loc) :
  l < length st -> read (st ++ [c]) l = read st l.
Proof. intros H. unfold read. now rewrite nth_error_app1. Qed.

Lemma read_alloc_new (st : store) (c : cell) :
  read (st ++ [c]) (length st) = Some c.
Proof.
  unfold read. rewrite nth_error_app2 by lia. now rewrite Nat.sub_diag.
Qed.

(** *** Mapping the values of a property list *)

Section MapValues.

Context {A B : Type} (f : A -> B).

Lemma keys_map_values (ps : list (string * A)) : keys (map_values f ps) = keys ps.
Proof. unfold keys, map_values. rewrite map_map. now apply map_ext. Qed.

Lemma lookup_map_values (k : string) (ps : list (string * A)) :
  lookup k (map_values f ps) = option_map f (lookup k ps).
Proof.
  induction ps as [|[k' v'] rest IH]; simpl; [reflexivity|].
  now destruct (k' =? k).
Qed.

Lemma mem_map_values (k : string) (ps : list (string * A)) :
  mem k (map_values f ps) = mem k ps.
Proof. unfold mem. rewrite lookup_map_values. now destruct (lookup k ps). Qed.

Lemma replace_map_values (k : string) (v : A) (ps : list (string * A)) :
  map_values f (replace k v ps) = replace k (f v) (map_values f ps).
Proof.
  induction ps as [|[k' v'] rest IH]; simpl; [reflexivity|].
  destruct (k' =? k); simpl; [reflexivity | now rewrite IH].
Qed.

Lemma insert_index_map_values (n : Z) (k : string) (v : A) (ps : list (string * A)) :
  map_values f (insert_index n k v ps) = insert_index n k (f v) (map_values f ps).
Proof.
  induction ps as [|[k' v'] rest IH]; simpl; [reflexivity|].
  destruct (array_index k') as [m|]; [destruct (m <? n)%Z|]; simpl;
    try reflexivity. now rewrite IH.
Qed.

Lemma add_prop_map_values (k : string) (v : A) (ps : list (string * A)) :
  map_values f (add_prop k v ps) = add_prop k (f v) (map_values f ps).
Proof.
  unfold add_prop. destruct (array_index k).
  - apply insert_index_map_values.
  - unfold map_values. now rewrite map_app.
Qed.

Lemma assign_map_object (o : object A) (k : string) (v : A) :
  map_object f (assign o k v) = assign (map_object f o) k (f v).
Proof.
  unfold assign, map_object. simpl. rewrite !mem_map_values.
  destruct (mem k (own o)); simpl; [now rewrite replace_map_values|].
  destruct (mem k (hidden o)); simpl;
    [now rewrite replace_map_values | now rewrite add_prop_map_values].
Qed.

Lemma has_map_object (o : object A) (k : string) :
  has (map_object f o) k = has o k.
Proof. unfold has, map_object. simpl. now rewrite !mem_map_values. Qed.

Lemma find_map_object (o : object A) (k : string) :
  find (map_object f o) k = option_map f (find o k).
Proof.
  unfold find, map_object. simpl. rewrite !lookup_map_values.
  now destruct (lookup k (own o)).
Qed.

End MapValues.

(** *** The shape of an object after an assignment *)

Lemma replace_split {V : Type} (k : string) (old : V) (ps : list (string * V)) :
  lookup k ps = Some old ->
  exists before after,
    ps = before ++ (k, old) :: after
    /\ forall v, replace k v ps = before ++ (k, v) :: after.
Proof.
  induction ps as [|[k' v'] rest IH]; simpl; [discriminate|].
  destruct (String.eqb_spec k' k) as [->|Hne].
  - intros [= ->]. now exists [], rest.
  - intros H. destruct (IH H) as [before [after [-> Hrep]]].
    exists ((k', v') :: before), after. split; [reflexivity|].
    intros v. simpl. now rewrite Hrep.
Qed.

Lemma insert_index_split {V : Type} (n : Z) (k : string) (v : V)
    (ps : list (string * V)) :
  exists before after,
    ps = before ++ after /\ insert_index n k v ps = before ++ (k, v) :: after.
Proof.
  induction ps as [|[k' v'] rest IH]; simpl.
  - now exists [], [].
  - destruct IH as [before [after [Hps Hins]]].
    destruct (array_index k') as [m|]; [destruct (m <? n)%Z|].
    + exists ((k', v') :: before), after. simpl. now rewrite <- Hps, Hins.
    + now exists [], ((k', v') :: rest).
    + now exists [], ((k', v') :: rest).
Qed.

Lemma add_prop_split {V : Type} (k : string) (v : V) (ps : list (string * V)) :
  exists before after,
    ps = before ++ after /\ add_prop k v ps = before ++ (k, v) :: after.
Proof.
  unfold add_prop. destruct (array_index k).
  - apply insert_index_split.
  - exists ps, []. now rewrite app_nil_r.
Qed.

(** The properties of [assign o k v] are those of [o] with [(k, v)] in
    the place of the property that a read of [k] finds, or at a new
    place if it finds none. *)
Lemma assign_kids_found {V : Type} (o : object V) (k : string) (old : V) :
  find o k = Some old ->
  exists before after,
    kids o = before ++ (k, old) :: after
    /\ forall v, kids (assign o k v) = before ++ (k, v) :: after.
Proof.
  unfold kids, assign, find, mem.
  destruct (lookup k (own o)) as [w|] eqn:Eo; simpl.
  - intros [= ->].
    destruct (replace_split k old (own o) Eo) as [before [after [Hold Hnew]]].
    exists before, (after ++ hidden o). rewrite Hold at 1.
    split; [now rewrite <- app_assoc|].
    intros v. rewrite Hnew. now rewrite <- app_assoc.
  - intros Eh. rewrite Eh.
    destruct (replace_split k old (hidden o) Eh) as [before [after [Hold Hnew]]].
    exists (own o ++ before), after. rewrite Hold at 1.
    split; [now rewrite <- app_assoc|].
    intros v. simpl. rewrite Hnew. now rewrite <- app_assoc.
Qed.

Lemma assign_kids {V : Type} (o : object V) (k : string) (v : V) :
  exists before after,
    kids (assign o k v) = before ++ (k, v) :: after
    /\ kids o = before
                ++ match find o k with Some old => [(k, old)] | None => [] end
                ++ after.
Proof.
  destruct (find o k) as [old|] eqn:Efind.
  - destruct (assign_kids_found o k old Efind) as [before [after [Hold Hnew]]].
    exists before, after. now rewrite Hnew, Hold.
  - unfold find in Efind. unfold kids, assign, mem.
    destruct (lookup k (own o)) as [w|] eqn:Eo; [discriminate|].
    rewrite Efind. simpl.
    destruct (add_prop_split k v (own o)) as [before [after [-> ->]]].
    exists before, (after ++ hidden o). now rewrite <- !app_assoc.
Qed.


(** *** Layouts *)

Lemma layout_ind (P : layout -> Prop) :
  P LUndefined -> P LNull -> (forall b, P (LBool b)) -> (forall n, P (LNumber n)) ->
  (forall s, P (LString s)) ->
  (forall l items, Forall P items -> P (LArray l items)) ->
  (forall l k ps hs,
      Forall (fun kv => P (snd kv)) ps -> Forall (fun kv => P (snd kv)) hs ->
      P (LObject l k ps hs)) ->
  forall t, P t.
Proof.
  intros Hu Hn Hb Hz Hs Ha Ho.
  fix IH 1. intros [| | b | n | s | l items | l k ps hs].
  - exact Hu.
  - exact Hn.
  - apply Hb.
  - apply Hz.
  - apply Hs.
  - apply Ha. induction items as [|x rest IHitems]; constructor;
      [apply IH | exact IHitems].
  - apply Ho.
    + induction ps as [|x rest IHps]; constructor; [apply IH | exact IHps].
    + induction hs as [|x rest IHhs]; constructor; [apply IH | exact IHhs].
Qed.

Lemma holds_array (st : store) (l : loc) (items : list layout) :
  holds st (LArray l items)
  <-> read st l = Some (CArray (map handle items)) /\ Forall (holds st) items.
Proof.
  simpl. apply and_iff_compat_l.
  induction items as [|x rest IH]; [split; auto|].
  rewrite IH. split; [intros [H1 H2]; now constructor | now inversion 1].
Qed.

Lemma holds_node (st : store) (l : loc) (o : object layout) :
  holds st (node l o)
  <-> read st l = Some (CObject (map_object handle o))
      /\ Forall (fun kv => holds st (snd kv)) (kids o).
Proof.
  assert (G : forall ts,
             (fix all (ts : list (string * layout)) : Prop :=
                match ts with
                | [] => True
                | x :: rest => holds st (snd x) /\ all rest
                end) ts
             <-> Forall (fun kv => holds st (snd kv)) ts).
  { induction ts as [|x rest IH]; [split; auto|].
    rewrite IH. split; [intros [H1 H2]; now constructor | now inversion 1]. }
  unfold node, kids. simpl. rewrite !G, Forall_app. reflexivity.
Qed.

Lemma node_eta (l : loc) (k : klass) (ps hs : list (string * layout)) :
  LObject l k ps hs = node l (mkObj k ps hs).
Proof. reflexivity. Qed.

Lemma locs_node (l : loc) (o : object layout) :
  locs (node l o) = l :: child_locs (kids o).
Proof. unfold node, kids, child_locs. simpl. now rewrite flat_map_app. Qed.

Lemma erase_node (l : loc) (o : object layout) :
  erase (node l o) = VObj (map_object erase o).
Proof. reflexivity. Qed.

(** What a layout says of the store depends on its locations only. *)
Lemma holds_frame (st st' : store) (t : layout) :
  (forall l, In l (locs t) -> read st' l = read st l) ->
  holds st t -> holds st' t.
Proof.
  induction t as [| | b | n | s | l items IH | l k ps hs IHps IHhs] using layout_ind;
    auto.
  - rewrite !holds_array. simpl. intros Hsame [Hread Hitems]. split.
    + rewrite Hsame by now left. exact Hread.
    + rewrite Forall_forall in *. intros x Hx. apply IH; auto.
      intros l' Hl'. apply Hsame. right. apply in_flat_map. eauto.
  - rewrite node_eta, !holds_node, locs_node. unfold kids. simpl.
    intros Hsame [Hread Hkids]. split.
    + rewrite Hsame by now left. exact Hread.
    + pose proof (proj2 (Forall_app _ _ _) (conj IHps IHhs)) as IH.
      rewrite Forall_forall in *. intros x Hx. apply IH; auto.
      intros l' Hl'. apply Hsame. right. apply in_flat_map. eauto.
Qed.

Lemma holds_lt (st : store) (t : layout) (l : loc) :
  holds st t -> In l (locs t) -> l < length st.
Proof.
  revert l.
  induction t as [| | b | n | s | l0 items IH | l0 k ps hs IHps IHhs] using layout_ind;
    simpl; try tauto.
  - intros l. change (holds st (LArray l0 items) -> l0 = l \/ In l (flat_map locs items) -> l < length st).
    rewrite holds_array. intros [Hread Hitems] [<-|Hin].
    + eapply read_lt; eauto.
    + apply in_flat_map in Hin as [x [Hx Hl]].
      rewrite Forall_forall in *. eapply IH; eauto.
  - intros l. rewrite <- flat_map_app.
    change (holds st (node l0 (mkObj k ps hs)) ->
            l0 = l \/ In l (child_locs (kids (mkObj k ps hs))) -> l < length st).
    rewrite holds_node. intros [Hread Hkids] [<-|Hin].
    + eapply read_lt; eauto.
    + apply in_flat_map in Hin as [x [Hx Hl]].
      pose proof (proj2 (Forall_app _ _ _) (conj IHps IHhs)) as IH.
      rewrite Forall_forall in *. eapply IH; eauto.
Qed.

(** The store answers [isObject] for a handle as the value itself does. *)
Lemma isObject_handle (st : store) (t : layout) (not : list builtin) :
  holds st t -> Heap.isObject st (handle t) not = Utils.isObject (erase t) not.
Proof.
  destruct t as [| | b | n | s | l items | l k ps hs]; try reflexivity.
  - rewrite holds_array. intros [Hread _].
    unfold Heap.isObject, object_at. simpl. now rewrite Hread.
  - rewrite node_eta, holds_node. intros [Hread _].
    unfold Heap.isObject, object_at. simpl. now rewrite Hread.
Qed.

(** *** Separation

    Layouts are kept apart by [NoDup] on their locations; a list has no
    location twice when no location counts more than once in it, which
    turns the bookkeeping into arithmetic. *)

Lemma NoDup_count (xs : list loc) : NoDup xs <-> forall x, count xs x <= 1.
Proof. apply NoDup_count_occ. Qed.

Lemma In_count (xs : list loc) (x : loc) : In x xs <-> 1 <= count xs x.
Proof. unfold count. rewrite (count_occ_In Nat.eq_dec). lia. Qed.

Lemma count_app (xs ys : list loc) (x : loc) :
  count (xs ++ ys) x = count xs x + count ys x.
Proof. apply count_occ_app. Qed.

Lemma count_cons (y : loc) (xs : list loc) (x : loc) :
  count (y :: xs) x = (if Nat.eq_dec y x then 1 else 0) + count xs x.
Proof. unfold count. simpl. now destruct (Nat.eq_dec y x). Qed.

Lemma count_nil (x : loc) : count [] x = 0.
Proof. reflexivity. Qed.

Lemma child_locs_app (ps qs : list (string * layout)) :
  child_locs (ps ++ qs) = child_locs ps ++ child_locs qs.
Proof. apply flat_map_app. Qed.

Lemma child_locs_cons (k : string) (c : layout) (ps : list (string * layout)) :
  child_locs ((k, c) :: ps) = locs c ++ child_locs ps.
Proof. reflexivity. Qed.

Lemma child_locs_old (k : string) (old : option layout) :
  child_locs (match old with Some c => [(k, c)] | None => [] end)
  = match old with Some c => locs c | None => [] end.
Proof. destruct old; simpl; [apply app_nil_r | reflexivity]. Qed.

Lemma child_locs_In (ps : list (string * layout)) (kv : string * layout) (l : loc) :
  In kv ps -> In l (locs (snd kv)) -> In l (child_locs ps).
Proof. intros H1 H2. unfold child_locs. apply in_flat_map. eauto. Qed.

(** The method's loop, in its own words. *)
Lemma merge_cons (fuel : nat) (st : store) (target source : ref_value)
    (rest : list ref_value) :
  Heap.merge (S fuel) st target (source :: rest)
  = (st' <- (if Heap.isObject st target [] && Heap.isObject st source [] then
               match object_at st target, object_at st source with
               | Some (t, _), Some (_, src) => merge_entries fuel t (own src) st
               | _, _ => Some st
               end
             else Some st) ;;
     Heap.merge fuel st' target rest).
Proof.
  simpl.
  destruct (Heap.isObject st target [] && Heap.isObject st source []); [|reflexivity].
  destruct (object_at st target) as [[t ot]|]; [|reflexivity].
  destruct (object_at st source) as [[s src]|]; [|reflexivity].
  f_equal. generalize st as st0. generalize (own src) as entries.
  induction entries as [|[key value] more IH]; intros st0; simpl; [reflexivity|].
  destruct (Heap.isObject st0 value [Date; RegExp; Buffer]).
  - destruct (merge fuel _ _ [value]) as [r|]; simpl; [apply IH | reflexivity].
  - simpl. apply IH.
Qed.

Lemma merge_nil (fuel : nat) (st : store) (target : ref_value) :
  Heap.merge (S fuel) st target [] = Some (st, target).
Proof. reflexivity. Qed.

Ltac counting :=
  repeat (progress (rewrite ?count_app, ?count_cons, ?count_nil in *));
  repeat match goal with
         | |- context [Nat.eq_dec ?a ?b] => destruct (Nat.eq_dec a b)
         | H : context [Nat.eq_dec ?a ?b] |- _ => destruct (Nat.eq_dec a b)
         end;
  try lia.

(** [target[key] = c] on the store, for a value [c] that is laid out
    apart from the target. *)
Lemma assign_at_holds (st : store) (lt : loc) (o : object layout) (key : string)
    (c : layout) :
  holds st (node lt o) -> holds st c -> NoDup (locs (node lt o) ++ locs c) ->
  holds (assign_at st lt key (handle c)) (node lt (assign o key c))
  /\ NoDup (locs (node lt (assign o key c)))
  /\ (forall x, In x (locs (node lt (assign o key c))) ->
                In x (locs (node lt o)) \/ In x (locs c))
  /\ length (assign_at st lt key (handle c)) = length st
  /\ (forall l, l <> lt -> read (assign_at st lt key (handle c)) l = read st l).
Proof.
  intros HT Hc Hnd.
  rewrite holds_node in HT. destruct HT as [Hread Hkids].
  unfold assign_at. rewrite Hread.
  destruct (assign_kids o key c) as [before [after [Hnew Hold]]].
  assert (Hlt : lt < length st) by (eapply read_lt; eauto).
  assert (Hframe : forall l, l <> lt ->
            read (write st lt (CObject (assign (map_object handle o) key (handle c)))) l
            = read st l) by (intros; now apply read_write_other).
  rewrite locs_node in Hnd.
  assert (Hnotin : ~ In lt (child_locs (kids o) ++ locs c))
    by (simpl in Hnd; now apply NoDup_cons_iff in Hnd).
  rewrite in_app_iff in Hnotin.
  split; [|split; [|split; [|split]]].
  - rewrite holds_node. split.
    + rewrite read_write_same by exact Hlt. now rewrite assign_map_object.
    + rewrite Hnew. rewrite Hold, !Forall_app in Hkids.
      destruct Hkids as [Hkb [_ Hka]].
      assert (Hkeep : forall x, In x before \/ In x after ->
                holds st (snd x) ->
                holds (write st lt (CObject (assign (map_object handle o) key (handle c))))
                      (snd x)).
      { intros x Hx Hholds. eapply holds_frame; [|exact Hholds].
        intros l Hl. apply Hframe. intros ->. apply Hnotin. left.
        apply (child_locs_In _ x); [|exact Hl]. rewrite Hold, !in_app_iff. tauto. }
      apply Forall_app. split; [|constructor].
      * rewrite Forall_forall in *. intros x Hx. apply Hkeep; auto.
      * simpl. eapply holds_frame; [|exact Hc].
        intros l Hl. apply Hframe. intros ->. tauto.
      * rewrite Forall_forall in *. intros x Hx. apply Hkeep; auto.
  - rewrite locs_node, Hnew, child_locs_app, child_locs_cons.
    rewrite Hold, !child_locs_app, child_locs_old in Hnd.
    rewrite NoDup_count in *. intros x. specialize (Hnd x). counting.
  - rewrite !locs_node, Hnew, Hold, !child_locs_app, child_locs_cons.
    intros x. simpl. rewrite !in_app_iff. tauto.
  - apply length_write.
  - exact Hframe.
Qed.

(** *** Reads of the target, in the store and by value *)

Lemma has_at_node (st : store) (lt : loc) (o : object layout) (key : string) :
  holds st (node lt o) -> has_at st lt key = has o key.
Proof.
  rewrite holds_node. intros [Hread _]. unfold has_at. rewrite Hread.
  apply has_map_object.
Qed.

Lemma get_at_node (st : store) (lt : loc) (o : object layout) (key : string)
    (c : layout) :
  holds st (node lt o) -> find o key = Some c -> get_at st lt key = handle c.
Proof.
  rewrite holds_node. intros [Hread _] Hfind. unfold get_at.
  now rewrite Hread, find_map_object, Hfind.
Qed.

Lemma get_erase (o : object layout) (key : string) (c : layout) :
  find o key = Some c -> get (map_object erase o) key = erase c.
Proof. intros Hfind. unfold get. now rewrite find_map_object, Hfind. Qed.

Lemma find_kids {V : Type} (o : object V) (key : string) (c : V) :
  find o key = Some c -> In (key, c) (kids o).
Proof.
  unfold find, kids. intros H. apply in_or_app.
  destruct (lookup key (own o)) as [v|] eqn:E.
  - injection H as ->. left. now apply lookup_In.
  - right. now apply lookup_In.
Qed.

(** The inner call [Utils.merge(target[key], value)] on a property the
    target has. *)
Lemma merge_into_child (st : store) (lt : loc) (o : object layout) (key : string)
    (Tk c : layout) :
  simulated c ->
  holds st (node lt o) -> find o key = Some Tk -> holds st c ->
  NoDup (locs (node lt o) ++ locs c) ->
  exists n st' Tk',
      (forall fuel, n <= fuel ->
         Heap.merge fuel st (handle Tk) [handle c] = Some (st', handle Tk))
      /\ holds st' (node lt (assign o key Tk'))
      /\ erase Tk' = merge_source (erase Tk) (erase c)
      /\ NoDup (locs (node lt (assign o key Tk')))
      /\ (forall x, In x (locs (node lt (assign o key Tk'))) ->
                    In x (locs (node lt o)) \/ In x (locs c) \/ length st <= x)
      /\ length st <= length st'
      /\ (forall l, l < length st -> ~ In l (locs (node lt o)) -> ~ In l (locs c) ->
                    read st' l = read st l).
Proof.
  intros Hsim HT Hfind Hc Hnd.
  pose proof HT as HT0. rewrite holds_node in HT. destruct HT as [Hread Hkids].
  assert (Hlt : lt < length st) by (eapply read_lt; eauto).
  destruct (assign_kids_found o key Tk Hfind) as [before [after [Hold Hnew]]].
  rewrite Hold, Forall_app in Hkids. destruct Hkids as [Hkb Hka].
  inversion Hka as [|? ? HTk Hka']; subst. simpl in HTk.
  rewrite locs_node, Hold, child_locs_app, child_locs_cons in Hnd.
  assert (Hbound : forall x, In x (child_locs before) \/ In x (child_locs after) ->
                             x < length st).
  { intros x Hx. apply (holds_lt st (node lt o)); [exact HT0|].
    rewrite locs_node, Hold, child_locs_app, child_locs_cons. simpl.
    rewrite !in_app_iff. tauto. }
  assert (Hnd0 := Hnd). rewrite NoDup_count in Hnd.
  destruct (Hsim st Tk HTk Hc)
    as [n [st' [Tk' [Hrun [HTk' [Hhandle [Herase [Hnd' [Hsub [Hlen Hframe]]]]]]]]]].
  { rewrite NoDup_count. intros x. specialize (Hnd x). counting. }
  exists n, st', Tk'.
  assert (Hsame : forall l, l = lt \/ In l (child_locs before) \/ In l (child_locs after) ->
                            read st' l = read st l).
  { intros l Hl. apply Hframe.
    - destruct Hl as [->|Hl]; [exact Hlt | now apply Hbound].
    - rewrite In_count. specialize (Hnd l). rewrite !In_count in Hl. counting.
    - rewrite In_count. specialize (Hnd l). rewrite !In_count in Hl. counting. }
  split; [exact Hrun|]. split; [|split; [exact Herase|split; [|split; [|split]]]].
  - rewrite holds_node. split.
    + rewrite Hsame by now left. rewrite Hread. do 2 f_equal.
      rewrite assign_map_object. symmetry. apply assign_found.
      now rewrite find_map_object, Hfind, Hhandle.
    + rewrite Hnew. apply Forall_app. split; [|constructor; [exact HTk'|]].
      * rewrite Forall_forall in *. intros x Hx. eapply holds_frame; [|now apply Hkb].
        intros l Hl. apply Hsame. right. left. now apply (child_locs_In _ x).
      * rewrite Forall_forall in *. intros x Hx. eapply holds_frame; [|now apply Hka'].
        intros l Hl. apply Hsame. right. right. now apply (child_locs_In _ x).
  - rewrite locs_node, Hnew, child_locs_app, child_locs_cons.
    rewrite NoDup_count in *. intros x.
    specialize (Hnd x). specialize (Hnd' x). specialize (Hsub x). specialize (Hbound x).
    rewrite !In_count in *. counting.
  - rewrite !locs_node, Hnew, Hold, !child_locs_app, !child_locs_cons.
    intros x. specialize (Hsub x). simpl. rewrite !in_app_iff. tauto.
  - exact Hlen.
  - intros l Hl HnT Hnc. apply Hframe; [exact Hl | | exact Hnc].
    intros HinTk. apply HnT.
    rewrite locs_node, Hold, child_locs_app, child_locs_cons. simpl.
    rewrite !in_app_iff. tauto.
Qed.

(** One entry of the source. *)
Lemma merge_entry_simulated (st : store) (lt : loc) (o : object layout)
    (key : string) (c : layout) :
  simulated c ->
  holds st (node lt o) -> holds st c -> NoDup (locs (node lt o) ++ locs c) ->
  exists n st' o',
      (forall fuel, n <= fuel ->
         Heap.merge_entry fuel lt st (key, handle c) = Some st')
      /\ holds st' (node lt o')
      /\ map_object erase o' = Utils.merge_entry (map_object erase o) (key, erase c)
      /\ NoDup (locs (node lt o'))
      /\ (forall x, In x (locs (node lt o')) ->
                    In x (locs (node lt o)) \/ In x (locs c) \/ length st <= x)
      /\ length st <= length st'
      /\ (forall l, l < length st -> ~ In l (locs (node lt o)) -> ~ In l (locs c) ->
                    read st' l = read st l).
Proof.
  intros Hsim HT Hc Hnd.
  unfold Heap.merge_entry. cbn [Utils.merge_entry].
  rewrite (isObject_handle st c _ Hc).
  destruct (Utils.isObject (erase c) [Date; RegExp; Buffer]).
  - rewrite (has_at_node st lt o key HT), has_map_object.
    destruct (has o key) eqn:Ehas.
    + (* the target has the key *)
      rewrite has_find in Ehas.
      destruct (find o key) as [Tk|] eqn:Efind; [clear Ehas | discriminate].
      rewrite (get_at_node st lt o key Tk HT Efind).
      destruct (merge_into_child st lt o key Tk c Hsim HT Efind Hc Hnd)
        as [n [st' [Tk' [Hrun [HT' [Herase [Hnd' [Hsub [Hlen Hframe]]]]]]]]].
      exists n, st', (assign o key Tk').
      split; [intros fuel Hfuel; now rewrite (Hrun fuel Hfuel)|]. split; [exact HT'|].
      split; [|split; [exact Hnd'|split; [exact Hsub|split; [exact Hlen|exact Hframe]]]].
      now rewrite assign_map_object, Herase, (get_erase o key Tk Efind).
    + (* the target gets a new [{}] first *)
      set (lnew := length st).
      set (E := LObject lnew KObject [] []).
      set (st0 := st ++ [CObject (mkObj KObject [] [])]).
      assert (Hold : forall l, l < length st -> read st0 l = read st l)
        by (intros; now apply read_alloc_old).
      assert (HT0 : holds st0 (node lt o)).
      { eapply holds_frame; [|exact HT]. intros l Hl. apply Hold.
        now apply (holds_lt st (node lt o)). }
      assert (HE : holds st0 E).
      { simpl. split; [apply read_alloc_new | auto]. }
      assert (HltT : forall x, In x (locs (node lt o)) -> x < length st)
        by (intros x; now apply holds_lt).
      assert (Hltc : forall x, In x (locs c) -> x < length st)
        by (intros x; now apply holds_lt).
      assert (HndE : NoDup (locs (node lt o) ++ locs E)).
      { rewrite NoDup_count in *. intros x.
        specialize (Hnd x). specialize (HltT x). rewrite In_count in HltT.
        change (locs E) with [lnew]. unfold lnew. counting. }
      destruct (assign_at_holds st0 lt o key E HT0 HE HndE)
        as [HT1 [Hnd1 [Hsub1 [Hlen1 Hframe1]]]].
      unfold alloc. cbn beta iota. change (handle E) with (RRef lnew) in *.
      fold lnew. fold st0.
      set (st1 := assign_at st0 lt key (RRef lnew)) in *.
      set (o1 := assign o key E) in *.
      assert (Hfind1 : find o1 key = Some E) by apply find_assign_same.
      assert (Hlt_in : In lt (locs (node lt o))) by (rewrite locs_node; now left).
      assert (Hc1 : holds st1 c).
      { eapply holds_frame; [|exact Hc]. intros l Hl.
        rewrite Hframe1, Hold; auto.
        intros ->. rewrite NoDup_count in Hnd. specialize (Hnd lt).
        rewrite In_count in Hl, Hlt_in. counting. }
      assert (Hndc : NoDup (locs (node lt o1) ++ locs c)).
      { rewrite NoDup_count in *. intros x.
        specialize (Hnd x). specialize (Hnd1 x). specialize (Hsub1 x).
        specialize (Hltc x). change (locs E) with [lnew] in Hsub1.
        rewrite !In_count in *. unfold lnew in *. counting. }
      rewrite (get_at_node st1 lt o1 key E HT1 Hfind1).
      destruct (merge_into_child st1 lt o1 key E c Hsim HT1 Hfind1 Hc1 Hndc)
        as [n [st' [Tk' [Hrun [HT' [Herase [Hnd' [Hsub [Hlen Hframe]]]]]]]]].
      assert (Hlen01 : length st1 = S (length st)).
      { rewrite Hlen1. unfold st0. rewrite length_app. simpl. lia. }
      exists n, st', (assign o1 key Tk').
      split; [intros fuel Hfuel; now rewrite (Hrun fuel Hfuel)|].
      split; [exact HT'|]. split; [|split; [exact Hnd'|split; [|split]]].
      * unfold o1. rewrite !assign_map_object, Herase.
        now rewrite get_assign_same.
      * intros x Hx. destruct (Hsub x Hx) as [H|[H|H]]; [|tauto|right; right; lia].
        destruct (Hsub1 x H) as [H'|[<-|[]]]; [tauto | right; right; unfold lnew; lia].
      * lia.
      * intros l Hl HnT Hnc. rewrite Hframe; [|lia| |exact Hnc].
        -- rewrite Hframe1, Hold; auto. intros ->. tauto.
        -- intros H. destruct (Hsub1 l H) as [H'|[<-|[]]]; [tauto | unfold lnew in Hl; lia].
  - (* the value replaces what the target has *)
    destruct (assign_at_holds st lt o key c HT Hc Hnd)
      as [HT1 [Hnd1 [Hsub1 [Hlen1 Hframe1]]]].
    exists 0, (assign_at st lt key (handle c)), (assign o key c).
    split; [reflexivity|]. split; [exact HT1|].
    split; [apply assign_map_object|]. split; [exact Hnd1|].
    split; [|split; [lia|]].
    + intros x Hx. destruct (Hsub1 x Hx); tauto.
    + intros l Hl HnT Hnc. apply Hframe1. intros ->. apply HnT.
      rewrite locs_node. now left.
Qed.

(** The loop over the entries of the source. *)
Lemma merge_entries_simulated (lt : loc) (es : list (string * layout)) :
  Forall (fun kv => simulated (snd kv)) es ->
  forall (st : store) (o : object layout),
    holds st (node lt o) -> Forall (fun kv => holds st (snd kv)) es ->
    NoDup (locs (node lt o) ++ child_locs es) ->
    exists n st' o',
        (forall fuel, n <= fuel ->
           merge_entries fuel lt (map_values handle es) st = Some st')
        /\ holds st' (node lt o')
        /\ map_object erase o'
           = fold_left Utils.merge_entry (map_values erase es) (map_object erase o)
        /\ NoDup (locs (node lt o'))
        /\ (forall x, In x (locs (node lt o')) ->
                      In x (locs (node lt o)) \/ In x (child_locs es) \/ length st <= x)
        /\ length st <= length st'
        /\ (forall l, l < length st -> ~ In l (locs (node lt o)) ->
                      ~ In l (child_locs es) -> read st' l = read st l).
Proof.
  induction 1 as [|[key c] es Hsim _ IH]; intros st o HT Hes Hnd.
  - exists 0, st, o. rewrite app_nil_r in Hnd.
    split; [reflexivity|]. split; [exact HT|]. split; [reflexivity|].
    split; [exact Hnd|]. split; [tauto|]. split; [lia | reflexivity].
  - simpl in Hsim. inversion Hes as [|? ? Hc Hes']; subst. simpl in Hc.
    rewrite child_locs_cons in Hnd.
    assert (Hbound : forall x, In x (child_locs es) -> x < length st).
    { intros x Hx. unfold child_locs in Hx. apply in_flat_map in Hx as [kv [Hkv Hx]].
      rewrite Forall_forall in Hes'. eapply holds_lt; [apply (Hes' kv Hkv) | exact Hx]. }
    destruct (merge_entry_simulated st lt o key c Hsim HT Hc)
      as [n1 [st1 [o1 [Hrun1 [HT1 [Herase1 [Hnd1 [Hsub1 [Hlen1 Hframe1]]]]]]]]].
    { rewrite NoDup_count in *. intros x. specialize (Hnd x). counting. }
    assert (Hes1 : Forall (fun kv => holds st1 (snd kv)) es).
    { rewrite Forall_forall in *. intros kv Hkv.
      eapply holds_frame; [|apply (Hes' kv Hkv)].
      intros l Hl. assert (Hin : In l (child_locs es)) by now apply (child_locs_In _ kv).
      rewrite NoDup_count in Hnd. specialize (Hnd l).
      apply Hframe1; [now apply Hbound | |];
        rewrite In_count in *; counting. }
    assert (Hndes : NoDup (locs (node lt o1) ++ child_locs es)).
    { rewrite NoDup_count in *. intros x.
      specialize (Hnd x). specialize (Hnd1 x). specialize (Hsub1 x).
      specialize (Hbound x). rewrite !In_count in *. counting. }
    destruct (IH st1 o1 HT1 Hes1 Hndes)
      as [n2 [st2 [o2 [Hrun2 [HT2 [Herase2 [Hnd2 [Hsub2 [Hlen2 Hframe2]]]]]]]]].
    exists (n1 + n2), st2, o2.
    split; [|split; [exact HT2|split; [|split; [exact Hnd2|split; [|split]]]]].
    + intros fuel Hfuel. cbn [map_values map merge_entries fst snd].
      rewrite Hrun1 by lia. cbn [bind]. apply Hrun2. lia.
    + cbn [map_values map fold_left fst snd]. rewrite Herase2. f_equal. exact Herase1.
    + intros x Hx. rewrite child_locs_cons, in_app_iff.
      destruct (Hsub2 x Hx) as [H|[H|H]]; [|tauto|right; right; lia].
      destruct (Hsub1 x H) as [H'|[H'|H']]; [tauto|tauto|right; right; lia].
    + lia.
    + intros l Hl HnT Hnes. rewrite child_locs_cons, in_app_iff in Hnes.
      rewrite Hframe2; [apply Hframe1; tauto | lia | | tauto].
      intros H. destruct (Hsub1 l H) as [H'|[H'|H']]; [tauto|tauto|lia].
Qed.

(** Every layout is a source that [merge] handles as described. *)
Lemma all_simulated (S : layout) : simulated S.
Proof.
  assert (Htrivial : forall (S : layout) (st : store) (T : layout),
            holds st T -> holds st S ->
            Utils.isObject (erase T) [] && Utils.isObject (erase S) [] = false ->
            NoDup (locs T ++ locs S) ->
            exists n st' T',
              (forall fuel, n <= fuel ->
                 Heap.merge fuel st (handle T) [handle S] = Some (st', handle T))
              /\ holds st' T' /\ handle T' = handle T
              /\ erase T' = merge_source (erase T) (erase S)
              /\ NoDup (locs T')
              /\ (forall x, In x (locs T') ->
                            In x (locs T) \/ In x (locs S) \/ length st <= x)
              /\ length st <= length st'
              /\ (forall l, l < length st -> ~ In l (locs T) -> ~ In l (locs S) ->
                            read st' l = read st l)).
  { intros S0 st T HT HS Hnot Hnd. exists 2, st, T.
    split; [|split; [exact HT|split; [reflexivity|split; [|split; [|split; [|split]]]]]].
    - intros [|[|fuel]] Hfuel; try lia.
      rewrite merge_cons, (isObject_handle st T _ HT), (isObject_handle st S0 _ HS), Hnot.
      reflexivity.
    - symmetry. apply merge_source_not_object.
      apply andb_false_iff in Hnot. exact Hnot.
    - eapply NoDup_app_remove_r; eauto.
    - tauto.
    - lia.
    - reflexivity. }
  induction S as [| | b | n | s | l items _ | ls ks sps shs IHps _] using layout_ind;
    intros st T HT HS Hnd;
    try (apply (Htrivial _ st T HT HS); [|exact Hnd];
         simpl; now rewrite andb_false_r).
  destruct (Utils.isObject (erase T) []) eqn:ET;
    [|apply (Htrivial _ st T HT HS); [now rewrite ET | exact Hnd]].
  destruct T as [| | | | | |lt kt tps ths]; try discriminate. clear ET.
  set (ot := mkObj kt tps ths). set (os := mkObj ks sps shs).
  change (LObject lt kt tps ths) with (node lt ot) in *.
  change (LObject ls ks sps shs) with (node ls os) in *.
  pose proof HT as HT0. pose proof HS as HS0.
  rewrite holds_node in HT0, HS0.
  destruct HT0 as [HreadT _]. destruct HS0 as [HreadS HkidsS].
  unfold kids in HkidsS. rewrite Forall_app in HkidsS. destruct HkidsS as [Hsps _].
  destruct (merge_entries_simulated lt sps IHps st ot HT Hsps)
    as [n [st' [o' [Hrun [HT' [Herase [Hnd' [Hsub [Hlen Hframe]]]]]]]]].
  { rewrite locs_node. rewrite (locs_node lt ot), (locs_node ls os) in Hnd.
    unfold kids at 2 in Hnd.
    rewrite child_locs_app in Hnd. change (own os) with sps in Hnd.
    rewrite NoDup_count in *. intros x. specialize (Hnd x). counting. }
  exists (S (S n)), st', (node lt o').
  split; [|split; [exact HT'|split; [reflexivity|split; [|split; [exact Hnd'|split; [|split]]]]]].
  - intros [|[|fuel]] Hfuel; try lia.
    rewrite merge_cons. unfold Heap.isObject, object_at. cbn [handle node].
    rewrite HreadT, HreadS. cbn [existsb negb andb map_object own].
    rewrite Hrun by lia. reflexivity.
  - rewrite !erase_node, merge_source_obj. f_equal. exact Herase.
  - intros x Hx. destruct (Hsub x Hx) as [H|[H|H]]; [tauto| |tauto].
    right. left. rewrite locs_node. right. unfold kids. rewrite child_locs_app, in_app_iff.
    now left.
  - exact Hlen.
  - intros l Hl HnT HnS. apply Hframe; [exact Hl | exact HnT |].
    intros H. apply HnS. rewrite locs_node. right. unfold kids.
    rewrite child_locs_app, in_app_iff. now left.
Qed.

(** [merge] returns the target it was given, whatever the store. *)
Lemma merge_result (fuel : nat) (st st' : store) (target r : ref_value)
    (sources : list ref_value) :
  Heap.merge fuel st target sources = Some (st', r) -> r = target.
Proof.
  revert st sources. induction fuel as [|fuel IH]; intros st sources; [discriminate|].
  destruct sources as [|source rest].
  - rewrite merge_nil. now intros [= _ <-].
  - rewrite merge_cons.
    destruct (if Heap.isObject st target [] && Heap.isObject st source [] then _ else _)
      as [st1|]; [|discriminate].
    cbn [bind]. apply IH.
Qed.

(** A run on one source, then a run on the others, is a run on all. *)
Lemma merge_runs (st st1 st2 : store) (t s : ref_value) (rest : list ref_value)
    (n1 n2 : nat) :
  (forall fuel, n1 <= fuel -> Heap.merge fuel st t [s] = Some (st1, t)) ->
  (forall fuel, n2 <= fuel -> Heap.merge fuel st1 t rest = Some (st2, t)) ->
  forall fuel, S (n1 + n2) <= fuel -> Heap.merge fuel st t (s :: rest) = Some (st2, t).
Proof.
  intros H1 H2 [|fuel] Hfuel; [lia|].
  specialize (H1 (S fuel) ltac:(lia)). rewrite merge_cons in *.
  destruct (if Heap.isObject st t [] && Heap.isObject st s [] then _ else _)
    as [st1'|]; [|discriminate].
  cbn [bind] in *. destruct fuel as [|fuel]; [discriminate|].
  rewrite merge_nil in H1. injection H1 as ->. apply H2. lia.
Qed.

Lemma merge_sources_simulated (Ss : list layout) :
  forall (st : store) (T : layout),
    holds st T -> Forall (holds st) Ss -> NoDup (locs T ++ flat_map locs Ss) ->
    exists n st' T',
      (forall fuel, n <= fuel ->
         Heap.merge fuel st (handle T) (map handle Ss) = Some (st', handle T))
      /\ holds st' T'
      /\ handle T' = handle T
      /\ erase T' = Utils.merge (erase T) (map erase Ss)
      /\ length st <= length st'
      /\ (forall l, l < length st -> ~ In l (locs T) -> ~ In l (flat_map locs Ss) ->
                    read st' l = read st l).
Proof.
  induction Ss as [|S0 Ss IH]; intros st T HT HSs Hnd.
  - exists 1, st, T. split; [intros [|fuel] Hfuel; [lia | reflexivity]|].
    repeat split; auto.
  - inversion HSs as [|? ? HS HSs']; subst. cbn [flat_map] in Hnd.
    assert (Hbound : forall x, In x (flat_map locs Ss) -> x < length st).
    { intros x Hx. apply in_flat_map in Hx as [S' [HS' Hx]].
      rewrite Forall_forall in HSs'. eapply holds_lt; [apply (HSs' S' HS') | exact Hx]. }
    destruct (all_simulated S0 st T HT HS)
      as [n1 [st1 [T1 [Hrun1 [HT1 [Hh1 [He1 [Hnd1 [Hsub1 [Hlen1 Hframe1]]]]]]]]]].
    { rewrite NoDup_count in *. intros x. specialize (Hnd x). counting. }
    assert (HSs1 : Forall (holds st1) Ss).
    { rewrite Forall_forall in *. intros S' HS'.
      eapply holds_frame; [|apply (HSs' S' HS')].
      intros l Hl. assert (Hin : In l (flat_map locs Ss)) by (apply in_flat_map; eauto).
      rewrite NoDup_count in Hnd. specialize (Hnd l).
      apply Hframe1; [now apply Hbound | |]; rewrite In_count in *; counting. }
    destruct (IH st1 T1 HT1 HSs1)
      as [n2 [st2 [T2 [Hrun2 [HT2 [Hh2 [He2 [Hlen2 Hframe2]]]]]]]].
    { rewrite NoDup_count in *. intros x.
      specialize (Hnd x). specialize (Hnd1 x). specialize (Hsub1 x).
      specialize (Hbound x). rewrite !In_count in *. counting. }
    exists (S (n1 + n2)), st2, T2.
    split; [|split; [exact HT2|split; [congruence|split; [|split; [lia|]]]]].
    + cbn [map]. rewrite Hh1 in Hrun2. now apply (merge_runs st st1 st2).
    + cbn [map Utils.merge]. now rewrite He2, He1.
    + intros l Hl HnT HnS. cbn [flat_map] in HnS. rewrite in_app_iff in HnS.
      rewrite Hframe2; [apply Hframe1; tauto | lia | | tauto].
      intros H. destruct (Hsub1 l H) as [H'|[H'|H']]; [tauto|tauto|lia].
Qed.

(** *** Every value can be laid out *)

Lemma value_ind (P : value -> Prop) :
  P VUndefined -> P VNull -> (forall b, P (VBool b)) -> (forall n, P (VNumber n)) ->
  (forall s, P (VString s)) ->
  (forall items, Forall P items -> P (VArray items)) ->
  (forall k ps hs,
      Forall (fun kv => P (snd kv)) ps -> Forall (fun kv => P (snd kv)) hs ->
      P (VObject k ps hs)) ->
  forall v, P v.
Proof.
  intros Hu Hn Hb Hz Hs Ha Ho.
  fix IH 1. intros [| | b | n | s | items | k ps hs].
  - exact Hu.
  - exact Hn.
  - apply Hb.
  - apply Hz.
  - apply Hs.
  - apply Ha. induction items as [|x rest IHitems]; constructor;
      [apply IH | exact IHitems].
  - apply Ho.
    + induction ps as [|x rest IHps]; constructor; [apply IH | exact IHps].
    + induction hs as [|x rest IHhs]; constructor; [apply IH | exact IHhs].
Qed.

Lemma holds_app (st more : store) (t : layout) :
  holds st t -> holds (st ++ more) t.
Proof.
  intros H. eapply holds_frame; [|exact H].
  intros l Hl. unfold read. apply nth_error_app1. now apply (holds_lt st t).
Qed.

Lemma place_items_ok (vs : list value) :
  Forall placing vs ->
  forall next,
    map erase (fst (place_items place next vs)) = vs
    /\ (forall l, In l (flat_map locs (fst (place_items place next vs))) ->
                  next <= l < next + length (snd (place_items place next vs)))
    /\ NoDup (flat_map locs (fst (place_items place next vs)))
    /\ (forall st, length st = next ->
                   Forall (holds (st ++ snd (place_items place next vs)))
                          (fst (place_items place next vs))).
Proof.
  induction 1 as [|x rest Hx _ IH]; intros next; simpl.
  - split; [reflexivity|]. split; [intros l []|]. split; [constructor|].
    intros st _. constructor.
  - specialize (Hx next). destruct (place next x) as [t c].
    specialize (IH (next + length c)).
    destruct (place_items place (next + length c) rest) as [ts cs].
    simpl in *. destruct Hx as [He [Hr [Hnd Hh]]]. destruct IH as [He' [Hr' [Hnd' Hh']]].
    rewrite length_app.
    split; [now rewrite He, He'|]. split; [|split].
    + intros l Hl. apply in_app_iff in Hl as [Hl|Hl];
        [specialize (Hr l Hl) | specialize (Hr' l Hl)]; lia.
    + rewrite NoDup_count in *. intros l.
      specialize (Hnd l). specialize (Hnd' l). specialize (Hr l). specialize (Hr' l).
      rewrite In_count in *. counting.
    + intros st Hst. constructor.
      * rewrite app_assoc. apply holds_app. now apply Hh.
      * rewrite app_assoc. apply Hh'. rewrite length_app. lia.
Qed.

Lemma place_props_ok (ps : list (string * value)) :
  Forall (fun kv => placing (snd kv)) ps ->
  forall next,
    map_values erase (fst (place_props place next ps)) = ps
    /\ (forall l, In l (child_locs (fst (place_props place next ps))) ->
                  next <= l < next + length (snd (place_props place next ps)))
    /\ NoDup (child_locs (fst (place_props place next ps)))
    /\ (forall st, length st = next ->
                   Forall (fun kv => holds (st ++ snd (place_props place next ps)) (snd kv))
                          (fst (place_props place next ps))).
Proof.
  induction 1 as [|[key x] rest Hx _ IH]; intros next; simpl.
  - split; [reflexivity|]. split; [intros l []|]. split; [constructor|].
    intros st _. constructor.
  - simpl in Hx. specialize (Hx next). destruct (place next x) as [t c].
    specialize (IH (next + length c)).
    destruct (place_props place (next + length c) rest) as [ts cs].
    simpl in *. destruct Hx as [He [Hr [Hnd Hh]]]. destruct IH as [He' [Hr' [Hnd' Hh']]].
    rewrite length_app.
    split; [now rewrite He, He'|]. split; [|split].
    + intros l Hl. apply in_app_iff in Hl as [Hl|Hl];
        [specialize (Hr l Hl) | specialize (Hr' l Hl)]; lia.
    + rewrite NoDup_count in *. intros l.
      specialize (Hnd l). specialize (Hnd' l). specialize (Hr l). specialize (Hr' l).
      unfold child_locs in *. rewrite In_count in *. counting.
    + intros st Hst. constructor.
      * simpl. rewrite app_assoc. apply holds_app. now apply Hh.
      * rewrite app_assoc. apply Hh'. rewrite length_app. lia.
Qed.

Lemma place_ok (v : value) : placing v.
Proof.
  induction v as [| | b | n | s | items IH | k ps hs IHps IHhs] using value_ind;
    intros next; simpl;
    try (split; [reflexivity|]; split; [intros l []|]; split; [constructor|];
         intros st _; exact I).
  - destruct (place_items_ok items IH (S next)) as [He [Hr [Hnd Hh]]].
    destruct (place_items place (S next) items) as [ts cs]. simpl in *.
    unfold placed. simpl.
    split; [now rewrite He|]. split; [|split].
    + intros l [<-|Hl]; [lia | specialize (Hr l Hl); lia].
    + constructor; [|exact Hnd]. intros Hin. specialize (Hr next Hin). lia.
    + intros st Hst. apply holds_array. split.
      * unfold read. rewrite nth_error_app2 by lia.
        now replace (next - length st) with 0 by lia.
      * change (st ++ CArray (map handle ts) :: cs)
          with (st ++ [CArray (map handle ts)] ++ cs).
        rewrite app_assoc. apply Hh. rewrite length_app. simpl. lia.
  - destruct (place_props_ok ps IHps (S next)) as [Hep [Hrp [Hndp Hhp]]].
    destruct (place_props place (S next) ps) as [tps cps]. simpl in *.
    destruct (place_props_ok hs IHhs (S (next + length cps))) as [Heh [Hrh [Hndh Hhh]]].
    destruct (place_props place (S (next + length cps)) hs) as [ths chs]. simpl in *.
    unfold map_values in Hep, Heh. unfold placed. simpl. rewrite length_app.
    split; [now rewrite Hep, Heh|]. split; [|split].
    + intros l [<-|Hl]; [lia|]. apply in_app_iff in Hl as [Hl|Hl];
        [specialize (Hrp l Hl) | specialize (Hrh l Hl)]; lia.
    + change (NoDup (locs (node next (mkObj k tps ths)))).
      rewrite locs_node. unfold kids. cbn [own hidden]. rewrite child_locs_app.
      rewrite NoDup_count in *. intros l.
      specialize (Hndp l). specialize (Hndh l). specialize (Hrp l). specialize (Hrh l).
      rewrite In_count in *. counting.
    + intros st Hst. change (holds (st ++ CObject (mkObj k (map_values handle tps)
                                              (map_values handle ths)) :: cps ++ chs)
                                   (node next (mkObj k tps ths))).
      rewrite holds_node. split.
      * unfold read. rewrite nth_error_app2 by lia.
        now replace (next - length st) with 0 by lia.
      * unfold kids. cbn [own hidden]. apply Forall_app.
        set (cell := CObject (mkObj k (map_values handle tps) (map_values handle ths))).
        change (st ++ cell :: cps ++ chs) with (st ++ [cell] ++ cps ++ chs).
        split.
        -- rewrite !app_assoc.
           assert (Hp : Forall (fun kv => holds ((st ++ [cell]) ++ cps) (snd kv)) tps)
             by (apply Hhp; rewrite length_app; simpl; lia).
           rewrite Forall_forall in *. intros x Hx. apply holds_app. now apply Hp.
        -- rewrite !app_assoc. apply Hhh. rewrite !length_app. simpl. lia.
Qed.

(** Target and sources laid out one after the other in a store of their
    own are apart. *)
Lemma place_all (target : value) (sources : list value) :
  exists (st : store) (T : layout) (Ss : list layout),
    erase T = target /\ map erase Ss = sources
    /\ holds st T /\ Forall (holds st) Ss
    /\ NoDup (locs T ++ flat_map locs Ss).
Proof.
  destruct (place_ok target 0) as [He [Hr [Hnd Hh]]].
  destruct (place 0 target) as [T cs]. simpl in *.
  assert (Hall : Forall placing sources)
    by (apply Forall_forall; intros; apply place_ok).
  destruct (place_items_ok sources Hall (length cs)) as [He' [Hr' [Hnd' Hh']]].
  destruct (place_items place (length cs) sources) as [Ss css]. simpl in *.
  exists (cs ++ css), T, Ss.
  split; [exact He|]. split; [exact He'|]. split; [|split].
  - apply holds_app. now apply (Hh []).
  - now apply Hh'.
  - rewrite NoDup_count in *. intros l.
    specialize (Hnd l). specialize (Hnd' l). specialize (Hr l). specialize (Hr' l).
    rewrite In_count in *. counting.
Qed.

End HeapFacts.

(* ================================================================= *)
(** ** merge: the claims *)

(** Where the target holds no object at a key and the source holds a
    plain structure there, the step of [merge] for that key leaves the
    whole store as it is. *)
Lemma merge_entry_no_object (fuel : nat) (st : Heap.store) (t : Heap.loc)
    (key : string) (value : Heap.ref_value) :
  Heap.isObject st value [Date; RegExp; Buffer] = true ->
  Heap.has_at st t key = true ->
  Heap.isObject st (Heap.get_at st t key) [] = false ->
  Heap.merge_entry (S (S fuel)) t st (key, value) = Some st.
Proof.
  intros Hplain Hhas Hnot. unfold Heap.merge_entry.
  rewrite Hplain, Hhas, HeapFacts.merge_cons, Hnot. reflexivity.
Qed.

(** C7.  [merge] takes its sources from left to right, each on the
    target as the one before left it.  A source's value that is not a
    plain nested structure (a primitive, an array, a Date, RegExp or
    Buffer) replaces the target's value whole, so the last source that
    has the key decides; a plain nested structure is merged, by [merge]
    itself, into the structure the target holds there, or into a new
    one.  Keys the source lacks stay as they are.  The result is the
    target itself after these changes: the same object, with every
    property it had; a target that is no object comes back as it is.
    [merge({a:1}, {a:2, b:3}, {a:4})] is [{a:4, b:3}].

    In a store, [merge] returns the very reference it was given as
    target, whatever the store holds; on the example the store ends
    with [{a:4, b:3}] at the target's location and the sources as they
    were; and where target and sources are
    laid out apart from each other, it returns, and the store then holds
    at the target's own location the value computed above, nothing else
    of the old store having changed but target and sources.  Every
    target and list of sources has such a store. *)
Theorem merge_left_to_right :
  (forall target, merge target [] = target)
  /\ (forall target source rest,
         merge target (source :: rest) = merge (merge target [source]) rest)
  /\ (forall (t s : obj) (earlier : list value) (k : string) (v : value),
         NoDup (keys (own s)) -> lookup k (own s) = Some v ->
         isObject v [Date; RegExp; Buffer] = false ->
         vget (merge (VObj t) (earlier ++ [VObj s])) k = v)
  /\ (forall (t s : obj) (k : string) (v : value),
         NoDup (keys (own s)) -> lookup k (own s) = Some v ->
         isObject v [Date; RegExp; Buffer] = true ->
         vget (merge (VObj t) [VObj s]) k
         = merge (if has t k then get t k else VObj emptyObject) [v])
  /\ (forall (t s : obj) (k : string),
         ~ In k (keys (own s)) ->
         vget (merge (VObj t) [VObj s]) k = get t k)
  /\ (forall (t : obj) (sources : list value),
         exists t', merge (VObj t) sources = VObj t'
                    /\ cls t' = cls t
                    /\ forall k, has t k = true -> has t' k = true)
  /\ (forall target sources, isObject target [] = false -> merge target sources = target)
  /\ merge Examples.mergeTarget Examples.mergeSources
     = VObj (Examples.literal [("a", VNumber 4); ("b", VNumber 3)])
  /\ (forall fuel st st' target r sources,
         Heap.merge fuel st target sources = Some (st', r) -> r = target)
  /\ Heap.merge 3 Examples.mergeStore (Heap.RRef 0) [Heap.RRef 1; Heap.RRef 2]
     = Some ([Examples.cellOf [("a", Heap.RNumber 4); ("b", Heap.RNumber 3)];
              Examples.cellOf [("a", Heap.RNumber 2); ("b", Heap.RNumber 3)];
              Examples.cellOf [("a", Heap.RNumber 4)]],
             Heap.RRef 0)
  /\ (forall (st : Heap.store) (T : Heap.layout) (Ss : list Heap.layout),
         Heap.holds st T -> Forall (Heap.holds st) Ss ->
         NoDup (Heap.locs T ++ flat_map Heap.locs Ss) ->
         exists n st' T',
           (forall fuel, n <= fuel ->
              Heap.merge fuel st (Heap.handle T) (map Heap.handle Ss)
              = Some (st', Heap.handle T))
           /\ Heap.holds st' T'
           /\ Heap.handle T' = Heap.handle T
           /\ Heap.erase T' = merge (Heap.erase T) (map Heap.erase Ss)
           /\ (forall l, l < length st -> ~ In l (Heap.locs T) ->
                         ~ In l (flat_map Heap.locs Ss) ->
                         Heap.read st' l = Heap.read st l))
  /\ (forall (target : value) (sources : list value),
         exists (st : Heap.store) (T : Heap.layout) (Ss : list Heap.layout)
                (n : nat) (st' : Heap.store) (T' : Heap.layout),
           Heap.erase T = target /\ map Heap.erase Ss = sources
           /\ Heap.holds st T /\ Forall (Heap.holds st) Ss
           /\ (forall fuel, n <= fuel ->
                 Heap.merge fuel st (Heap.handle T) (map Heap.handle Ss)
                 = Some (st', Heap.handle T))
           /\ Heap.holds st' T'
           /\ Heap.handle T' = Heap.handle T
           /\ Heap.erase T' = merge target sources).
Proof.
  split; [reflexivity|]. split; [reflexivity|].
  split.
  { intros t s earlier k v Hnd Hlook Hopaque. rewrite merge_app.
    destruct (merge_kept earlier t) as [t' [-> _]].
    rewrite merge_single, (merge_source_at t' s k v Hnd Hlook). now rewrite Hopaque. }
  split.
  { intros t s k v Hnd Hlook Hplain.
    rewrite !merge_single, (merge_source_at t s k v Hnd Hlook). now rewrite Hplain. }
  split.
  { intros t s k Hnotin. rewrite merge_single, merge_source_obj, vget_VObj.
    now destruct (merge_entries_other (own s) t k Hnotin). }
  split; [intros; apply merge_kept|].
  split.
  { intros target sources Hnot.
    induction sources as [|source rest IH]; simpl; [reflexivity|].
    rewrite merge_source_not_object by now left. exact IH. }
  split; [reflexivity|].
  split; [intros fuel st st' target r sources; apply HeapFacts.merge_result|].
  split; [reflexivity|].
  split.
  { intros st T Ss HT HSs Hnd.
    destruct (HeapFacts.merge_sources_simulated Ss st T HT HSs Hnd)
      as [n [st' [T' [Hrun [HT' [Hh [He [_ Hframe]]]]]]]].
    exists n, st', T'. auto. }
  intros target sources.
  destruct (HeapFacts.place_all target sources)
    as [st [T [Ss [HeT [HeS [HT [HSs Hnd]]]]]]].
  destruct (HeapFacts.merge_sources_simulated Ss st T HT HSs Hnd)
    as [n [st' [T' [Hrun [HT' [Hh [He _]]]]]]].
  exists st, T, Ss, n, st', T'. rewrite HeT, HeS in He. auto 10.
Qed.

(** C10.  Where the target holds a value that is no object (a number,
    say) and the source holds a plain nested structure at the same key,
    [merge] leaves the target's value as it is and drops the source's
    structure: a source with nothing else leaves the whole target
    unchanged.  In a store the inner call changes nothing at all: with
    that one key in the source, the store after [merge] is the store
    before. *)
Theorem merge_keeps_non_object :
  (forall (t s : obj) (k : string) (v : value),
      NoDup (keys (own s)) -> lookup k (own s) = Some v ->
      isObject v [Date; RegExp; Buffer] = true ->
      has t k = true -> isObject (get t k) [] = false ->
      vget (merge (VObj t) [VObj s]) k = get t k
      /\ merge (VObj t) [VObj (mkObj KObject [(k, v)] [])] = VObj t)
  /\ (forall (fuel : nat) (st : Heap.store) (lt ls : Heap.loc)
             (ot os : object Heap.ref_value) (k : string) (value : Heap.ref_value),
         Heap.read st lt = Some (Heap.CObject ot) ->
         Heap.read st ls = Some (Heap.CObject os) ->
         own os = [(k, value)] ->
         Heap.isObject st value [Date; RegExp; Buffer] = true ->
         has ot k = true ->
         Heap.isObject st (Heap.get_at st lt k) [] = false ->
         Heap.merge (3 + fuel) st (Heap.RRef lt) [Heap.RRef ls]
         = Some (st, Heap.RRef lt)).
Proof.
  split.
  - intros t s k v Hnd Hlook Hplain Hhas Hnot. split.
    + rewrite merge_single, (merge_source_at t s k v Hnd Hlook), Hplain, Hhas.
      apply merge_source_not_object. now left.
    + rewrite merge_single, merge_source_obj. simpl. rewrite Hplain, Hhas.
      rewrite merge_source_not_object by now left.
      now rewrite assign_same.
  - intros fuel st lt ls ot os k value Ht Hs Hown Hvalue Hhas_at Hnot_at.
    change (3 + fuel) with (S (S (S fuel))). rewrite HeapFacts.merge_cons.
    unfold Heap.isObject at 1 2, Heap.object_at. rewrite Ht, Hs. cbn [existsb negb andb].
    rewrite Hown. cbn [Heap.merge_entries].
    rewrite merge_entry_no_object; [reflexivity | exact Hvalue | | exact Hnot_at].
    unfold Heap.has_at. now rewrite Ht.
Qed.
(* ================================================================= *)
(** ** Equality and the empty change set *)

Lemma keys_app {V : Type} (ps qs : list (string * V)) :
  keys (ps ++ qs) = keys ps ++ keys qs.
Proof. unfold keys. apply map_app. Qed.

Lemma distinct_NoDup (ks : list string) : distinct ks = true -> NoDup ks.
Proof.
  induction ks as [|k rest IH]; simpl; [constructor|].
  intros H. apply andb_prop in H as [Hk Hrest]. constructor; [|auto].
  intros Hin. apply negb_true_iff in Hk.
  assert (existsb (String.eqb k) rest = true); [|congruence].
  apply existsb_exists. exists k. split; [exact Hin | apply String.eqb_refl].
Qed.

Lemma well_formed_object (k : klass) (ps hs : props) :
  well_formed (VObject k ps hs) = true ->
  NoDup (keys ps) /\ Forall (fun kv => well_formed (snd kv) = true) ps.
Proof.
  simpl. intros H. apply andb_prop in H as [Hd Hall]. split.
  - now apply distinct_NoDup.
  - apply Forall_forall. intros kv Hin. rewrite forallb_forall in Hall. now apply Hall.
Qed.

Lemma klass_eqb_refl (k : klass) : klass_eqb k k = true.
Proof. destruct k as [|[]|s]; simpl; auto. apply String.eqb_refl. Qed.

(** [fast-deep-equal] finds every value equal to itself. *)
Lemma fastEqual_refl (v : value) : well_formed v = true -> fastEqual v v = true.
Proof.
  induction v as [| | b | n | s | items IH | k ps hs IHps _] using HeapFacts.value_ind;
    intros Hwf; simpl; auto.
  - apply Bool.eqb_reflx.
  - apply Z.eqb_refl.
  - apply String.eqb_refl.
  - simpl in Hwf. induction items as [|x rest IHrest]; [reflexivity|].
    simpl in Hwf. apply andb_prop in Hwf as [Hx Hrest].
    inversion IH as [|? ? Px Prest]; subst.
    rewrite (Px Hx). simpl. now apply IHrest.
  - destruct (well_formed_object k ps hs Hwf) as [Hnd Hall].
    rewrite klass_eqb_refl, Nat.eqb_refl. simpl.
    assert (G : forall l, incl l ps ->
              (fix each (ps0 : props) : bool :=
                 match ps0 with
                 | [] => true
                 | (k0, va) :: rest =>
                     match lookup k0 ps with
                     | Some vb => fastEqual va vb && each rest
                     | None => false
                     end
                 end) l = true).
    { induction l as [|[k0 va] rest IHl]; intros Hincl; [reflexivity|].
      assert (Hin : In (k0, va) ps) by (apply Hincl; now left).
      rewrite (lookup_NoDup k0 va ps Hnd Hin).
      rewrite Forall_forall in IHps, Hall.
      pose proof (IHps (k0, va) Hin (Hall (k0, va) Hin)) as Hva. simpl in Hva.
      rewrite Hva. cbn [andb].
      apply IHl. intros x Hx. apply Hincl. now right. }
    apply G. apply incl_refl.
Qed.

Lemma isEmpty_VObj (o : obj) : isEmpty (VObj o) = (length (own o) =? 0)%nat.
Proof. destruct o as [k ps hs]. unfold isEmpty, keys. simpl. now rewrite length_map. Qed.

Lemma assign_plain (o : obj) (k : string) (v : value) :
  hidden o = [] -> hidden (assign o k v) = [] /\ own (assign o k v) <> [].
Proof.
  intros Hh. pose proof (find_assign_same o k v) as Hfind.
  assert (Hhid : hidden (assign o k v) = []).
  { unfold assign. rewrite Hh. now destruct (mem k (own o)). }
  split; [exact Hhid|].
  intros Hown. unfold find in Hfind. rewrite Hown, Hhid in Hfind. discriminate.
Qed.

Lemma diff_fold_empty (a b : obj) (ks : list string) (ret : obj) :
  hidden ret = [] ->
  let r := fold_left (fun ret k => if equals (get a k) (get b k) then ret
                                   else assign ret k (get b k)) ks ret in
  hidden r = []
  /\ (own r = [] <->
      own ret = [] /\ forallb (fun k => equals (get a k) (get b k)) ks = true).
Proof.
  revert ret. induction ks as [|k ks IH]; intros ret Hh; simpl.
  - split; [exact Hh|]. tauto.
  - destruct (equals (get a k) (get b k)) eqn:E; simpl.
    + now apply IH.
    + destruct (assign_plain ret k (get b k) Hh) as [Hh' Hne].
      destruct (IH _ Hh') as [Hr Hiff]. split; [exact Hr|].
      split; [intros H; apply Hiff in H; tauto | intros [_ H]; discriminate].
Qed.

(** X1.  [diff] returns the empty object exactly when [equals] tells
    no field of [b] apart from the same read on [a]: [isEmpty] of the
    result is the test for nothing having changed. *)
Theorem diff_empty_iff (a b : obj) :
  isEmpty (VObj (diff a b))
  = forallb (fun k => equals (get a k) (get b k)) (keys (own b)).
Proof.
  rewrite isEmpty_VObj. unfold diff.
  destruct (diff_fold_empty a b (keys (own b)) emptyObject eq_refl) as [_ Hiff].
  simpl in Hiff.
  match type of Hiff with (own ?x = [] <-> _) => set (r := x) in * end.
  destruct (forallb _ (keys (own b))) eqn:E.
  - assert (H : own r = []) by (apply Hiff; auto).
    now rewrite H.
  - destruct (own r) eqn:Eown; [|reflexivity].
    destruct Hiff as [Hiff _]. destruct (Hiff eq_refl). discriminate.
Qed.

Lemma get_own_well_formed (b : obj) (k : string) :
  well_formed (VObj b) = true -> In k (keys (own b)) -> well_formed (get b k) = true.
Proof.
  intros Hwf Hin. destruct b as [c ps hs].
  destruct (well_formed_object c ps hs Hwf) as [_ Hall].
  apply mem_keys in Hin. unfold mem in Hin. simpl in Hin.
  unfold get, find. simpl.
  destruct (lookup k ps) as [v|] eqn:E; [|discriminate].
  apply lookup_In in E. rewrite Forall_forall in Hall. exact (Hall (k, v) E).
Qed.

Lemma diff_all_equal (a b : obj) :
  forallb (fun k => equals (get a k) (get b k)) (keys (own b)) = true ->
  diff a b = emptyObject.
Proof.
  unfold diff.
  assert (G : forall ks ret, forallb (fun k => equals (get a k) (get b k)) ks = true ->
              fold_left (fun ret k => if equals (get a k) (get b k) then ret
                                      else assign ret k (get b k)) ks ret = ret).
  { induction ks as [|k ks IH]; intros ret H; simpl; [reflexivity|].
    simpl in H. apply andb_prop in H as [-> H]. now apply IH. }
  apply G.
Qed.

Lemma equals_own (b : obj) (k : string) :
  well_formed (VObj b) = true -> In k (keys (own b)) ->
  equals (get b k) (get b k) = true.
Proof.
  intros Hwf Hin. apply fastEqual_refl. now apply get_own_well_formed.
Qed.

Lemma plain_data_well_formed (v : value) : plain_data v = true -> well_formed v = true.
Proof.
  induction v as [| | b | n | s | items IH | k ps hs IHps _] using HeapFacts.value_ind;
    intros Hplain; simpl; auto.
  - simpl in Hplain. apply forallb_forall. intros x Hx.
    rewrite Forall_forall in IH. apply (IH x Hx).
    rewrite forallb_forall in Hplain. now apply Hplain.
  - simpl in Hplain. destruct k; try discriminate. destruct hs; try discriminate.
    apply andb_prop in Hplain as [Hnames Hall].
    apply andb_prop in Hnames as [Hdistinct _].
    rewrite Hdistinct. cbn [andb]. apply forallb_forall. intros kv Hin.
    rewrite Forall_forall in IHps. apply (IHps kv Hin).
    rewrite forallb_forall in Hall. now apply Hall.
Qed.

(** Every field of a record of plain data is equal to itself. *)
Lemma plain_fields_equal (b : obj) (k : string) :
  plain_fields b = true -> In k (keys (own b)) ->
  equals (get b k) (get b k) = true.
Proof.
  intros Hplain Hin. apply fastEqual_refl, plain_data_well_formed.
  unfold plain_fields in Hplain. apply andb_prop in Hplain as [_ Hall].
  apply mem_keys in Hin. unfold mem in Hin. unfold get, find.
  destruct (lookup k (own b)) as [v|] eqn:E; [|discriminate].
  apply lookup_In in E. rewrite forallb_forall in Hall. exact (Hall (k, v) E).
Qed.

(** X2.  A snapshot of plain data compared with itself gives the empty
    change set, and so does any [a] that reads, field by field of [b],
    what [b] holds. *)
Theorem diff_same_snapshot (a b : obj) :
  plain_fields b = true ->
  (forall k, In k (keys (own b)) -> get a k = get b k) ->
  diff a b = emptyObject.
Proof.
  intros Hplain Hsame. apply diff_all_equal.
  apply forallb_forall. intros k Hin. rewrite (Hsame k Hin).
  now apply plain_fields_equal.
Qed.

(* ================================================================= *)
(** ** merge: a source merged twice *)

Lemma find_of_get (o : obj) (k : string) :
  find o k = if has o k then Some (get o k) else None.
Proof. rewrite has_find. unfold get. now destruct (find o k). Qed.

Lemma merge_entries_find (entries : props) (t : obj) (k : string) :
  ~ In k (keys entries) -> find (fold_left merge_entry entries t) k = find t k.
Proof.
  intros Hnotin. rewrite !find_of_get.
  now destruct (merge_entries_other entries t k Hnotin) as [-> ->].
Qed.

Lemma merge_entry_settles (t : obj) (k : string) (v : value) :
  settled (merge_entry t (k, v)) k v.
Proof.
  unfold settled. simpl. destruct (isObject v [Date; RegExp; Buffer]).
  - eexists. apply find_assign_same.
  - apply find_assign_same.
Qed.

Lemma settled_absorbs (t : obj) (k : string) (v : value) :
  (forall x, merge_source (merge_source x v) v = merge_source x v) ->
  settled t k v -> merge_entry t (k, v) = t.
Proof.
  unfold settled. simpl. intros IH H.
  destruct (isObject v [Date; RegExp; Buffer]).
  - destruct H as [x Hx].
    assert (Hhas : has t k = true) by (rewrite has_find; now rewrite Hx).
    rewrite Hhas. apply assign_found.
    unfold get. now rewrite Hx, IH.
  - now apply assign_found.
Qed.

Lemma merge_entries_absorbed (ps : props) (t : obj) :
  NoDup (keys ps) ->
  (forall k v, In (k, v) ps ->
     forall x, merge_source (merge_source x v) v = merge_source x v) ->
  fold_left merge_entry ps (fold_left merge_entry ps t) = fold_left merge_entry ps t.
Proof.
  intros Hnd IH.
  set (t' := fold_left merge_entry ps t).
  assert (Habs : forall k v, In (k, v) ps -> merge_entry t' (k, v) = t').
  { intros k v Hin. apply settled_absorbs; [now apply (IH k v)|].
    pose proof (lookup_NoDup k v ps Hnd Hin) as Hlook.
    destruct (entries_split k v ps Hnd Hlook) as [before [after [Heq [_ Ha]]]].
    pose proof (merge_entry_settles (fold_left merge_entry before t) k v) as Hs.
    assert (Hfind : find t' k
                    = find (merge_entry (fold_left merge_entry before t) (k, v)) k).
    { unfold t'. rewrite Heq, fold_left_app. cbn [fold_left].
      now apply merge_entries_find. }
    unfold settled in *. now rewrite Hfind. }
  assert (G : forall l, incl l ps -> fold_left merge_entry l t' = t').
  { induction l as [|[k v] l IHl]; intros Hincl; [reflexivity|].
    cbn [fold_left]. rewrite Habs by (apply Hincl; now left).
    apply IHl. intros x Hx. apply Hincl. now right. }
  apply G, incl_refl.
Qed.

Lemma merge_source_twice (source : value) :
  well_formed source = true ->
  forall target,
    merge_source (merge_source target source) source = merge_source target source.
Proof.
  induction source as [| | b | n | s | items _ | c ps hs IHps _]
    using HeapFacts.value_ind; intros Hwf target; try reflexivity.
  destruct (well_formed_object c ps hs Hwf) as [Hnd Hall].
  destruct (isObject target []) eqn:Et.
  - destruct target as [| | | | | |ct pt ht]; try discriminate.
    change (VObject ct pt ht) with (VObj (mkObj ct pt ht)).
    change (VObject c ps hs) with (VObj (mkObj c ps hs)).
    rewrite !merge_source_obj. f_equal. cbn [own].
    apply merge_entries_absorbed; [exact Hnd|].
    intros k v Hin. rewrite Forall_forall in IHps, Hall.
    exact (IHps (k, v) Hin (Hall (k, v) Hin)).
  - now rewrite !(merge_source_not_object target _ (or_introl Et)).
Qed.

(** X7.  Merging a source a second time changes nothing:
    [merge(t, s, s)] leaves the target as [merge(t, s)] does. *)
Theorem merge_idempotent (target source : value) :
  well_formed source = true ->
  merge target [source; source] = merge target [source].
Proof. intros Hwf. simpl. now apply merge_source_twice. Qed.

(* ================================================================= *)
(** ** A change set merged back *)

Lemma diff_is_changed_fields (a b : obj) :
  enumerated (keys (own b)) = true ->
  diff a b = mkObj KObject (changed_fields a b) [].
Proof.
  intros Henum. rewrite diff_entries by now apply enumerated_NoDup.
  apply (diff_loop a (own b) [] Henum). reflexivity.
Qed.

Lemma NoDup_keys_filter {V : Type} (p : string * V -> bool) (ps : list (string * V)) :
  NoDup (keys ps) -> NoDup (keys (filter p ps)).
Proof.
  induction ps as [|[k v] ps IH]; simpl; [constructor|].
  intros Hnd. inversion Hnd as [|? ? Hnotin Hnd']; subst.
  destruct (p (k, v)); [|auto]. simpl. constructor; [|auto].
  intros Hin. apply Hnotin. unfold keys in *.
  apply in_map_iff in Hin as [[k' v'] [Hk Hin]]. simpl in Hk. subst k'.
  apply filter_In in Hin as [Hin _].
  apply in_map_iff. now exists (k, v').
Qed.

(** X27.  Merging the change set [diff(a, b)] into [a] brings every
    field of [b] to a value equal to [b]'s, where [b] holds no plain
    nested structure (those are merged into, not replaced). *)
Theorem merge_applies_diff (a b : obj) (k : string) :
  enumerated (keys (own b)) = true ->
  well_formed (VObj b) = true ->
  (forall v, In v (map snd (own b)) -> isObject v [Date; RegExp; Buffer] = false) ->
  In k (keys (own b)) ->
  equals (vget (merge (VObj a) [VObj (diff a b)]) k) (get b k) = true.
Proof.
  intros Henum Hwf Hflat Hk.
  pose proof (enumerated_NoDup _ Henum) as Hnd.
  rewrite (diff_is_changed_fields a b Henum), merge_single.
  unfold keys in Hk. apply in_map_iff in Hk as [[k' v] [Hk' Hin]].
  simpl in Hk'. subst k'.
  assert (Hget : get b k = v).
  { unfold get, find. now rewrite (lookup_NoDup k v (own b) Hnd Hin). }
  destruct (equals (get a k) v) eqn:E.
  - rewrite merge_source_obj, vget_VObj. cbn [own].
    assert (Hnotin : ~ In k (keys (changed_fields a b))).
    { unfold keys, changed_fields. intros H.
      apply in_map_iff in H as [[k' v'] [Hk' H]]. simpl in Hk'. subst k'.
      apply filter_In in H as [H Hne]. simpl in Hne.
      assert (v' = v).
      { pose proof (lookup_NoDup k v' (own b) Hnd H) as H1.
        pose proof (lookup_NoDup k v (own b) Hnd Hin) as H2. congruence. }
      subst v'. now rewrite E in Hne. }
    destruct (merge_entries_other (changed_fields a b) a k Hnotin) as [-> _].
    now rewrite Hget.
  - assert (Hlook : lookup k (changed_fields a b) = Some v).
    { apply lookup_NoDup; [now apply NoDup_keys_filter|].
      unfold changed_fields. apply filter_In. split; [exact Hin|]. simpl. now rewrite E. }
    rewrite (merge_source_at a (mkObj KObject (changed_fields a b) []) k v);
      [| now apply NoDup_keys_filter | exact Hlook].
    rewrite (Hflat v) by (apply in_map_iff; now exists (k, v)).
    rewrite Hget. rewrite <- Hget. apply equals_own; [exact Hwf|].
    unfold keys. apply in_map_iff. now exists (k, v).
Qed.

(* ================================================================= *)
(** ** prepareEntity: what the snapshot holds *)

Lemma keys_assign_plain {V : Type} (o : object V) (k k' : string) (v : V) :
  hidden o = [] ->
  hidden (assign o k v) = []
  /\ (In k' (keys (own (assign o k v))) <-> k' = k \/ In k' (keys (own o))).
Proof.
  intros Hh.
  assert (Hhid : hidden (assign o k v) = []).
  { unfold assign. rewrite Hh. now destruct (mem k (own o)). }
  split; [exact Hhid|]. split; [apply keys_assign|].
  intros [->|Hin]; apply mem_keys; unfold mem.
  - pose proof (find_assign_same o k v) as Hfind. unfold find in Hfind.
    rewrite Hhid in Hfind. now destruct (lookup k (own (assign o k v))).
  - destruct (String.eqb_spec k' k) as [->|Hne].
    + pose proof (find_assign_same o k v) as Hfind. unfold find in Hfind.
      rewrite Hhid in Hfind. now destruct (lookup k (own (assign o k v))).
    + destruct (lookup_assign_other o k k' v Hne) as [-> _].
      now apply mem_keys in Hin.
Qed.

Lemma find_defineProperty_other {V : Type} (o : object V) (k k' : string) (v : V) :
  k' <> k -> find (defineProperty o k v) k' = find o k'.
Proof.
  intros Hne. unfold find, defineProperty.
  destruct (mem k (own o)) eqn:Eo; simpl.
  - now rewrite lookup_replace_other.
  - destruct (mem k (hidden o)) eqn:Eh; simpl.
    + now rewrite lookup_replace_other.
    + rewrite lookup_app. simpl.
      destruct (String.eqb_spec k k'); [congruence|].
      now destruct (lookup k' (hidden o)).
Qed.

Section Snapshots.

Variable Platform : Type.
Variable clone : value -> value.
Variable metadata : MetadataStorage Platform.
Variable platform : Platform.

Lemma loop_cons (entity : obj) (prop : EntityProperty Platform)
    (ps : list (EntityProperty Platform)) (ret : obj) :
  prepare_loop clone metadata platform entity (prop :: ps) (Some ret)
  = prepare_loop clone metadata platform entity ps (prepareProperty clone metadata platform entity ret prop).
Proof. reflexivity. Qed.

Lemma prepareProperty_cases (entity ret ret' : obj) (prop : EntityProperty Platform) :
  prepareProperty clone metadata platform entity ret prop = Some ret' ->
  (shouldIgnoreProperty metadata entity prop = Some true /\ ret' = ret)
  \/ (shouldIgnoreProperty metadata entity prop = Some false
      /\ exists v, written clone metadata platform entity prop = Some v /\ ret' = assign ret (name prop) v).
Proof.
  unfold prepareProperty, written.
  destruct (shouldIgnoreProperty metadata entity prop) as [[|]|]; simpl;
    [intros [= <-]; now left | | discriminate].
  intros H. right. split; [reflexivity|].
  destruct (isEntity (get entity (name prop)) true).
  - destruct (metadata_get metadata (type prop)); simpl in *; [|discriminate].
    injection H as <-. eauto.
  - destruct (customType prop); [|destruct (isArray _ || isObject _ [])];
      injection H as <-; eauto.
Qed.

Lemma loop_failed (entity : obj) (ps : list (EntityProperty Platform)) :
  prepare_loop clone metadata platform entity ps None = None.
Proof. induction ps; simpl; auto. Qed.

Lemma loop_exact (entity : obj) (ps : list (EntityProperty Platform))
    (ret ret' : obj) :
  prepare_loop clone metadata platform entity ps (Some ret) = Some ret' -> hidden ret = [] ->
  hidden ret' = []
  /\ forall k, In k (keys (own ret')) <->
               In k (keys (own ret))
               \/ exists prop, In prop ps /\ name prop = k
                               /\ shouldIgnoreProperty metadata entity prop = Some false.
Proof.
  revert ret. induction ps as [|prop ps IH]; intros ret Hloop Hh.
  - injection Hloop as <-. split; [exact Hh|]. intros k. split; [auto|].
    now intros [H|[prop [[] _]]].
  - rewrite loop_cons in Hloop.
    destruct (prepareProperty clone metadata platform entity ret prop) as [ret1|] eqn:E;
      [|now rewrite loop_failed in Hloop].
    destruct (prepareProperty_cases _ _ _ _ E) as [[Hig ->]|[Hig [v [_ ->]]]].
    + destruct (IH ret Hloop Hh) as [Hh' Hiff]. split; [exact Hh'|].
      intros k. rewrite Hiff. split.
      * intros [H|[p [Hin H]]]; [now left | right; exists p; split; [now right | exact H]].
      * intros [H|[p [[<-|Hin] [Hn Hs]]]]; [now left | congruence | right; now exists p].
    + destruct (keys_assign_plain ret (name prop) (name prop) v Hh) as [Hh1 _].
      destruct (IH _ Hloop Hh1) as [Hh' Hiff]. split; [exact Hh'|].
      intros k. rewrite Hiff.
      destruct (keys_assign_plain ret (name prop) k v Hh) as [_ ->]. split.
      * intros [[->|H]|[p [Hin H]]].
        -- right. exists prop. split; [now left | auto].
        -- now left.
        -- right. exists p. split; [now right | exact H].
      * intros [H|[p [[<-|Hin] [Hn Hs]]]].
        -- left. now right.
        -- left. now left.
        -- right. now exists p.
Qed.

(** A snapshot of an entity that is not marked yet is what the loop
    over the declared properties builds, with the marker on it. *)
Lemma prepareEntity_loop (entity snapshot : obj) (meta : EntityMetadata Platform) :
  truthy (get entity "__prepared") = false ->
  metadata_get metadata (constructor_name (cls entity)) = Some meta ->
  prepareEntity clone metadata platform entity = Some snapshot ->
  exists ret,
    prepare_loop clone metadata platform entity (properties meta) (Some emptyObject)
    = Some ret
    /\ snapshot = defineProperty ret "__prepared" (VBool true).
Proof.
  intros Hfresh Hmeta. unfold prepareEntity. rewrite Hfresh, Hmeta. simpl.
  destruct (fold_left _ (properties meta) (Some emptyObject)) as [ret|] eqn:Hloop;
    simpl; [|discriminate].
  intros [= <-]. now exists ret.
Qed.

Lemma loop_keys (entity ret : obj) (ps : list (EntityProperty Platform)) (k : string) :
  prepare_loop clone metadata platform entity ps (Some emptyObject) = Some ret ->
  (In k (keys (own ret)) <->
   exists prop, In prop ps /\ name prop = k
                /\ shouldIgnoreProperty metadata entity prop = Some false).
Proof.
  intros Hloop.
  destruct (loop_exact entity ps emptyObject ret Hloop eq_refl) as [_ Hiff].
  rewrite Hiff. simpl. tauto.
Qed.

(** X4.  The enumerable keys of a snapshot are exactly the names of the
    declared properties that [shouldIgnoreProperty] lets through. *)
Theorem prepareEntity_keeps_exactly (entity snapshot : obj)
    (meta : EntityMetadata Platform) (k : string) :
  truthy (get entity "__prepared") = false ->
  metadata_get metadata (constructor_name (cls entity)) = Some meta ->
  prepareEntity clone metadata platform entity = Some snapshot ->
  (In k (keys (own snapshot)) <->
   exists prop, In prop (properties meta) /\ name prop = k
                /\ shouldIgnoreProperty metadata entity prop = Some false).
Proof.
  intros Hfresh Hmeta Hprep.
  destruct (prepareEntity_loop entity snapshot meta Hfresh Hmeta Hprep) as [ret [Hloop ->]].
  rewrite keys_defineProperty. now apply loop_keys.
Qed.

Lemma shouldIgnoreProperty_causes (entity : obj) (prop : EntityProperty Platform) :
  has entity (name prop) = false
  \/ instanceOf (get entity (name prop)) ArrayCollection = true
  \/ persist prop = Some false
  \/ (reference prop = ONE_TO_ONE /\ owner prop = false) ->
  shouldIgnoreProperty metadata entity prop <> Some false.
Proof.
  unfold shouldIgnoreProperty. intros H.
  destruct (has entity (name prop)) eqn:Ehas; simpl; [|discriminate].
  destruct H as [H|[H|[H|[H1 H2]]]]; [discriminate | | |].
  - rewrite H.
    destruct (isEntity (get entity (name prop)) false);
      [destruct (metadata_get metadata (type prop))|]; simpl; discriminate.
  - rewrite H.
    destruct (isEntity (get entity (name prop)) false);
      [destruct (metadata_get metadata (type prop))|]; simpl;
      rewrite ?orb_true_r; discriminate.
  - rewrite H1, H2.
    destruct (isEntity (get entity (name prop)) false);
      [destruct (metadata_get metadata (type prop))|]; simpl;
      rewrite ?orb_true_r; simpl; rewrite ?orb_true_r; discriminate.
Qed.

Lemma NoDup_names (ps : list (EntityProperty Platform)) (p q : EntityProperty Platform) :
  NoDup (map name ps) -> In p ps -> In q ps -> name p = name q -> p = q.
Proof.
  induction ps as [|x ps IH]; simpl; [contradiction|].
  intros Hnd [->|Hp] [->|Hq] Hname; inversion Hnd as [|? ? Hnotin Hnd']; subst; auto.
  - exfalso. apply Hnotin. rewrite Hname. now apply in_map.
  - exfalso. apply Hnotin. rewrite <- Hname. now apply in_map.
Qed.

(** X5.  A property that the entity lacks, that holds a collection,
    that is declared [persist: false], or that is the inverse side of a
    1:1 relation, never shows in the snapshot. *)
Theorem prepareEntity_leaves_out (entity snapshot : obj)
    (meta : EntityMetadata Platform) (prop : EntityProperty Platform) :
  truthy (get entity "__prepared") = false ->
  metadata_get metadata (constructor_name (cls entity)) = Some meta ->
  prepareEntity clone metadata platform entity = Some snapshot ->
  NoDup (map name (properties meta)) ->
  In prop (properties meta) ->
  has entity (name prop) = false
  \/ instanceOf (get entity (name prop)) ArrayCollection = true
  \/ persist prop = Some false
  \/ (reference prop = ONE_TO_ONE /\ owner prop = false) ->
  mem (name prop) (own snapshot) = false.
Proof.
  intros Hfresh Hmeta Hprep Hnd Hin Hcause.
  destruct (prepareEntity_loop entity snapshot meta Hfresh Hmeta Hprep) as [ret [Hloop ->]].
  apply mem_false_keys. rewrite keys_defineProperty. intros Hkey.
  apply (loop_keys entity ret (properties meta) (name prop) Hloop)
    in Hkey as [q [Hq [Hname Hkeep]]].
  rewrite (NoDup_names _ q prop Hnd Hq Hin Hname) in Hkeep.
  now apply (shouldIgnoreProperty_causes entity prop Hcause).
Qed.

Lemma loop_other (entity : obj) (ps : list (EntityProperty Platform))
    (ret ret' : obj) (k : string) :
  prepare_loop clone metadata platform entity ps (Some ret) = Some ret' -> ~ In k (map name ps) ->
  find ret' k = find ret k.
Proof.
  revert ret. induction ps as [|prop ps IH]; intros ret Hloop Hnotin.
  - now injection Hloop as <-.
  - rewrite loop_cons in Hloop.
    destruct (prepareProperty clone metadata platform entity ret prop) as [ret1|] eqn:E;
      [|now rewrite loop_failed in Hloop].
    simpl in Hnotin. rewrite (IH ret1 Hloop) by tauto.
    destruct (prepareProperty_cases _ _ _ _ E) as [[_ ->]|[_ [v [_ ->]]]]; [reflexivity|].
    apply find_assign_other. intros ->. tauto.
Qed.

Lemma loop_value (entity : obj) (ps : list (EntityProperty Platform))
    (ret ret' : obj) (prop : EntityProperty Platform) :
  prepare_loop clone metadata platform entity ps (Some ret) = Some ret' ->
  NoDup (map name ps) -> In prop ps ->
  shouldIgnoreProperty metadata entity prop = Some false ->
  exists v, written clone metadata platform entity prop = Some v /\ find ret' (name prop) = Some v.
Proof.
  revert ret. induction ps as [|p ps IH]; intros ret Hloop Hnd Hin Hkeep; [contradiction|].
  rewrite loop_cons in Hloop.
  destruct (prepareProperty clone metadata platform entity ret p) as [ret1|] eqn:E;
    [|now rewrite loop_failed in Hloop].
  simpl in Hnd. inversion Hnd as [|? ? Hnotin Hnd']; subst.
  destruct Hin as [->|Hin]; [|now apply (IH ret1)].
  destruct (prepareProperty_cases _ _ _ _ E) as [[Hig _]|[_ [v [Hv ->]]]]; [congruence|].
  exists v. split; [exact Hv|].
  rewrite (loop_other entity ps _ ret' (name prop) Hloop Hnotin).
  apply find_assign_same.
Qed.

(** X6.  What the snapshot holds at a property it keeps: the primary
    key read off an entity or reference, the custom type's database
    value, a clone of an array or object, and any other value as it is.
    No later step of the loop, nor the marker, touches it. *)
Theorem prepareEntity_field_value (entity snapshot : obj)
    (meta : EntityMetadata Platform) (prop : EntityProperty Platform) :
  truthy (get entity "__prepared") = false ->
  metadata_get metadata (constructor_name (cls entity)) = Some meta ->
  prepareEntity clone metadata platform entity = Some snapshot ->
  NoDup (map name (properties meta)) ->
  In prop (properties meta) ->
  shouldIgnoreProperty metadata entity prop = Some false ->
  name prop <> "__prepared" ->
  Some (get snapshot (name prop))
  = let v := get entity (name prop) in
    if isEntity v true then
      m <- metadata_get metadata (type prop) ;; Some (vget v (primaryKey m))
    else
      match customType prop with
      | Some convertToDatabaseValue => Some (convertToDatabaseValue v platform)
      | None => if isArray v || isObject v [] then Some (clone v) else Some v
      end.
Proof.
  intros Hfresh Hmeta Hprep Hnd Hin Hkeep Hname.
  destruct (prepareEntity_loop entity snapshot meta Hfresh Hmeta Hprep) as [ret [Hloop ->]].
  destruct (loop_value entity (properties meta) emptyObject ret prop Hloop Hnd Hin Hkeep)
    as [v [Hv Hfind]].
  unfold written in Hv. cbv zeta. rewrite Hv. f_equal.
  unfold get. now rewrite find_defineProperty_other, Hfind.
Qed.

(** X3.  A change set computed by [diffEntities] names only properties
    that the metadata of the second entity declares and that
    [shouldIgnoreProperty] lets through. *)
Theorem diffEntities_declared (a b changes : obj) (meta : EntityMetadata Platform)
    (k : string) :
  truthy (get b "__prepared") = false ->
  metadata_get metadata (constructor_name (cls b)) = Some meta ->
  diffEntities clone a b metadata platform = Some changes ->
  In k (keys (own changes)) ->
  exists prop, In prop (properties meta) /\ name prop = k
               /\ shouldIgnoreProperty metadata b prop = Some false.
Proof.
  intros Hfresh Hmeta. unfold diffEntities.
  destruct (prepareEntity clone metadata platform a) as [pa|]; simpl; [|discriminate].
  destruct (prepareEntity clone metadata platform b) as [pb|] eqn:Hb; simpl; [|discriminate].
  intros [= <-] Hin. apply diff_keys in Hin.
  destruct (prepareEntity_loop b pb meta Hfresh Hmeta Hb) as [ret [Hloop ->]].
  rewrite keys_defineProperty in Hin. now apply (loop_keys b ret (properties meta) k Hloop).
Qed.

(** X28.  An entity whose snapshot is plain data has nothing to write
    when compared with itself: [diffEntities(e, e)] is the empty change
    set. *)
Theorem diffEntities_unchanged (entity snapshot : obj) :
  prepareEntity clone metadata platform entity = Some snapshot ->
  plain_fields snapshot = true ->
  diffEntities clone entity entity metadata platform = Some emptyObject.
Proof.
  intros Hprep Hplain. unfold diffEntities. rewrite Hprep. cbn [bind]. f_equal.
  apply diff_all_equal. apply forallb_forall. intros k Hin.
  now apply plain_fields_equal.
Qed.

End Snapshots.

(* ================================================================= *)
(** ** Arrays: unique, findDuplicates, asArray *)

Module StoreFacts.

Import Heap.

Lemma same_value_eq (a b : ref_value) : same_value a b = true <-> a = b.
Proof.
  destruct a, b; simpl; split; try congruence; try discriminate; intros H.
  - f_equal. now apply Bool.eqb_prop.
  - injection H as ->. apply Bool.eqb_reflx.
  - f_equal. now apply Z.eqb_eq.
  - injection H as ->. apply Z.eqb_refl.
  - f_equal. now apply String.eqb_eq.
  - injection H as ->. apply String.eqb_refl.
  - f_equal. now apply Nat.eqb_eq.
  - injection H as ->. apply Nat.eqb_refl.
Qed.

Lemma same_value_refl (a : ref_value) : same_value a a = true.
Proof. now apply same_value_eq. Qed.

Lemma same_value_neq (a b : ref_value) : same_value a b = false <-> a <> b.
Proof.
  split.
  - intros H Heq. apply same_value_eq in Heq. congruence.
  - intros H. destruct (same_value a b) eqn:E; [|reflexivity].
    apply same_value_eq in E. contradiction.
Qed.

Lemma holds_value (s : list ref_value) (x : ref_value) :
  existsb (same_value x) s = true <-> In x s.
Proof.
  rewrite existsb_exists. split.
  - intros [y [Hin Heq]]. apply same_value_eq in Heq. now subst.
  - intros Hin. exists x. split; [exact Hin | apply same_value_refl].
Qed.

Lemma lacks_value (s : list ref_value) (x : ref_value) :
  existsb (same_value x) s = false <-> ~ In x s.
Proof.
  rewrite <- holds_value. destruct (existsb (same_value x) s); split; congruence.
Qed.

Lemma set_add_spec (s : list ref_value) (x : ref_value) :
  NoDup s ->
  NoDup (set_add s x) /\ forall y, In y (set_add s x) <-> In y s \/ y = x.
Proof.
  intros Hnd. unfold set_add. destruct (existsb (same_value x) s) eqn:E.
  - apply holds_value in E. split; [exact Hnd|]. intros y. split; [auto|].
    intros [H| ->]; assumption.
  - apply lacks_value in E. split.
    + apply NoDup_app; [exact Hnd | repeat constructor; auto |].
      intros y Hy [<-|[]]. contradiction.
    + intros y. rewrite in_app_iff. simpl. intuition.
Qed.

Lemma set_adds_spec (items s : list ref_value) :
  NoDup s ->
  NoDup (fold_left set_add items s)
  /\ forall y, In y (fold_left set_add items s) <-> In y s \/ In y items.
Proof.
  revert s. induction items as [|x items IH]; intros s Hnd; simpl.
  - split; [exact Hnd|]. intros y. tauto.
  - destruct (set_add_spec s x Hnd) as [Hnd1 Hin1].
    destruct (IH _ Hnd1) as [Hnd2 Hin2]. split; [exact Hnd2|].
    intros y. rewrite Hin2, Hin1. intuition.
Qed.

(** X10.  [unique] returns the values of [items], each of them once. *)
Theorem unique_members (items : list ref_value) :
  NoDup (unique items) /\ forall x, In x (unique items) <-> In x items.
Proof.
  destruct (set_adds_spec items [] (NoDup_nil _)) as [Hnd Hin].
  split; [exact Hnd|]. intros x. rewrite (Hin x). simpl. tauto.
Qed.

Lemma set_adds_head (x : ref_value) (items s : list ref_value) :
  fold_left set_add items (x :: s)
  = x :: fold_left set_add (filter (fun y => negb (same_value x y)) items) s.
Proof.
  revert s. induction items as [|y items IH]; intros s; [reflexivity|].
  cbn [fold_left filter]. unfold set_add at 2. cbn [existsb].
  destruct (same_value y x) eqn:E.
  - apply same_value_eq in E. subst y. rewrite same_value_refl. simpl. apply IH.
  - assert (E' : same_value x y = false).
    { apply same_value_neq. apply same_value_neq in E. congruence. }
    rewrite E'. cbn [negb fold_left orb].
    rewrite <- IH. f_equal. unfold set_add.
    now destruct (existsb (same_value y) s).
Qed.

(** X11.  Every value stays where it first occurs: the first element
    of [items] heads the result, and the rest is [unique] of what
    follows without that value. *)
Theorem unique_keeps_first (x : ref_value) (items : list ref_value) :
  unique (x :: items)
  = x :: unique (filter (fun y => negb (same_value x y)) items).
Proof. unfold unique. simpl. unfold set_add at 2. simpl. apply set_adds_head. Qed.

Lemma set_adds_distinct (items s : list ref_value) :
  NoDup (s ++ items) -> fold_left set_add items s = s ++ items.
Proof.
  revert s. induction items as [|x items IH]; intros s Hnd; simpl.
  - now rewrite app_nil_r.
  - assert (Hx : ~ In x s).
    { apply NoDup_remove_2 in Hnd. intros H. apply Hnd. apply in_or_app. now left. }
    unfold set_add. apply lacks_value in Hx. rewrite Hx.
    rewrite IH; rewrite <- app_assoc; [reflexivity | exact Hnd].
Qed.

(** X12.  An array without repeats comes back as it is, so [unique]
    applied twice is [unique] applied once. *)
Theorem unique_idempotent (items : list ref_value) :
  (NoDup items -> unique items = items)
  /\ unique (unique items) = unique items.
Proof.
  assert (H : forall l, NoDup l -> unique l = l).
  { intros l Hnd. now apply (set_adds_distinct l []). }
  split; [apply H|]. apply H. apply (set_adds_spec items []). constructor.
Qed.

(** *** findDuplicates *)

Lemma strict_equal_eq (y x : ref_value) : strict_equal y x = true -> y = x.
Proof. destruct y; try apply same_value_eq. discriminate. Qed.

Lemma strict_equal_refl (x : ref_value) : x <> RNaN -> strict_equal x x = true.
Proof. destruct x; try (intros _; apply same_value_refl). congruence. Qed.

Lemma indexOf_from_absent (i : Z) (xs : list ref_value) (x : ref_value) :
  ~ In x xs -> indexOf_from i xs x = (-1)%Z.
Proof.
  revert i. induction xs as [|y xs IH]; intros i Hnotin; [reflexivity|].
  simpl in *. destruct (strict_equal y x) eqn:E.
  - apply strict_equal_eq in E. tauto.
  - apply IH. tauto.
Qed.

Lemma indexOf_from_present (i : Z) (xs : list ref_value) (x : ref_value) :
  x <> RNaN ->
  In x xs -> (i <= indexOf_from i xs x < i + Z.of_nat (length xs))%Z.
Proof.
  intros Hx. revert i. induction xs as [|y xs IH]; intros i Hin; [contradiction|].
  cbn [indexOf_from length]. destruct (strict_equal y x) eqn:E; [lia|].
  destruct Hin as [->|Hin]; [now rewrite strict_equal_refl in E|].
  specialize (IH (i + 1)%Z Hin). lia.
Qed.

Lemma indexOf_from_app (i : Z) (xs ys : list ref_value) (x : ref_value) :
  ~ In x xs ->
  indexOf_from i (xs ++ ys) x = indexOf_from (i + Z.of_nat (length xs)) ys x.
Proof.
  revert i. induction xs as [|y xs IH]; intros i Hnotin.
  - simpl. f_equal. lia.
  - cbn [app indexOf_from length]. simpl in Hnotin.
    destruct (strict_equal y x) eqn:E; [apply strict_equal_eq in E; tauto|].
    rewrite IH by tauto. f_equal. lia.
Qed.

Lemma indexOf_from_first (i : Z) (xs ys : list ref_value) (x : ref_value) :
  x <> RNaN ->
  In x xs -> indexOf_from i (xs ++ ys) x = indexOf_from i xs x.
Proof.
  intros Hx. revert i. induction xs as [|y xs IH]; intros i Hin; [contradiction|].
  cbn [app indexOf_from]. destruct (strict_equal y x) eqn:E; [reflexivity|].
  destruct Hin as [->|Hin]; [now rewrite strict_equal_refl in E|]. now apply IH.
Qed.

(** NaN is at no index of any array. *)
Lemma indexOf_from_NaN (i : Z) (xs : list ref_value) :
  indexOf_from i xs RNaN = (-1)%Z.
Proof.
  revert i. induction xs as [|y xs IH]; intros i; [reflexivity|].
  simpl. destruct (strict_equal y RNaN) eqn:E; [|apply IH].
  pose proof (strict_equal_eq _ _ E) as Hy. subst y. discriminate E.
Qed.

(** The test [arr.indexOf(v) !== i] at position [i] says that [v] has
    occurred before. *)
Lemma seen_before (done more : list ref_value) (v : ref_value) :
  v <> RNaN ->
  negb (indexOf (done ++ v :: more) v =? Z.of_nat (length done))%Z
  = existsb (same_value v) done.
Proof.
  intros Hv. unfold indexOf. destruct (existsb (same_value v) done) eqn:E.
  - apply holds_value in E. rewrite indexOf_from_first by assumption.
    pose proof (indexOf_from_present 0 done v Hv E).
    apply negb_true_iff, Z.eqb_neq. lia.
  - apply lacks_value in E. rewrite indexOf_from_app by exact E.
    simpl. rewrite strict_equal_refl by exact Hv. apply negb_false_iff, Z.eqb_eq. lia.
Qed.

Lemma not_yet_listed (acc : list ref_value) (v : ref_value) :
  v <> RNaN ->
  (indexOf acc v =? -1)%Z = negb (existsb (same_value v) acc).
Proof.
  intros Hv. unfold indexOf. destruct (existsb (same_value v) acc) eqn:E.
  - apply holds_value in E. pose proof (indexOf_from_present 0 acc v Hv E).
    apply Z.eqb_neq. lia.
  - apply lacks_value in E. rewrite indexOf_from_absent by exact E. reflexivity.
Qed.

Lemma concat_plain (st : store) (acc : list ref_value) (v : ref_value) :
  isArray st v = false -> concat st acc v = acc ++ [v].
Proof.
  unfold isArray, concat. destruct v; auto.
  destruct (read st l) as [[|]|]; auto. discriminate.
Qed.

Lemma occurrences_app (xs ys : list ref_value) (x : ref_value) :
  occurrences (xs ++ ys) x = occurrences xs x + occurrences ys x.
Proof. unfold occurrences. now rewrite filter_app, length_app. Qed.

Lemma occurrences_In (xs : list ref_value) (x : ref_value) :
  In x xs <-> 1 <= occurrences xs x.
Proof.
  unfold occurrences. induction xs as [|y xs IH]; simpl; [lia|].
  destruct (same_value x y) eqn:E.
  - apply same_value_eq in E. subst. simpl. split; [lia | auto].
  - apply same_value_neq in E. rewrite <- IH. split; [intros [H|H]; congruence | auto].
Qed.

Lemma occurrences_one (v x : ref_value) :
  occurrences [v] x = if same_value x v then 1 else 0.
Proof. unfold occurrences. simpl. now destruct (same_value x v). Qed.

Lemma findDuplicates_loop (st : store) (items : list ref_value) :
  (forall v, In v items -> isArray st v = false) ->
  ~ In RNaN items ->
  forall more done acc,
    items = done ++ more ->
    NoDup acc ->
    (forall x, In x acc <-> 2 <= occurrences done x) ->
    let r := reduce (fun acc v i =>
                       if negb (indexOf items v =? i)%Z && (indexOf acc v =? -1)%Z
                       then concat st acc v else acc)
                    more (Z.of_nat (length done)) acc in
    NoDup r /\ forall x, In x r <-> 2 <= occurrences items x.
Proof.
  intros Hplain Hnan. induction more as [|v more IH]; intros done acc Hitems Hnd Hacc.
  - simpl. rewrite app_nil_r in Hitems. subst done. auto.
  - cbn [reduce]. cbv zeta in IH.
    replace (Z.of_nat (length done) + 1)%Z with (Z.of_nat (length (done ++ [v])))
      by (rewrite length_app; simpl; lia).
    assert (Hitems' : items = (done ++ [v]) ++ more)
      by (now rewrite <- app_assoc).
    assert (Hv : v <> RNaN).
    { intros ->. apply Hnan. rewrite Hitems. apply in_or_app. right. now left. }
    assert (Hseen : negb (indexOf items v =? Z.of_nat (length done))%Z
                    = existsb (same_value v) done)
      by (rewrite Hitems; now apply seen_before).
    rewrite Hseen, not_yet_listed by exact Hv.
    rewrite concat_plain
      by (apply Hplain; rewrite Hitems; apply in_or_app; right; now left).
    destruct (existsb (same_value v) done) eqn:Edone;
      [destruct (existsb (same_value v) acc) eqn:Eacc|]; cbn [andb negb].
    + apply (IH (done ++ [v]) acc Hitems' Hnd).
      intros x. rewrite Hacc, occurrences_app, occurrences_one.
      destruct (same_value x v) eqn:E; [|lia].
      apply same_value_eq in E. subst x.
      apply holds_value, Hacc in Eacc. lia.
    + apply lacks_value in Eacc. apply holds_value in Edone.
      apply (IH (done ++ [v]) (acc ++ [v]) Hitems').
      * apply NoDup_app; [exact Hnd | repeat constructor; auto |].
        intros y Hy [<-|[]]. contradiction.
      * intros x. rewrite in_app_iff, Hacc, occurrences_app, occurrences_one. simpl.
        destruct (same_value x v) eqn:E.
        -- apply same_value_eq in E. subst x. apply occurrences_In in Edone.
           split; [lia | auto].
        -- apply same_value_neq in E. split; [intros [H|[H|[]]]; [lia | congruence] | left; lia].
    + apply lacks_value in Edone.
      apply (IH (done ++ [v]) acc Hitems' Hnd).
      intros x. rewrite Hacc, occurrences_app, occurrences_one.
      destruct (same_value x v) eqn:E; [|lia].
      apply same_value_eq in E. subst x.
      assert (occurrences done v = 0).
      { destruct (occurrences done v) eqn:Eo; [reflexivity|].
        exfalso. apply Edone. apply occurrences_In. lia. }
      lia.
Qed.

(** X13.  Where no element of [items] is itself an array and none is
    NaN, [findDuplicates] lists exactly the values that occur more than
    once, each of them once. *)
Theorem findDuplicates_members (st : store) (items : list ref_value) :
  (forall v, In v items -> isArray st v = false) ->
  ~ In RNaN items ->
  NoDup (findDuplicates st items)
  /\ forall x, In x (findDuplicates st items) <-> 2 <= occurrences items x.
Proof.
  intros Hplain Hnan.
  apply (findDuplicates_loop st items Hplain Hnan items [] []);
    [reflexivity | constructor |].
  intros x. simpl. split; [contradiction | unfold occurrences; simpl; lia].
Qed.

Lemma findDuplicates_none (st : store) (items : list ref_value) :
  NoDup items ->
  ~ In RNaN items ->
  forall more done,
    items = done ++ more ->
    reduce (fun acc v i =>
              if negb (indexOf items v =? i)%Z && (indexOf acc v =? -1)%Z
              then concat st acc v else acc)
           more (Z.of_nat (length done)) [] = [].
Proof.
  intros Hnd Hnan. induction more as [|v more IH]; intros done Hitems; [reflexivity|].
  cbn [reduce].
  replace (Z.of_nat (length done) + 1)%Z with (Z.of_nat (length (done ++ [v])))
    by (rewrite length_app; simpl; lia).
  assert (Hv : v <> RNaN).
  { intros ->. apply Hnan. rewrite Hitems. apply in_or_app. right. now left. }
  assert (Hseen : negb (indexOf items v =? Z.of_nat (length done))%Z
                  = existsb (same_value v) done)
    by (rewrite Hitems; now apply seen_before).
  rewrite Hseen.
  assert (Hnew : existsb (same_value v) done = false).
  { apply lacks_value. rewrite Hitems in Hnd. apply NoDup_remove_2 in Hnd.
    intros H. apply Hnd. apply in_or_app. now left. }
  rewrite Hnew. cbn [andb]. apply IH. now rewrite <- app_assoc.
Qed.

(** X14.  An array without repeats and without NaN has no duplicates,
    so for [items] without NaN [findDuplicates(unique(items))] is
    empty.  NaN, which [indexOf] never finds, is reported though it
    occurs once. *)
Theorem findDuplicates_unique (st : store) (items : list ref_value) :
  (~ In RNaN items -> NoDup items -> findDuplicates st items = [])
  /\ (~ In RNaN items -> findDuplicates st (unique items) = [])
  /\ findDuplicates st (unique [RNaN]) = [RNaN].
Proof.
  assert (H : forall l, ~ In RNaN l -> NoDup l -> findDuplicates st l = []).
  { intros l Hnan Hnd. now apply (findDuplicates_none st l Hnd Hnan l []). }
  split; [apply H|]. split; [|reflexivity].
  intros Hnan. destruct (set_adds_spec items [] (NoDup_nil _)) as [Hnd Hin].
  apply H; [|exact Hnd].
  intros Hin'. apply Hnan. apply (Hin RNaN) in Hin'. now destruct Hin'.
Qed.

(** X15.  An array that occurs twice among [items] is not listed
    itself: its elements are, [concat] spreading what it is given. *)
Theorem findDuplicates_spreads_arrays (st : store) (l : loc)
    (elements : list ref_value) :
  read st l = Some (CArray elements) ->
  findDuplicates st [RRef l; RRef l] = elements.
Proof.
  intros Hread. unfold findDuplicates, indexOf. simpl.
  rewrite Nat.eqb_refl. simpl. now rewrite Hread.
Qed.

(** *** asArray *)

Lemma isArray_alloc (st : store) (items : list ref_value) :
  isArray (st ++ [CArray items]) (RRef (length st)) = true.
Proof. unfold isArray. now rewrite HeapFacts.read_alloc_new. Qed.

(** X16.  [asArray] always returns an array: a new empty one for [undefined],
    the very array it was given, or a new one that holds the value it
    was given ([null] too).  Nothing that was in the store changes. *)
Theorem asArray_result (st : store) (data : ref_value) :
  exists (l : loc) (items : list ref_value),
    snd (asArray st data) = RRef l
    /\ read (fst (asArray st data)) l = Some (CArray items)
    /\ (forall l', l' < length st -> read (fst (asArray st data)) l' = read st l')
    /\ (data = RUndefined -> items = [] /\ l = length st)
    /\ (isArray st data = true -> snd (asArray st data) = data /\ fst (asArray st data) = st)
    /\ (data <> RUndefined -> isArray st data = false ->
        items = [data] /\ l = length st).
Proof.
  destruct (isArray st data) eqn:E.
  - unfold isArray in E. destruct data as [| | | | |l0|]; try discriminate.
    destruct (read st l0) as [[items|]|] eqn:Er; try discriminate.
    assert (Has : asArray st (RRef l0) = (st, RRef l0)).
    { unfold asArray, isArray. now rewrite Er. }
    rewrite Has. exists l0, items. cbn [fst snd].
    split; [reflexivity|]. split; [exact Er|]. split; [auto|].
    split; [discriminate|]. split; [auto|].
    intros _ H. discriminate.
  - assert (Has : asArray st data
                  = (st ++ [CArray (match data with RUndefined => [] | _ => [data] end)],
                     RRef (length st))).
    { unfold asArray. rewrite E. now destruct data. }
    rewrite Has. exists (length st). eexists. cbn [fst snd].
    split; [reflexivity|]. split; [apply HeapFacts.read_alloc_new|].
    split; [intros; now apply HeapFacts.read_alloc_old|].
    split; [now intros ->|]. split; [discriminate|].
    intros Hne _. now destruct data.
Qed.

(** X17.  What [asArray] returns it returns again, without a new
    array. *)
Theorem asArray_idempotent (st : store) (data : ref_value) :
  asArray (fst (asArray st data)) (snd (asArray st data)) = asArray st data.
Proof.
  assert (Hnew : forall items,
            asArray (st ++ [CArray items]) (RRef (length st))
            = (st ++ [CArray items], RRef (length st))).
  { intros items. unfold asArray. now rewrite isArray_alloc. }
  destruct (isArray st data) eqn:E.
  - assert (Has : asArray st data = (st, data)).
    { unfold asArray. rewrite E. destruct data; try reflexivity. discriminate. }
    rewrite Has. cbn [fst snd]. exact Has.
  - assert (Has : asArray st data
                  = (st ++ [CArray (match data with RUndefined => [] | _ => [data] end)],
                     RRef (length st))).
    { unfold asArray. rewrite E. now destruct data. }
    rewrite Has. cbn [fst snd]. apply Hnew.
Qed.

(** *** renameKey and defaultValue *)

Lemma write_same (st : store) (l : loc) (c : cell) :
  read st l = Some c -> write st l c = st.
Proof.
  revert l. induction st as [|c0 st IH]; intros [|l]; simpl; try discriminate.
  - now intros [= ->].
  - intros H. f_equal. now apply IH.
Qed.

Lemma write_write (st : store) (l : loc) (c1 c2 : cell) :
  write (write st l c1) l c2 = write st l c2.
Proof.
  revert l. induction st as [|c0 st IH]; intros [|l]; simpl; auto.
  now rewrite IH.
Qed.

(** One round of [renameKey]'s loop, on the object itself. *)
Lemma rename_step (st : store) (p : loc) (x : object ref_value) (from to key : string) :
  read st p = Some (CObject x) ->
  assign_at (delete_at st p key) p (if from =? key then to else key) (get_at st p key)
  = write st p
      (CObject (assign (delete_prop x key) (renamed from to key)
                       (match find x key with Some v => v | None => RUndefined end))).
Proof.
  intros Hread. unfold delete_at, get_at, assign_at. rewrite Hread.
  rewrite HeapFacts.read_write_same by (eapply HeapFacts.read_lt; eassumption).
  now rewrite write_write.
Qed.

Lemma rename_loop (from to : string) (ks : list string) :
  forall (st : store) (p : loc) (x : object ref_value),
    read st p = Some (CObject x) ->
    fold_left
      (fun st key =>
         assign_at (delete_at st p key) p (if from =? key then to else key)
                   (get_at st p key)) ks st
    = write st p
        (CObject
           (fold_left
              (fun x key =>
                 assign (delete_prop x key) (renamed from to key)
                        (match find x key with Some v => v | None => RUndefined end))
              ks x)).
Proof.
  induction ks as [|key ks IH]; intros st p x Hread.
  - simpl. symmetry. now apply write_same.
  - cbn [fold_left]. rewrite (rename_step st p x from to key Hread).
    rewrite (IH _ p _ (HeapFacts.read_write_same st p _ (HeapFacts.read_lt st p _ Hread))).
    now rewrite write_write.
Qed.

Lemma renamed_distinct (from to : string) (ks : list string) :
  NoDup ks -> ~ In to ks -> NoDup (map (renamed from to) ks).
Proof.
  intros Hnd Hto. induction ks as [|k ks IH]; simpl; [constructor|].
  inversion Hnd as [|? ? Hk Hks]; subst. simpl in Hto.
  constructor; [|apply IH; tauto].
  intros Hin. apply in_map_iff in Hin as [k' [Heq Hin]].
  unfold renamed in Heq.
  destruct (String.eqb_spec from k'), (String.eqb_spec from k); subst;
    try tauto; try congruence.
Qed.

Lemma remove_key_head {V : Type} (k : string) (v : V) (ps : list (string * V)) :
  remove_key k ((k, v) :: ps) = ps.
Proof. simpl. now rewrite String.eqb_refl. Qed.

Lemma rename_entries (from to : string) (c : klass) (h ps : list (string * ref_value)) :
  NoDup (keys ps) -> ~ In to (keys ps) -> mem to h = false ->
  (forall k, In k (keys ps) -> mem k h = false /\ array_index k = None) ->
  array_index to = None ->
  forall rest pre,
    ps = pre ++ rest ->
    fold_left
      (fun x key =>
         assign (delete_prop x key) (renamed from to key)
                (match find x key with Some v => v | None => RUndefined end))
      (keys rest)
      (mkObj c (rest ++ map (fun kv => (renamed from to (fst kv), snd kv)) pre) h)
    = mkObj c (map (fun kv => (renamed from to (fst kv), snd kv)) ps) h.
Proof.
  intros Hnd Hto Htoh Hkeys Htoi.
  pose proof (renamed_distinct from to (keys ps) Hnd Hto) as Hrn.
  induction rest as [|[k v] rest IH]; intros pre Hps.
  - simpl. rewrite app_nil_r in Hps. now subst.
  - cbn [keys map fst fold_left].
    assert (Hk : In k (keys ps)).
    { rewrite Hps, keys_app. apply in_or_app. right. now left. }
    assert (Hfind : find (mkObj c (((k, v) :: rest)
                     ++ map (fun kv => (renamed from to (fst kv), snd kv)) pre) h) k
                    = Some v).
    { unfold find. simpl. now rewrite String.eqb_refl. }
    rewrite Hfind. unfold delete_prop. cbn [own cls hidden app].
    rewrite remove_key_head.
    set (k' := renamed from to k).
    assert (Hk'h : mem k' h = false).
    { unfold k', renamed. destruct (from =? k); [exact Htoh | now apply Hkeys]. }
    assert (Hk'i : array_index k' = None).
    { unfold k', renamed. destruct (from =? k); [exact Htoi | now apply Hkeys]. }
    assert (Hk'own : mem k' (rest ++ map (fun kv => (renamed from to (fst kv), snd kv)) pre)
                     = false).
    { apply mem_false_keys. rewrite keys_app. intros Hin.
      rewrite Hps, keys_app, map_app in Hrn. cbn [keys map fst] in Hrn.
      apply NoDup_remove_2 in Hrn. apply Hrn.
      apply in_app_or in Hin as [Hin|Hin]; apply in_or_app.
      - right. fold (keys rest).
        assert (Hne : k' = k \/ k' = to)
          by (unfold k', renamed; destruct (from =? k); auto).
        destruct Hne as [Hne|Hne].
        + exfalso. rewrite Hne in Hin.
          rewrite Hps, keys_app in Hnd. cbn [keys map fst] in Hnd.
          apply NoDup_remove_2 in Hnd. apply Hnd. apply in_or_app. now right.
        + exfalso. apply Hto. rewrite Hps, keys_app. apply in_or_app. right. right.
          now rewrite <- Hne.
      - left. unfold keys in Hin. rewrite map_map in Hin. cbn [fst] in Hin.
        fold (keys pre). unfold keys. now rewrite map_map. }
    unfold assign. cbn [own hidden cls]. rewrite Hk'own, Hk'h.
    unfold add_prop. rewrite Hk'i.
    specialize (IH (pre ++ [(k, v)])).
    rewrite map_app in IH. cbn [map fst snd] in IH. fold k' in IH.
    rewrite <- app_assoc. apply IH. rewrite <- app_assoc. exact Hps.
Qed.

Lemma rename_entries_own (from to : string) (o : object ref_value) :
  has o to = false ->
  NoDup (keys (own o)) ->
  (forall k, In k (keys (own o)) -> mem k (hidden o) = false /\ array_index k = None) ->
  array_index to = None ->
  fold_left
    (fun x key =>
       assign (delete_prop x key) (renamed from to key)
              (match find x key with Some v => v | None => RUndefined end))
    (keys (own o)) o
  = mkObj (cls o) (map (fun kv => (renamed from to (fst kv), snd kv)) (own o)) (hidden o).
Proof.
  intros Hto Hnd Hkeys Htoi.
  unfold has in Hto. apply orb_false_iff in Hto as [Hown Hhid].
  destruct o as [c ps h]. cbn [own hidden cls] in *.
  pose proof (rename_entries from to c h ps Hnd
                (proj1 (mem_false_keys to ps) Hown) Hhid Hkeys Htoi ps [] eq_refl) as H.
  simpl in H. now rewrite app_nil_r in H.
Qed.

(** Past its guard, [renameKey] is its loop on the one object. *)
Lemma renameKey_object (st : store) (p : loc) (o : object ref_value)
    (from to : string) :
  read st p = Some (CObject o) ->
  has o from = true -> has o to = false ->
  renameKey st (RRef p) from to
  = write st p
      (CObject
         (fold_left
            (fun x key =>
               assign (delete_prop x key) (renamed from to key)
                      (match find x key with Some v => v | None => RUndefined end))
            (keys (own o)) o)).
Proof.
  intros Hread Hfrom Hto.
  unfold renameKey, isObject, object_at. rewrite Hread.
  cbn [existsb negb]. unfold has_at. rewrite Hread, Hfrom, Hto. cbn [negb andb].
  apply (rename_loop from to (keys (own o)) st p o Hread).
Qed.

(** X18.  [renameKey] gives the property [from] the name [to] and leaves
    everything else as it was: the values, the order of the properties,
    the properties that are not enumerable, and the rest of the store.
    The names are plain ones here, none of them an array index. *)
Theorem renameKey_renames (st : store) (p : loc) (o : object ref_value)
    (from to : string) :
  read st p = Some (CObject o) ->
  has o from = true -> has o to = false ->
  NoDup (keys (own o)) ->
  (forall k, In k (keys (own o)) -> mem k (hidden o) = false /\ array_index k = None) ->
  array_index to = None ->
  renameKey st (RRef p) from to
  = write st p
      (CObject (mkObj (cls o)
                      (map (fun kv => (renamed from to (fst kv), snd kv)) (own o))
                      (hidden o))).
Proof.
  intros Hread Hfrom Hto Hnd Hkeys Htoi.
  rewrite (renameKey_object st p o from to Hread Hfrom Hto). do 2 f_equal.
  now apply rename_entries_own.
Qed.

(** X19.  A property that is not enumerable is not renamed: the call
    leaves the store as it is. *)
Theorem renameKey_skips_hidden (st : store) (p : loc) (o : object ref_value)
    (from to : string) :
  read st p = Some (CObject o) ->
  mem from (own o) = false ->
  has o to = false ->
  NoDup (keys (own o)) ->
  (forall k, In k (keys (own o)) -> mem k (hidden o) = false /\ array_index k = None) ->
  array_index to = None ->
  renameKey st (RRef p) from to = st.
Proof.
  intros Hread Hfrom Hto Hnd Hkeys Htoi.
  destruct (has o from) eqn:Ehas.
  - rewrite (renameKey_object st p o from to Hread Ehas Hto).
    apply write_same. rewrite Hread. do 2 f_equal.
    rewrite (rename_entries_own from to o Hto Hnd Hkeys Htoi).
    destruct o as [c ps h]. cbn [own hidden cls] in *. f_equal.
    apply mem_false_keys in Hfrom. clear - Hfrom. unfold keys in Hfrom.
    induction ps as [|[k v] ps IH]; [reflexivity|].
    simpl in *. rewrite <- IH by tauto. unfold renamed.
    destruct (String.eqb_spec from k); [subst; tauto | reflexivity].
  - unfold renameKey, isObject, object_at. rewrite Hread.
    cbn [existsb negb]. unfold has_at. now rewrite Hread, Ehas.
Qed.

Lemma object_at_read (st : store) (prop : ref_value) (p : loc) (o : object ref_value) :
  object_at st prop = Some (p, o) -> read st p = Some (CObject o) /\ prop = RRef p.
Proof.
  unfold object_at. destruct prop; try discriminate.
  destruct (read st l) as [[|o']|] eqn:E; try discriminate.
  intros [= <- <-]. auto.
Qed.

(** After a write, the name is among the object's own enumerable
    properties, unless only [hidden] had it. *)
Lemma mem_own_assign {V : Type} (o : object V) (k : string) (v : V) :
  negb (mem k (own o)) && mem k (hidden o) = false ->
  mem k (own (assign o k v)) = true.
Proof.
  unfold assign. destruct (mem k (own o)) eqn:Eown; cbn [negb andb].
  - intros _. cbn [own]. now rewrite mem_replace.
  - intros ->. cbn [own]. unfold mem.
    rewrite lookup_add_prop by now apply mem_lookup_none.
    now rewrite String.eqb_refl.
Qed.

(** An option that is there stays, and the store with it. *)
Lemma defaultValue_present (st : store) (prop : ref_value) (p : loc)
    (o : object ref_value) (optionName : string) (value : ref_value) :
  object_at st prop = Some (p, o) -> mem optionName (own o) = true ->
  defaultValue st prop optionName value = Some st.
Proof.
  intros Hobj Hown. unfold defaultValue. rewrite Hobj, Hown. cbn [negb andb]. f_equal.
  destruct (object_at_read st prop p o Hobj) as [Hread _].
  assert (Hhas : has o optionName = true) by (unfold has; now rewrite Hown).
  unfold has_at, get_at, assign_at. rewrite Hread, Hhas.
  apply write_same. rewrite Hread. do 2 f_equal.
  symmetry. apply assign_found. rewrite has_find in Hhas.
  now destruct (find o optionName).
Qed.

(** X21.  For an option that is not among the properties enumeration
    skips, [defaultValue] sets it only where the object has none: an
    option that is there stays, whatever it holds, and the store is the
    same after the call; an option that is missing gets the default.
    Other properties and other objects are as before. *)
Theorem defaultValue_fills (st : store) (prop : ref_value) (p : loc)
    (o : object ref_value) (optionName : string) (value : ref_value) :
  object_at st prop = Some (p, o) ->
  mem optionName (hidden o) = false ->
  exists st',
    defaultValue st prop optionName value = Some st'
    /\ has_at st' p optionName = true
    /\ get_at st' p optionName
       = (if has o optionName then get_at st p optionName else value)
    /\ (has o optionName = true -> st' = st)
    /\ (forall k, k <> optionName -> get_at st' p k = get_at st p k)
    /\ (forall l, l <> p -> read st' l = read st l).
Proof.
  intros Hobj Hhid.
  destruct (object_at_read st prop p o Hobj) as [Hread _].
  pose proof (HeapFacts.read_lt st p _ Hread) as Hlt.
  assert (Hhas : has o optionName = mem optionName (own o))
    by (unfold has; rewrite Hhid; apply orb_false_r).
  destruct (mem optionName (own o)) eqn:Eown.
  - exists st. rewrite (defaultValue_present st prop p o optionName value Hobj Eown).
    split; [reflexivity|]. unfold has_at. rewrite Hread, Hhas. auto.
  - unfold defaultValue. rewrite Hobj, Hhid, andb_false_r.
    eexists. split; [reflexivity|].
    unfold has_at, get_at, assign_at. rewrite Hread, Hhas.
    rewrite !HeapFacts.read_write_same by exact Hlt.
    split; [apply has_assign_same|].
    split; [now rewrite find_assign_same|].
    split; [discriminate|].
    split.
    + intros k Hk. now rewrite find_assign_other.
    + intros l Hl. now apply HeapFacts.read_write_other.
Qed.

(** X22.  Once an option has been given its default, later defaults
    for it are without effect. *)
Theorem defaultValue_once (st st' : store) (prop : ref_value)
    (optionName : string) (first later : ref_value) :
  defaultValue st prop optionName first = Some st' ->
  defaultValue st' prop optionName later = Some st'.
Proof.
  unfold defaultValue at 1.
  destruct (object_at st prop) as [[p o]|] eqn:Hobj; [|discriminate].
  destruct (negb (mem optionName (own o)) && mem optionName (hidden o)) eqn:Eonly;
    [discriminate|].
  intros [= <-].
  destruct (object_at_read st prop p o Hobj) as [Hread ->].
  pose proof (HeapFacts.read_lt st p _ Hread) as Hlt.
  set (v := if has_at st p optionName then get_at st p optionName else first).
  apply (defaultValue_present _ _ p (assign o optionName v)).
  - unfold object_at, assign_at. rewrite Hread.
    now rewrite HeapFacts.read_write_same.
  - now apply mem_own_assign.
Qed.


(** *** renameKey to an array index *)

Lemma remove_key_app {V : Type} (k : string) (xs ys : list (string * V)) :
  remove_key k (xs ++ ys)
  = if mem k xs then remove_key k xs ++ ys else xs ++ remove_key k ys.
Proof.
  induction xs as [|[k' v'] xs IH]; [reflexivity|].
  unfold mem in *. simpl. destruct (String.eqb_spec k' k); [reflexivity|].
  rewrite IH. now destruct (lookup k xs).
Qed.

Lemma remove_key_absent {V : Type} (k : string) (xs : list (string * V)) :
  mem k xs = false -> remove_key k xs = xs.
Proof.
  induction xs as [|[k' v'] xs IH]; [reflexivity|].
  unfold mem in *. simpl. destruct (String.eqb_spec k' k); [discriminate|].
  intros H. now rewrite IH.
Qed.

Lemma mem_app {V : Type} (k : string) (xs ys : list (string * V)) :
  mem k (xs ++ ys) = mem k xs || mem k ys.
Proof. unfold mem. rewrite lookup_app. now destruct (lookup k xs). Qed.

Lemma insert_index_first {V : Type} (n : Z) (k : string) (v : V)
    (ps : list (string * V)) :
  (forall key, In key (keys ps) -> array_index key = None) ->
  insert_index n k v ps = (k, v) :: ps.
Proof.
  destruct ps as [|[k' v'] ps]; [reflexivity|]. intros H. simpl.
  now rewrite (H k') by now left.
Qed.

Lemma rename_entries_index (from to : string) (n : Z) (v : ref_value) (c : klass)
    (h ps : list (string * ref_value)) :
  NoDup (keys ps) -> lookup from ps = Some v ->
  ~ In to (keys ps) -> mem to h = false ->
  (forall k, In k (keys ps) -> mem k h = false /\ array_index k = None) ->
  array_index to = Some n ->
  forall rest pre,
    ps = pre ++ rest ->
    fold_left
      (fun x key =>
         assign (delete_prop x key) (renamed from to key)
                (match find x key with Some v => v | None => RUndefined end))
      (keys rest)
      (mkObj c ((if mem from pre then [(to, v)] else [])
                ++ rest ++ remove_key from pre) h)
    = mkObj c ((to, v) :: remove_key from ps) h.
Proof.
  intros Hnd Hlook Hto Htoh Hkeys Htoi.
  induction rest as [|[k w] rest IH]; intros pre Hps.
  - rewrite app_nil_r in Hps. subst pre. simpl.
    assert (Hmem : mem from ps = true) by (unfold mem; now rewrite Hlook).
    now rewrite Hmem.
  - cbn [keys map fst fold_left].
    assert (Hk : In k (keys ps)).
    { rewrite Hps, keys_app. apply in_or_app. right. now left. }
    assert (Hkto : k <> to) by (intros ->; contradiction).
    assert (Hkpre : mem k pre = false).
    { apply mem_false_keys. intros Hin. rewrite Hps, keys_app in Hnd.
      cbn [keys map fst] in Hnd. apply NoDup_remove_2 in Hnd. apply Hnd.
      apply in_or_app. now left. }
    assert (Hkrest : mem k rest = false).
    { apply mem_false_keys. intros Hin. rewrite Hps, keys_app in Hnd.
      cbn [keys map fst] in Hnd. apply NoDup_remove_2 in Hnd. apply Hnd.
      apply in_or_app. now right. }
    set (front := if mem from pre then [(to, v)] else []).
    assert (Hfront : mem k front = false /\ lookup k front = None).
    { unfold front, mem. destruct (lookup from pre); simpl; [|auto].
      destruct (String.eqb_spec to k); [congruence | auto]. }
    destruct Hfront as [Hfm Hfl].
    assert (Hfind : find (mkObj c (front ++ ((k, w) :: rest) ++ remove_key from pre) h) k
                    = Some w).
    { unfold find. cbn [own]. rewrite lookup_app, Hfl. simpl.
      now rewrite String.eqb_refl. }
    rewrite Hfind. unfold delete_prop. cbn [own cls hidden].
    rewrite remove_key_app, Hfm. cbn [app]. rewrite remove_key_head.
    assert (Hdone : mem k (remove_key from pre) = false).
    { destruct (mem from pre) eqn:E; [|now rewrite remove_key_absent].
      apply mem_false_keys. intros Hin. apply mem_false_keys in Hkpre. apply Hkpre.
      clear - Hin. induction pre as [|[k' v'] pre IHp]; [contradiction|].
      simpl in *. destruct (k' =? from); [now right|].
      destruct Hin as [Hin|Hin]; [now left | right; now apply IHp]. }
    unfold renamed. destruct (String.eqb_spec from k) as [<-|Hne].
    + assert (Hw : w = v).
      { rewrite Hps, lookup_app in Hlook. unfold mem in Hkpre.
        destruct (lookup from pre); [discriminate|].
        simpl in Hlook. rewrite String.eqb_refl in Hlook. congruence. }
      subst w. unfold front. rewrite Hkpre. cbn [app].
      rewrite remove_key_absent by exact Hkpre.
      unfold assign. cbn [own hidden cls].
      assert (Hfresh : mem to (rest ++ pre) = false).
      { apply mem_false_keys. intros Hin. apply Hto. rewrite Hps, !keys_app in *.
        cbn [keys map fst]. apply in_app_or in Hin as [Hin|Hin]; apply in_or_app;
          [right; now right | now left]. }
      rewrite Hfresh, Htoh. unfold add_prop. rewrite Htoi.
      rewrite insert_index_first.
      * specialize (IH (pre ++ [(from, v)])).
        assert (Hone : mem from [(from, v)] = true)
          by (unfold mem; simpl; now rewrite String.eqb_refl).
        rewrite mem_app, Hone, orb_true_r in IH.
        rewrite remove_key_app, Hkpre in IH. simpl in IH.
        rewrite String.eqb_refl, app_nil_r in IH.
        apply IH. now rewrite <- app_assoc.
      * intros key Hin. apply Hkeys. rewrite Hps, !keys_app in *.
        cbn [keys map fst]. apply in_app_or in Hin as [Hin|Hin]; apply in_or_app;
          [right; now right | now left].
    + unfold assign. cbn [own hidden cls].
      assert (Hfresh : mem k (front ++ rest ++ remove_key from pre) = false).
      { now rewrite !mem_app, Hfm, Hkrest, Hdone. }
      rewrite Hfresh. destruct (Hkeys k Hk) as [Hkh Hki]. rewrite Hkh.
      unfold add_prop. rewrite Hki.
      specialize (IH (pre ++ [(k, w)])).
      assert (Hmem' : mem from (pre ++ [(k, w)]) = mem from pre).
      { rewrite mem_app. unfold mem at 2. simpl.
        destruct (String.eqb_spec k from); [congruence | apply orb_false_r]. }
      rewrite Hmem' in IH. fold front in IH.
      assert (Hrem : remove_key from (pre ++ [(k, w)]) = remove_key from pre ++ [(k, w)]).
      { rewrite remove_key_app. destruct (mem from pre) eqn:E; [reflexivity|].
        simpl. destruct (String.eqb_spec k from); [congruence|].
        now rewrite (remove_key_absent from pre E). }
      rewrite Hrem in IH. rewrite <- ?app_assoc.
      apply IH. now rewrite <- app_assoc.
Qed.

(** X20.  Where the new name is an array index, the order of the
    properties is not kept: the renamed property comes first, as enumeration has
    it, and the others follow in their order. *)
Theorem renameKey_to_index (st : store) (p : loc) (o : object ref_value)
    (from to : string) (n : Z) (v : ref_value) :
  read st p = Some (CObject o) ->
  lookup from (own o) = Some v -> has o to = false ->
  NoDup (keys (own o)) ->
  (forall k, In k (keys (own o)) -> mem k (hidden o) = false /\ array_index k = None) ->
  array_index to = Some n ->
  renameKey st (RRef p) from to
  = write st p
      (CObject (mkObj (cls o) ((to, v) :: remove_key from (own o)) (hidden o))).
Proof.
  intros Hread Hlook Hto Hnd Hkeys Htoi.
  assert (Hfrom : has o from = true).
  { unfold has, mem. now rewrite Hlook. }
  rewrite (renameKey_object st p o from to Hread Hfrom Hto). do 2 f_equal.
  unfold has in Hto. apply orb_false_iff in Hto as [Hown Hhid].
  destruct o as [c ps h]. cbn [own hidden cls] in *.
  pose proof (rename_entries_index from to n v c h ps Hnd Hlook
                (proj1 (mem_false_keys to ps) Hown) Hhid Hkeys Htoi ps [] eq_refl) as H.
  simpl in H. now rewrite app_nil_r in H.
Qed.

(** *** renameKey there and back *)

Lemma renamed_back (from to : string) (ps : list (string * ref_value)) :
  ~ In to (keys ps) ->
  map (fun kv => (renamed to from (fst kv), snd kv))
      (map (fun kv => (renamed from to (fst kv), snd kv)) ps) = ps.
Proof.
  induction ps as [|[k v] ps IH]; [reflexivity|].
  intros Hto. simpl in Hto. cbn [map fst snd]. rewrite IH by tauto. f_equal. f_equal.
  unfold renamed. destruct (String.eqb_spec from k) as [->|Hne].
  - now rewrite String.eqb_refl.
  - destruct (String.eqb_spec to k) as [->|]; [tauto | reflexivity].
Qed.

Lemma keys_renamed (from to : string) (ps : list (string * ref_value)) :
  keys (map (fun kv => (renamed from to (fst kv), snd kv)) ps)
  = map (renamed from to) (keys ps).
Proof. unfold keys. now rewrite !map_map. Qed.

(** X29.  Renaming a property and renaming it back restores the store:
    the object has its properties again, in their order. *)
Theorem renameKey_round_trip (st : store) (p : loc) (o : object ref_value)
    (from to : string) :
  read st p = Some (CObject o) ->
  mem from (own o) = true -> has o to = false ->
  NoDup (keys (own o)) ->
  (forall k, In k (keys (own o)) -> mem k (hidden o) = false /\ array_index k = None) ->
  array_index to = None ->
  renameKey (renameKey st (RRef p) from to) (RRef p) to from = st.
Proof.
  intros Hread Hfrom Hto Hnd Hkeys Htoi.
  assert (Hhas : has o from = true) by (unfold has; now rewrite Hfrom).
  pose proof (HeapFacts.read_lt st p _ Hread) as Hlt.
  assert (Hto' : mem to (own o) = false /\ mem to (hidden o) = false)
    by (unfold has in Hto; now apply orb_false_iff in Hto).
  destruct Hto' as [Htoo Htoh].
  assert (Hfromk : In from (keys (own o))) by now apply mem_keys.
  destruct (Hkeys from Hfromk) as [Hfromh Hfromi].
  rewrite (renameKey_object st p o from to Hread Hhas Hto).
  rewrite (rename_entries_own from to o Hto Hnd Hkeys Htoi).
  set (o' := mkObj (cls o) (map (fun kv => (renamed from to (fst kv), snd kv)) (own o))
                   (hidden o)).
  assert (Hkeys' : keys (own o') = map (renamed from to) (keys (own o)))
    by apply keys_renamed.
  assert (Hin' : forall k, In k (keys (own o')) -> k = to \/ (In k (keys (own o)) /\ k <> from)).
  { intros k Hk. rewrite Hkeys' in Hk. apply in_map_iff in Hk as [k0 [Hk0 Hin]].
    unfold renamed in Hk0. destruct (String.eqb_spec from k0); subst; auto. }
  assert (Hfrom' : has o' from = false).
  { unfold has. change (hidden o') with (hidden o). rewrite Hfromh, orb_false_r.
    apply mem_false_keys. intros Hk. destruct (Hin' from Hk) as [->|[_ H]]; [|congruence].
    apply mem_false_keys in Htoo. contradiction. }
  assert (Hto'' : has o' to = true).
  { unfold has. apply orb_true_iff. left.
    apply mem_keys. rewrite Hkeys'. apply in_map_iff. exists from.
    split; [|exact Hfromk]. unfold renamed. now rewrite String.eqb_refl. }
  rewrite (renameKey_object _ p o' to from (HeapFacts.read_write_same st p _ Hlt)
             Hto'' Hfrom').
  rewrite (rename_entries_own to from o' Hfrom').
  - rewrite write_write. apply write_same. rewrite Hread. do 2 f_equal.
    unfold o'. cbn [own hidden cls].
    rewrite renamed_back by now apply mem_false_keys.
    now destruct o.
  - rewrite Hkeys'. apply renamed_distinct; [exact Hnd | now apply mem_false_keys].
  - intros k Hk. change (hidden o') with (hidden o).
    destruct (Hin' k Hk) as [->|[Hk0 _]]; [auto | now apply Hkeys].
  - exact Hfromi.
Qed.

End StoreFacts.


(* ================================================================= *)
(** ** extractEnumValues *)

Lemma number_to_string_head (z : Z) :
  exists c rest, number_to_string z = String c rest
                 /\ ((48 <=? nat_of_ascii c) && (nat_of_ascii c <=? 57)
                     || (nat_of_ascii c =? 45))%nat = true.
Proof.
  unfold number_to_string.
  assert (U : forall d, d <> Decimal.Nil ->
            exists c rest, NilEmpty.string_of_uint d = String c rest
              /\ ((48 <=? nat_of_ascii c) && (nat_of_ascii c <=? 57))%nat = true).
  { intros [|d|d|d|d|d|d|d|d|d|d] H; try congruence; simpl; eauto. }
  assert (U' : forall d,
            exists c rest, NilZero.string_of_uint d = String c rest
              /\ ((48 <=? nat_of_ascii c) && (nat_of_ascii c <=? 57))%nat = true).
  { intros d. destruct d eqn:E; try (rewrite <- E; unfold NilZero.string_of_uint;
      rewrite E; apply U; discriminate).
    simpl. eauto. }
  destruct (Z.to_int z) as [d|d].
  - change (NilZero.string_of_int (Decimal.Pos d)) with (NilZero.string_of_uint d).
    destruct (U' d) as [c [rest [E H]]]. exists c, rest.
    split; [exact E | now rewrite H].
  - exists "-"%char, (NilZero.string_of_uint d). split; reflexivity.
Qed.

Lemma member_name_no_number (s : string) (z : Z) :
  member_name s = true -> s <> number_to_string z.
Proof.
  intros Hname ->. destruct (number_to_string_head z) as [c [rest [E H]]].
  rewrite E in Hname. unfold member_name in Hname. cbv zeta in Hname.
  rewrite H in Hname. discriminate.
Qed.

Lemma member_name_no_index (s : string) : member_name s = true -> array_index s = None.
Proof.
  intros Hname. unfold array_index.
  destruct (NilZero.int_of_string s) as [i|]; [|reflexivity].
  destruct ((0 <=? Z.of_int i)%Z && (Z.of_int i <? 4294967295)%Z) eqn:E1; [|reflexivity].
  cbn [andb]. destruct (String.eqb_spec (number_to_string (Z.of_int i)) s) as [E|]; [|reflexivity].
  exfalso. now apply (member_name_no_number s (Z.of_int i) Hname).
Qed.

Lemma find_first {A : Type} (p : A -> bool) (l : list A) :
  List.find p l = match filter p l with [] => None | x :: _ => Some x end.
Proof.
  induction l as [|x l IH]; simpl; [reflexivity|]. now destruct (p x).
Qed.

Lemma In_keys {V : Type} (k : string) (ps : list (string * V)) :
  In k (keys ps) <-> exists v, In (k, v) ps.
Proof.
  unfold keys. rewrite in_map_iff. split.
  - intros [[k' v] [<- H]]. now exists v.
  - intros [v H]. now exists (k, v).
Qed.

Lemma enum_member_laid_out (e : obj) (done : list (string * Z)) (name : string) (n : Z) :
  enum_laid_out e done ->
  member_name name = true -> ~ In name (map fst done) ->
  (forall x, In x (map fst done) -> member_name x = true) ->
  enum_laid_out (enum_member e (name, n)) (done ++ [(name, n)]).
Proof.
  intros [Hh [Hnum [Hent Hnames]]] Hname Hnew Hdone.
  assert (Hfresh : mem name (own e) = false).
  { apply mem_false_keys. intros Hin. apply In_keys in Hin as [v Hin].
    destruct (Hent name v Hin) as [[m [_ H]]|[x [z [_ [_ H]]]]]; [contradiction|].
    now apply (member_name_no_number name z). }
  unfold enum_member.
  set (e1 := assign e name (VNumber n)).
  assert (He1 : e1 = mkObj (cls e) (own e ++ [(name, VNumber n)]) []).
  { unfold e1, assign. rewrite Hfresh, Hh. cbn [mem lookup].
    unfold add_prop. now rewrite member_name_no_index. }
  set (ks := number_to_string n).
  destruct (HeapFacts.assign_kids e1 ks (VString name))
    as [before [after [Hnew2 Hold2]]].
  assert (Hh2 : hidden (assign e1 ks (VString name)) = []).
  { unfold assign. rewrite He1. cbn [own hidden cls].
    now destruct (mem ks (own e ++ [(name, VNumber n)])). }
  unfold Heap.kids in Hnew2, Hold2. rewrite Hh2, app_nil_r in Hnew2.
  assert (Hown1 : own e1 = own e ++ [(name, VNumber n)]) by now rewrite He1.
  assert (Hhid1 : hidden e1 = []) by now rewrite He1.
  rewrite Hown1, Hhid1, app_nil_r in Hold2.
  assert (Hold : forall old, find e1 ks = Some old -> isNumber old = false).
  { intros old Hfind. rewrite He1 in Hfind. unfold find in Hfind.
    cbn [own hidden lookup] in Hfind.
    destruct (lookup ks (own e ++ [(name, VNumber n)])) as [w|] eqn:El; [|discriminate].
    injection Hfind as ->. apply lookup_In in El.
    apply in_app_or in El as [Hin|[[= Hk _]|[]]].
    - destruct (Hent ks old Hin) as [[m [_ H]]|[x [z [-> _]]]]; [|reflexivity].
      exfalso. apply (member_name_no_number ks n); [now apply Hdone | reflexivity].
    - exfalso. apply (member_name_no_number name n Hname). now rewrite Hk. }
  assert (Hsplit : filter isNumber (map snd (before ++ after))
                   = filter isNumber (map snd (own e ++ [(name, VNumber n)]))).
  { rewrite Hold2. destruct (find e1 ks) as [old|] eqn:Ef; [|reflexivity].
    rewrite !map_app, !filter_app. cbn [map filter snd].
    now rewrite (Hold old eq_refl). }
  split; [exact Hh2|]. rewrite Hnew2. split; [|split].
  - rewrite map_app, filter_app. cbn [map filter snd isNumber].
    rewrite <- filter_app, <- map_app, Hsplit.
    rewrite !map_app, filter_app, Hnum. reflexivity.
  - assert (Hkeys : forall x, In x (keys (own e ++ [(name, VNumber n)])) ->
                              In x (keys (before ++ (ks, VString name) :: after))).
    { intros x. rewrite Hold2, !keys_app. cbn [keys map fst].
      rewrite !in_app_iff. simpl.
      destruct (find e1 ks) as [old|]; simpl; rewrite ?in_app_iff; simpl; tauto. }
    intros k v Hin.
    assert (Hcases : (k, v) = (ks, VString name)
                     \/ In (k, v) (own e ++ [(name, VNumber n)])).
    { rewrite Hold2. apply in_app_or in Hin as [H|[H|H]]; auto;
        right; apply in_or_app; [now left|]. right. apply in_or_app. now right. }
    destruct Hcases as [[= -> ->]|Hin'].
    + right. exists name, n. split; [reflexivity|]. split; [|reflexivity].
      apply Hkeys. rewrite keys_app. apply in_or_app. right. now left.
    + apply in_app_or in Hin' as [Hin'|[[= <- <-]|[]]].
      * destruct (Hent k v Hin') as [[m [-> H]]|[x [z [-> [H ->]]]]].
        -- left. exists m. split; [reflexivity|]. rewrite map_app. apply in_or_app. now left.
        -- right. exists x, z. split; [reflexivity|]. split; [|reflexivity].
           apply Hkeys. rewrite keys_app. apply in_or_app. now left.
      * left. exists n. split; [reflexivity|]. rewrite map_app. apply in_or_app.
        right. now left.
  - assert (Hkeys : forall x, In x (keys (own e ++ [(name, VNumber n)])) ->
                              In x (keys (before ++ (ks, VString name) :: after))).
    { intros x. rewrite Hold2, !keys_app. cbn [keys map fst].
      rewrite !in_app_iff. simpl.
      destruct (find e1 ks) as [old|]; simpl; rewrite ?in_app_iff; simpl; tauto. }
    intros x Hx. apply Hkeys. rewrite keys_app. apply in_or_app.
    rewrite map_app in Hx. apply in_app_or in Hx as [Hx|[<-|[]]].
    + left. now apply Hnames.
    + right. now left.
Qed.

Lemma numeric_enum_laid_out (members : list (string * Z)) :
  NoDup (map fst members) ->
  forallb member_name (map fst members) = true ->
  enum_laid_out (numeric_enum members) members.
Proof.
  intros Hnd Hnames. unfold numeric_enum.
  assert (G : forall rest done e,
            members = done ++ rest -> enum_laid_out e done ->
            enum_laid_out (fold_left enum_member rest e) members).
  { induction rest as [|[name n] rest IH]; intros done e Hm He.
    - simpl. rewrite app_nil_r in Hm. now subst.
    - cbn [fold_left]. apply (IH (done ++ [(name, n)])).
      + now rewrite <- app_assoc.
      + rewrite forallb_forall in Hnames.
        apply enum_member_laid_out; [exact He | | |].
        * apply Hnames. rewrite Hm, map_app. apply in_or_app. right. now left.
        * rewrite Hm, map_app in Hnd. cbn [map fst] in Hnd.
          apply NoDup_remove_2 in Hnd. intros H. apply Hnd. apply in_or_app. now left.
        * intros x Hx. apply Hnames. rewrite Hm, map_app. apply in_or_app. now left. }
  apply (G members [] emptyObject eq_refl).
  repeat split; simpl; auto; contradiction.
Qed.

(** X23.  For a numeric enum, [extractEnumValues] gives the members' numbers
    in the order of declaration, the names of the reverse mapping left
    out, as long as the first member's number is not [0].  If it is,
    the test for a numeric enum fails on that [0] and all values come
    back, names included. *)
Theorem extractEnumValues_numeric_enum (members : list (string * Z)) :
  NoDup (map fst members) ->
  forallb member_name (map fst members) = true ->
  extractEnumValues (numeric_enum members)
  = match members with
    | [] => []
    | (_, first) :: _ =>
        if (first =? 0)%Z then map snd (own (numeric_enum members))
        else map (fun m => VNumber (snd m)) members
    end.
Proof.
  intros Hnd Hnames.
  destruct (numeric_enum_laid_out members Hnd Hnames) as [_ [Hnum [Hent _]]].
  unfold extractEnumValues. rewrite find_first, Hnum.
  destruct members as [|[name first] rest].
  - reflexivity.
  - cbn [map snd truthy] in *. destruct (first =? 0)%Z; cbn [negb]; [reflexivity|].
    rewrite <- Hnum. apply filter_ext_in.
    intros v Hv. apply in_map_iff in Hv as [[k v'] [<- Hin]]. cbn [snd].
    destruct (Hent k v' Hin) as [[m [-> _]]|[x [z [-> [Hx _]]]]]; [reflexivity|].
    cbn [includes isNumber].
    assert (H : existsb (String.eqb x) (keys (own (numeric_enum ((name, first) :: rest))))
                = true).
    { apply existsb_exists. exists x. split; [exact Hx | apply String.eqb_refl]. }
    now rewrite H.
Qed.

Lemma string_enum_own (members : list (string * string)) :
  NoDup (map fst members) ->
  forallb member_name (map fst members) = true ->
  string_enum members
  = mkObj KObject (map (fun m => (fst m, VString (snd m))) members) [].
Proof.
  intros Hnd Hnames. unfold string_enum.
  assert (G : forall rest done,
            members = done ++ rest ->
            fold_left (fun e member => assign e (fst member) (VString (snd member)))
                      rest
                      (mkObj KObject (map (fun m => (fst m, VString (snd m))) done) [])
            = mkObj KObject (map (fun m => (fst m, VString (snd m))) members) []).
  { induction rest as [|[name s] rest IH]; intros done Hm.
    - simpl. rewrite app_nil_r in Hm. now subst.
    - cbn [fold_left fst snd].
      assert (Hfresh : mem name (map (fun m => (fst m, VString (snd m))) done) = false).
      { apply mem_false_keys. unfold keys. rewrite map_map. cbn [fst].
        rewrite Hm, map_app in Hnd. cbn [map fst] in Hnd.
        apply NoDup_remove_2 in Hnd. intros H. apply Hnd. apply in_or_app. now left. }
      assert (Hplain : array_index name = None).
      { apply member_name_no_index. rewrite forallb_forall in Hnames. apply Hnames.
        rewrite Hm, map_app. apply in_or_app. right. now left. }
      unfold assign. cbn [own hidden cls]. rewrite Hfresh. cbn [mem lookup].
      unfold add_prop. rewrite Hplain.
      specialize (IH (done ++ [(name, s)])).
      rewrite map_app in IH. cbn [map fst snd] in IH.
      apply IH. now rewrite <- app_assoc. }
  apply (G members [] eq_refl).
Qed.

(** X26.  For a string enum, [extractEnumValues] gives the members'
    strings in the order of declaration, all of them: a string that is
    also the name of a member stays, since nothing is filtered where no
    value is a number. *)
Theorem extractEnumValues_string_enum (members : list (string * string)) :
  NoDup (map fst members) ->
  forallb member_name (map fst members) = true ->
  extractEnumValues (string_enum members) = map (fun m => VString (snd m)) members.
Proof.
  intros Hnd Hnames. rewrite (string_enum_own members Hnd Hnames).
  unfold extractEnumValues. cbn [own]. rewrite map_map. cbn [snd].
  assert (Hnone : List.find isNumber (map (fun m : string * string => VString (snd m)) members)
                  = None).
  { induction members as [|m members IH]; [reflexivity|]. simpl.
    apply IH.
    - simpl in Hnd. now inversion Hnd.
    - simpl in Hnames. now apply andb_prop in Hnames as [_ H]. }
  now rewrite Hnone.
Qed.

(* ================================================================= *)
(** ** Paths *)

Lemma forward_only_replaced (s : string) : forward_only (replace_backslashes s) = true.
Proof.
  induction s as [|c s IH]; simpl; [reflexivity|].
  rewrite IH, andb_true_r.
  destruct (Ascii.eqb c backslash) eqn:E; [reflexivity|]. now rewrite E.
Qed.

Section PathFacts.

Variable normalize : string -> string.
Variable relative : string -> string -> string.
Variable isAbsolute : string -> bool.

Lemma forward_only_normalizePath (parts : list string) :
  forward_only (normalizePath normalize parts) = true.
Proof.
  unfold normalizePath.
  set (path := replace_backslashes (normalize _)).
  assert (Hf : forward_only path = true) by apply forward_only_replaced.
  now destruct (anchored path).
Qed.

Lemma anchored_normalizePath (parts : list string) :
  anchored (normalizePath normalize parts) = true.
Proof.
  unfold normalizePath.
  set (path := replace_backslashes (normalize _)).
  now destruct (anchored path) eqn:E.
Qed.


(** X25.  [absolutePath] always returns a normalized path, and so does
    [relativePath] except for the empty path, which it hands back; a
    path that is already relative (it normalizes to one that starts
    with a dot) is not made relative to anything. *)
Theorem relativePath_absolutePath_normal (path other : string) :
  (forward_only (absolutePath normalize isAbsolute path other) = true
   /\ anchored (absolutePath normalize isAbsolute path other) = true)
  /\ (path = "" -> relativePath normalize relative path other = "")
  /\ (path <> "" ->
      forward_only (relativePath normalize relative path other) = true
      /\ anchored (relativePath normalize relative path other) = true)
  /\ (path <> "" -> String.prefix "." (normalizePath normalize [path]) = true ->
      relativePath normalize relative path other = normalizePath normalize [path]).
Proof.
  split; [|split; [|split]].
  - unfold absolutePath.
    destruct (path =? "");
      (split; [apply forward_only_normalizePath | apply anchored_normalizePath]).
  - now intros ->.
  - intros Hne. unfold relativePath.
    destruct (String.eqb_spec path ""); [contradiction|].
    destruct (String.prefix "." (normalizePath normalize [path]));
      (split; [apply forward_only_normalizePath | apply anchored_normalizePath]).
  - intros Hne Hdot. unfold relativePath.
    destruct (String.eqb_spec path ""); [contradiction|]. now rewrite Hdot.
Qed.

End PathFacts.

(* ================================================================= *)
(** ** extractPK: what comes back from an object *)

Section ExtractedKeys.

Variable Platform : Type.
Variable wrapped_meta : obj -> option (EntityMetadata Platform).

(** X8.  From an object with the metadata of a single key, [extractPK]
    never returns a falsy key: the result is [null] or truthy. *)
Theorem extractPK_never_falsy (data : value) (m : EntityMetadata Platform) :
  isPrimaryKey data = Some false -> compositePK m = false ->
  extractPK wrapped_meta data (Some m) = Some VNull
  \/ exists key, extractPK wrapped_meta data (Some m) = Some key /\ truthy key = true.
Proof.
  intros Hkey Hsingle. unfold extractPK. rewrite Hkey. cbn [bind].
  destruct (isObject data []); [|now left].
  destruct (as_obj data) as [o|]; [|now left].
  rewrite Hsingle. unfold or_else.
  destruct (truthy (get o (primaryKey m))) eqn:E1; rewrite ?E1; [right; eauto|].
  destruct (truthy (get o (serializedPrimaryKey m))) eqn:E2; [right; eauto | now left].
Qed.

(** X9.  With the metadata of a composite key, what [extractPK] returns
    for an object is the key hash, a string even where key fields are
    missing, and [extractPK] hands it back when given it again. *)
Theorem extractPK_composite_stable (o : obj) (m : EntityMetadata Platform)
    (again : option (EntityMetadata Platform)) :
  isPrimaryKey (VObj o) = Some false -> compositePK m = true ->
  extractPK wrapped_meta (VObj o) (Some m) = Some (VString (getCompositeKeyHash o m))
  /\ bind (extractPK wrapped_meta (VObj o) (Some m))
          (fun key => extractPK wrapped_meta key again)
     = extractPK wrapped_meta (VObj o) (Some m).
Proof.
  intros Hkey Hcomposite.
  assert (H : extractPK wrapped_meta (VObj o) (Some m)
              = Some (VString (getCompositeKeyHash o m))).
  { unfold extractPK. rewrite Hkey. cbn [bind].
    rewrite isObject_VObj, as_obj_VObj. now rewrite Hcomposite. }
  split; [exact H|]. now rewrite H.
Qed.

End ExtractedKeys.


(* ================================================================= *)
(** ** The theorems at the sample data *)

Lemma prepareEntity_idempotent_witness :
  truthy (get Examples.preparedBook "__prepared") = true
  /\ prepareEntity Examples.clone_id Examples.registry tt Examples.preparedBook
     = Some Examples.preparedBook.
Proof.
  split; [reflexivity|].
  apply (proj2 (prepareEntity_idempotent unit Examples.clone_id Examples.registry tt
                  Examples.preparedBook)).
  reflexivity.
Defined.

(** C2, as stated, at [a = {}] and [b = {z: undefined}]: [z] is a field
    of [b] that [a] lacks, so the stated rule lists it; [diff] reads
    [a.z] as [undefined], finds it equal to [b.z], and returns [{}]. *)
Lemma diff_absent_undefined_counterexample :
  has emptyObject "z" = false
  /\ diff_as_specified emptyObject Examples.snapUndefined = [("z", VUndefined)]
  /\ diff emptyObject Examples.snapUndefined = emptyObject.
Proof. repeat split. Qed.

Lemma diff_changed_fields_witness :
  enumerated (keys (own Examples.snapB)) = true
  /\ diff Examples.snapA Examples.snapB
     = mkObj KObject (changed_fields Examples.snapA Examples.snapB) [].
Proof.
  split; [reflexivity|].
  apply (proj1 diff_changed_fields). reflexivity.
Defined.

(** C3 at a reference to an entity with a composite key.  [Driver.car]
    holds a [Car], whose key is [(name, year)]; the identity of that
    car is ["audi~2020"], by [getCompositeKeyHash] and by [extractPK],
    and the snapshot of the driver holds ["audi"], the one field
    [meta.primaryKey] names. *)
Theorem prepareEntity_composite_reference :
  compositePK Examples.CarMeta = true
  /\ getCompositeKeyHash Examples.car Examples.CarMeta = "audi~2020"
  /\ extractPK Examples.no_wrapped_meta (VObj Examples.car) (Some Examples.CarMeta)
     = Some (VString "audi~2020")
  /\ prepareEntity Examples.clone_id Examples.registry tt Examples.driver
     = Some (mkObj KObject [("id", VNumber 3); ("car", VString "audi")]
                   [("__prepared", VBool true)]).
Proof. repeat split. Qed.

(** C4 at a reference held through a [Reference] wrapper.  A book whose
    author has no key yet: embedded as it is, the field is left out of
    the snapshot; wrapped in a [Reference], the field stays, with the
    value [undefined].  With the key set, both give the field with the
    key. *)
Theorem prepareEntity_unsaved_wrapped_reference :
  prepareEntity Examples.clone_id Examples.registry tt
    (Examples.bookOf Examples.unsavedAuthor)
  = Some (mkObj KObject [("id", VNumber 5); ("title", VString "T")]
                [("__prepared", VBool true)])
  /\ prepareEntity Examples.clone_id Examples.registry tt
       (Examples.bookOf (Examples.reference_to "id" Examples.unsavedAuthor))
     = Some (mkObj KObject
                   [("id", VNumber 5); ("title", VString "T"); ("author", VUndefined)]
                   [("__prepared", VBool true)])
  /\ prepareEntity Examples.clone_id Examples.registry tt
       (Examples.bookOf Examples.savedAuthor)
     = Some Examples.preparedBook
  /\ prepareEntity Examples.clone_id Examples.registry tt
       (Examples.bookOf (Examples.reference_to "id" Examples.savedAuthor))
     = Some Examples.preparedBook.
Proof. repeat split. Qed.

(** C5.  The order half: key fields [a, b] with [a = 1], [b = "x"]
    give ["1~x"] whichever way the instance lists them, the fields
    joined by [~] in the order the metadata declares.  The reference
    half: with key fields [car, id], an ownership that embeds its car
    gives the car's serialized identity, ["audi~2020~3"].  Held through
    a [Reference] wrapper, which the test of [getCompositeKeyHash]
    accepts as an entity, the same car gives an empty segment, ["~3"]:
    the serialized identity is read off the wrapper, which has none.
    The car's key is there to be read through the wrapper, and
    [prepareEntity] does read it: the snapshot of a driver is the same
    whether the car is embedded or wrapped. *)
Theorem getCompositeKeyHash_wrapped_reference :
  getCompositeKeyHash Examples.pair_ab Examples.PairMeta = "1~x"
  /\ getCompositeKeyHash Examples.pair_ba Examples.PairMeta = "1~x"
  /\ getCompositeKeyHash Examples.ownership Examples.OwnershipMeta = "audi~2020~3"
  /\ isEntity (VObj (Examples.reference_to "name" Examples.car)) true = true
  /\ getCompositeKeyHash Examples.wrappedOwnership Examples.OwnershipMeta = "~3"
  /\ get (Examples.reference_to "name" Examples.car) "name" = VString "audi"
  /\ prepareEntity Examples.clone_id Examples.registry tt Examples.wrappedDriver
     = prepareEntity Examples.clone_id Examples.registry tt Examples.driver.
Proof. repeat split. Qed.


Lemma getCompositeKeyHash_null_field_witness :
  get Examples.pair_null "a" = VNull
  /\ getCompositeKeyHash Examples.pair_null Examples.PairMeta = "~x".
Proof.
  split; [reflexivity|].
  exact (getCompositeKeyHash_null_field Examples.pair_null Examples.PairMeta
           [] ["b"] "a" eq_refl (or_introl eq_refl)).
Defined.

(** C6, as stated, at [{id: 0, sid: "s"}] with the key [id] and the
    serialized key [sid]: the raw field is there, so the stated rule
    returns it, [0]; [extractPK] finds it falsy and returns ["s"].  At
    [{id: 0}] with [id] for both, the stated rule returns [0] again and
    [extractPK] returns [null].  At [{constructor: null, id: 1}], which
    is not shaped like a key, and without metadata, [extractPK] does not
    return [null]: the test of the key's shape throws. *)
Lemma extractPK_falsy_raw_key_counterexample :
  has Examples.zeroKey "id" = true
  /\ extractPK_as_specified Examples.zeroKey Examples.SerializedMeta = VNumber 0
  /\ extractPK Examples.no_wrapped_meta (VObj Examples.zeroKey)
       (Some Examples.SerializedMeta) = Some (VString "s")
  /\ extractPK_as_specified Examples.zeroId Examples.AuthorMeta = VNumber 0
  /\ extractPK Examples.no_wrapped_meta (VObj Examples.zeroId)
       (Some Examples.AuthorMeta) = Some VNull
  /\ extractPK Examples.no_wrapped_meta (VObj Examples.constructorField) None = None.
Proof. repeat split. Qed.

Lemma extractPK_cases_witness :
  isPrimaryKey (VObj Examples.rawKey) = Some false
  /\ compositePK Examples.SerializedMeta = false
  /\ extractPK Examples.no_wrapped_meta (VObj Examples.rawKey)
       (Some Examples.SerializedMeta) = Some (VNumber 4).
Proof.
  split; [reflexivity|]. split; [reflexivity|].
  exact (proj1 (proj2 (extractPK_cases unit Examples.no_wrapped_meta
                         (VObj Examples.rawKey) (Some Examples.SerializedMeta)))
           Examples.rawKey Examples.SerializedMeta eq_refl eq_refl eq_refl eq_refl).
Defined.

Lemma merge_left_to_right_witness :
  Heap.holds Examples.mergeStore Examples.mergeTargetAt
  /\ Forall (Heap.holds Examples.mergeStore) Examples.mergeSourcesAt
  /\ NoDup (Heap.locs Examples.mergeTargetAt
            ++ flat_map Heap.locs Examples.mergeSourcesAt)
  /\ exists n st' T',
       (forall fuel, n <= fuel ->
          Heap.merge fuel Examples.mergeStore (Heap.RRef 0) [Heap.RRef 1; Heap.RRef 2]
          = Some (st', Heap.RRef 0))
       /\ Heap.holds st' T'
       /\ Heap.erase T'
          = VObj (Examples.literal [("a", VNumber 4); ("b", VNumber 3)]).
Proof.
  assert (HT : Heap.holds Examples.mergeStore Examples.mergeTargetAt)
    by (simpl; auto).
  assert (HSs : Forall (Heap.holds Examples.mergeStore) Examples.mergeSourcesAt)
    by (repeat constructor).
  assert (Hnd : NoDup (Heap.locs Examples.mergeTargetAt
                       ++ flat_map Heap.locs Examples.mergeSourcesAt))
    by (repeat constructor; simpl; lia).
  split; [exact HT|]. split; [exact HSs|]. split; [exact Hnd|].
  destruct (proj1 (proj2 (proj2 (proj2 (proj2 (proj2 (proj2 (proj2 (proj2 (proj2
              (proj2 merge_left_to_right))))))))))
              Examples.mergeStore Examples.mergeTargetAt Examples.mergeSourcesAt
              HT HSs Hnd)
    as [n [st' [T' [Hrun [HT' [_ [He _]]]]]]].
  exists n, st', T'. split; [exact Hrun|]. split; [exact HT'|]. exact He.
Defined.

(** C9, as stated, at an entity class that declares a property called
    [__prepared]: the loop copies the entity's falsy value under that
    name, [defineProperty] then sets the value of the property that is
    already there, and the marker is an enumerable key of the snapshot;
    [diff] lists it. *)
Lemma prepareEntity_declared_marker_counterexample :
  truthy (get Examples.flag "__prepared") = false
  /\ prepareEntity Examples.clone_id Examples.registry tt Examples.flag
     = Some (Examples.literal [("id", VNumber 1); ("__prepared", VBool true)])
  /\ keys (own (diff emptyObject
                  (Examples.literal [("id", VNumber 1); ("__prepared", VBool true)])))
     = ["id"; "__prepared"].
Proof. repeat split. Qed.

Lemma prepareEntity_snapshot_keys_witness :
  (forall k, In k (keys (own Examples.preparedBook)) ->
             In k (map name (properties Examples.BookMeta)))
  /\ mem "__prepared" (own Examples.preparedBook) = false.
Proof.
  assert (Hundeclared : ~ In "__prepared" (map name (properties Examples.BookMeta))).
  { simpl. intuition discriminate. }
  pose proof (prepareEntity_snapshot_keys unit Examples.clone_id Examples.registry tt
                (Examples.bookOf Examples.savedAuthor) Examples.preparedBook
                Examples.BookMeta eq_refl eq_refl eq_refl) as [Hkeys Hmarker].
  split; [exact Hkeys | exact (proj1 (Hmarker Hundeclared))].
Defined.

Lemma merge_keeps_non_object_witness :
  has (Examples.literal [("a", VNumber 1)]) "a" = true
  /\ isObject (get (Examples.literal [("a", VNumber 1)]) "a") [] = false
  /\ vget (merge Examples.mergeTarget [VObj Examples.nestedSource]) "a" = VNumber 1
  /\ Heap.merge 3 Examples.nestedStore (Heap.RRef 0) [Heap.RRef 1]
     = Some (Examples.nestedStore, Heap.RRef 0).
Proof.
  assert (Hnd : NoDup (keys (own Examples.nestedSource))).
  { repeat constructor; simpl; intuition. }
  split; [reflexivity|]. split; [reflexivity|]. split.
  - exact (proj1 (proj1 merge_keeps_non_object (Examples.literal [("a", VNumber 1)])
                    Examples.nestedSource "a"
                    (VObj (Examples.literal [("x", VNumber 1)]))
                    Hnd eq_refl eq_refl eq_refl eq_refl)).
  - exact (proj2 merge_keeps_non_object 0 Examples.nestedStore 0 1
             (mkObj KObject [("a", Heap.RNumber 1)] [])
             (mkObj KObject [("a", Heap.RRef 2)] []) "a" (Heap.RRef 2)
             eq_refl eq_refl eq_refl eq_refl eq_refl eq_refl).
Defined.
(* ================================================================= *)
(** ** Further theorems at the sample data *)

Lemma diff_same_snapshot_witness :
  plain_fields Examples.snapB = true
  /\ diff Examples.snapB Examples.snapB = emptyObject.
Proof.
  split; [reflexivity|].
  apply (diff_same_snapshot Examples.snapB Examples.snapB); [reflexivity|].
  intros k Hk. reflexivity.
Defined.

Lemma diffEntities_declared_witness :
  diffEntities Examples.clone_id (Examples.bookOf Examples.savedAuthor)
               Examples.retitledBook Examples.registry tt
  = Some Examples.titleChange
  /\ exists prop,
       In prop (properties Examples.BookMeta) /\ name prop = "title"
       /\ shouldIgnoreProperty Examples.registry Examples.retitledBook prop = Some false.
Proof.
  split; [reflexivity|].
  apply (diffEntities_declared unit Examples.clone_id Examples.registry tt
           (Examples.bookOf Examples.savedAuthor) Examples.retitledBook
           Examples.titleChange Examples.BookMeta "title");
    [reflexivity | reflexivity | reflexivity | simpl; auto].
Defined.

Lemma prepareEntity_keeps_exactly_witness :
  prepareEntity Examples.clone_id Examples.registry tt
    (Examples.bookOf Examples.savedAuthor) = Some Examples.preparedBook
  /\ (In "title" (keys (own Examples.preparedBook)) <->
      exists prop,
        In prop (properties Examples.BookMeta) /\ name prop = "title"
        /\ shouldIgnoreProperty Examples.registry
             (Examples.bookOf Examples.savedAuthor) prop = Some false).
Proof.
  split; [reflexivity|].
  apply (prepareEntity_keeps_exactly unit Examples.clone_id Examples.registry tt
           (Examples.bookOf Examples.savedAuthor) Examples.preparedBook
           Examples.BookMeta "title"); reflexivity.
Defined.

Lemma prepareEntity_leaves_out_witness :
  prepareEntity Examples.clone_id Examples.registry tt Examples.unsavedAuthor
  = Some Examples.preparedUnsavedAuthor
  /\ has Examples.unsavedAuthor "id" = false
  /\ mem "id" (own Examples.preparedUnsavedAuthor) = false.
Proof.
  split; [reflexivity|]. split; [reflexivity|].
  apply (prepareEntity_leaves_out unit Examples.clone_id Examples.registry tt
           Examples.unsavedAuthor Examples.preparedUnsavedAuthor Examples.AuthorMeta
           (Examples.primary_prop "id")).
  - reflexivity.
  - reflexivity.
  - reflexivity.
  - repeat constructor; simpl; intuition discriminate.
  - left. reflexivity.
  - left. reflexivity.
Defined.

Lemma prepareEntity_field_value_witness :
  shouldIgnoreProperty Examples.registry (Examples.bookOf Examples.savedAuthor)
    (Examples.many_to_one "author" "Author") = Some false
  /\ Some (get Examples.preparedBook "author") = Some (VNumber 7).
Proof.
  split; [reflexivity|].
  apply (prepareEntity_field_value unit Examples.clone_id Examples.registry tt
           (Examples.bookOf Examples.savedAuthor) Examples.preparedBook
           Examples.BookMeta (Examples.many_to_one "author" "Author")).
  - reflexivity.
  - reflexivity.
  - reflexivity.
  - repeat constructor; simpl; intuition discriminate.
  - simpl. auto.
  - reflexivity.
  - discriminate.
Defined.

Lemma merge_idempotent_witness :
  well_formed (VObj Examples.nestedSource) = true
  /\ merge (VObj emptyObject) [VObj Examples.nestedSource; VObj Examples.nestedSource]
     = merge (VObj emptyObject) [VObj Examples.nestedSource].
Proof.
  split; [reflexivity|].
  apply (merge_idempotent (VObj emptyObject) (VObj Examples.nestedSource)).
  reflexivity.
Defined.

Lemma extractPK_never_falsy_witness :
  isPrimaryKey (VObj Examples.zeroId) = Some false
  /\ (extractPK Examples.no_wrapped_meta (VObj Examples.zeroId)
        (Some Examples.SerializedMeta) = Some VNull
      \/ exists key,
           extractPK Examples.no_wrapped_meta (VObj Examples.zeroId)
             (Some Examples.SerializedMeta) = Some key
           /\ truthy key = true).
Proof.
  split; [reflexivity|].
  apply (extractPK_never_falsy unit Examples.no_wrapped_meta (VObj Examples.zeroId)
           Examples.SerializedMeta); reflexivity.
Defined.

Lemma extractPK_composite_stable_witness :
  extractPK Examples.no_wrapped_meta (VObj Examples.pair_null) (Some Examples.PairMeta)
  = Some (VString "~x")
  /\ bind (extractPK Examples.no_wrapped_meta (VObj Examples.pair_null)
             (Some Examples.PairMeta))
          (fun key => extractPK Examples.no_wrapped_meta key None)
     = extractPK Examples.no_wrapped_meta (VObj Examples.pair_null)
         (Some Examples.PairMeta).
Proof.
  apply (extractPK_composite_stable unit Examples.no_wrapped_meta Examples.pair_null
           Examples.PairMeta None); reflexivity.
Defined.

Lemma extractEnumValues_numeric_enum_witness :
  extractEnumValues (numeric_enum Examples.fromOne) = [VNumber 1; VNumber 2]
  /\ extractEnumValues (numeric_enum Examples.fromZero)
     = [VString "A"; VString "B"; VNumber 0; VNumber 1].
Proof.
  split.
  - apply (extractEnumValues_numeric_enum Examples.fromOne); [|reflexivity].
    repeat constructor; simpl; intuition discriminate.
  - apply (extractEnumValues_numeric_enum Examples.fromZero); [|reflexivity].
    repeat constructor; simpl; intuition discriminate.
Defined.

Lemma relativePath_absolutePath_normal_witness :
  relativePath Examples.normalize_id Examples.relative_to_root "./src/entities" "/app"
  = "./src/entities"
  /\ absolutePath Examples.normalize_id Examples.isAbsolute_posix "src" "/app"
     = "/app/src".
Proof.
  split; [|reflexivity].
  apply (proj2 (proj2 (proj2
           (relativePath_absolutePath_normal Examples.normalize_id
              Examples.relative_to_root Examples.isAbsolute_posix
              "./src/entities" "/app"))));
    [discriminate | reflexivity].
Defined.

Lemma unique_idempotent_witness :
  Heap.unique Examples.repeated
  = [Heap.RNumber 1; Heap.RString "x"; Heap.RNumber 2]
  /\ Heap.unique [Heap.RNumber 1; Heap.RString "x"; Heap.RNumber 2]
     = [Heap.RNumber 1; Heap.RString "x"; Heap.RNumber 2].
Proof.
  split; [reflexivity|].
  apply (proj1 (StoreFacts.unique_idempotent
                  [Heap.RNumber 1; Heap.RString "x"; Heap.RNumber 2])).
  repeat constructor; simpl; intuition discriminate.
Defined.

Lemma findDuplicates_members_witness :
  Heap.findDuplicates [] Examples.repeated = [Heap.RNumber 1; Heap.RString "x"]
  /\ ~ In Heap.RNaN Examples.repeated
  /\ NoDup (Heap.findDuplicates [] Examples.repeated)
  /\ forall x, In x (Heap.findDuplicates [] Examples.repeated)
               <-> 2 <= Heap.occurrences Examples.repeated x.
Proof.
  assert (Hnan : ~ In Heap.RNaN Examples.repeated)
    by (simpl; intuition discriminate).
  split; [reflexivity|]. split; [exact Hnan|].
  apply (StoreFacts.findDuplicates_members [] Examples.repeated); [|exact Hnan].
  intros v Hv. simpl in Hv.
  destruct Hv as [<-|[<-|[<-|[<-|[<-|[]]]]]]; reflexivity.
Defined.

Lemma findDuplicates_unique_witness :
  NoDup [Heap.RNumber 1; Heap.RString "x"; Heap.RNumber 2]
  /\ ~ In Heap.RNaN [Heap.RNumber 1; Heap.RString "x"; Heap.RNumber 2]
  /\ Heap.findDuplicates [] [Heap.RNumber 1; Heap.RString "x"; Heap.RNumber 2] = [].
Proof.
  assert (Hnd : NoDup [Heap.RNumber 1; Heap.RString "x"; Heap.RNumber 2])
    by (repeat constructor; simpl; intuition discriminate).
  assert (Hnan : ~ In Heap.RNaN [Heap.RNumber 1; Heap.RString "x"; Heap.RNumber 2])
    by (simpl; intuition discriminate).
  split; [exact Hnd|]. split; [exact Hnan|].
  exact (proj1 (StoreFacts.findDuplicates_unique []
                  [Heap.RNumber 1; Heap.RString "x"; Heap.RNumber 2]) Hnan Hnd).
Defined.

Lemma findDuplicates_spreads_arrays_witness :
  Heap.findDuplicates Examples.arrayStore [Heap.RRef 0; Heap.RRef 0]
  = [Heap.RNumber 1; Heap.RNumber 2].
Proof.
  apply (StoreFacts.findDuplicates_spreads_arrays Examples.arrayStore 0).
  reflexivity.
Defined.

Lemma asArray_result_witness :
  exists (l : Heap.loc) (items : list Heap.ref_value),
    snd (Heap.asArray [] Heap.RNull) = Heap.RRef l
    /\ Heap.read (fst (Heap.asArray [] Heap.RNull)) l = Some (Heap.CArray items)
    /\ items = [Heap.RNull].
Proof.
  destruct (StoreFacts.asArray_result [] Heap.RNull)
    as [l [items [Href [Hread [_ [_ [_ Hone]]]]]]].
  exists l, items. split; [exact Href|]. split; [exact Hread|].
  apply Hone; [discriminate | reflexivity].
Defined.

Lemma renameKey_renames_witness :
  Heap.renameKey Examples.pairStore (Heap.RRef 0) "a" "c"
  = [Examples.cellOf [("c", Heap.RNumber 1); ("b", Heap.RNumber 2)]].
Proof.
  apply (StoreFacts.renameKey_renames Examples.pairStore 0
           (mkObj KObject [("a", Heap.RNumber 1); ("b", Heap.RNumber 2)] []) "a" "c").
  - reflexivity.
  - reflexivity.
  - reflexivity.
  - repeat constructor; simpl; intuition discriminate.
  - intros k Hk. simpl in Hk. destruct Hk as [<-|[<-|[]]]; split; reflexivity.
  - reflexivity.
Defined.

Lemma renameKey_skips_hidden_witness :
  has (mkObj KObject [("a", Heap.RNumber 2)] [("mark", Heap.RNumber 1)]) "mark" = true
  /\ Heap.renameKey Examples.markedStore (Heap.RRef 0) "mark" "c" = Examples.markedStore.
Proof.
  split; [reflexivity|].
  apply (StoreFacts.renameKey_skips_hidden Examples.markedStore 0
           (mkObj KObject [("a", Heap.RNumber 2)] [("mark", Heap.RNumber 1)]) "mark" "c").
  - reflexivity.
  - reflexivity.
  - reflexivity.
  - repeat constructor; simpl; intuition discriminate.
  - intros k Hk. simpl in Hk. destruct Hk as [<-|[]]; split; reflexivity.
  - reflexivity.
Defined.

Lemma renameKey_to_index_witness :
  Heap.renameKey Examples.pairStore (Heap.RRef 0) "b" "0"
  = [Examples.cellOf [("0", Heap.RNumber 2); ("a", Heap.RNumber 1)]].
Proof.
  apply (StoreFacts.renameKey_to_index Examples.pairStore 0
           (mkObj KObject [("a", Heap.RNumber 1); ("b", Heap.RNumber 2)] [])
           "b" "0" 0%Z (Heap.RNumber 2)).
  - reflexivity.
  - reflexivity.
  - reflexivity.
  - repeat constructor; simpl; intuition discriminate.
  - intros k Hk. simpl in Hk. destruct Hk as [<-|[<-|[]]]; split; reflexivity.
  - reflexivity.
Defined.

Lemma defaultValue_fills_witness :
  exists st',
    Heap.defaultValue [Examples.cellOf [("a", Heap.RUndefined)]] (Heap.RRef 0) "a"
      (Heap.RNumber 5) = Some st'
    /\ st' = [Examples.cellOf [("a", Heap.RUndefined)]].
Proof.
  destruct (StoreFacts.defaultValue_fills
              [Examples.cellOf [("a", Heap.RUndefined)]] (Heap.RRef 0) 0
              (mkObj KObject [("a", Heap.RUndefined)] []) "a" (Heap.RNumber 5)
              eq_refl eq_refl)
    as [st' [Hrun [_ [_ [Hsame _]]]]].
  exists st'. split; [exact Hrun|]. apply Hsame. reflexivity.
Defined.

Lemma defaultValue_once_witness :
  Heap.defaultValue Examples.pairStore (Heap.RRef 0) "c" (Heap.RNumber 3)
  = Some [Examples.cellOf [("a", Heap.RNumber 1); ("b", Heap.RNumber 2);
                           ("c", Heap.RNumber 3)]]
  /\ Heap.defaultValue
       [Examples.cellOf [("a", Heap.RNumber 1); ("b", Heap.RNumber 2);
                         ("c", Heap.RNumber 3)]]
       (Heap.RRef 0) "c" (Heap.RNumber 9)
     = Some [Examples.cellOf [("a", Heap.RNumber 1); ("b", Heap.RNumber 2);
                              ("c", Heap.RNumber 3)]].
Proof.
  split; [reflexivity|].
  apply (StoreFacts.defaultValue_once Examples.pairStore _ (Heap.RRef 0) "c"
           (Heap.RNumber 3) (Heap.RNumber 9)).
  reflexivity.
Defined.

Lemma extractEnumValues_string_enum_witness :
  extractEnumValues (string_enum [("A", "B"); ("B", "b")])
  = [VString "B"; VString "b"].
Proof.
  apply (extractEnumValues_string_enum [("A", "B"); ("B", "b")]); [|reflexivity].
  repeat constructor; simpl; intuition discriminate.
Defined.

Lemma merge_applies_diff_witness :
  vget (merge (VObj Examples.snapA) [VObj (diff Examples.snapA Examples.snapB)]) "y"
  = VNumber 3
  /\ equals (vget (merge (VObj Examples.snapA)
                         [VObj (diff Examples.snapA Examples.snapB)]) "y")
            (get Examples.snapB "y") = true.
Proof.
  split; [reflexivity|].
  apply (merge_applies_diff Examples.snapA Examples.snapB "y").
  - reflexivity.
  - reflexivity.
  - intros v Hv. simpl in Hv. destruct Hv as [<-|[<-|[<-|[]]]]; reflexivity.
  - simpl. auto.
Defined.

Lemma diffEntities_unchanged_witness :
  plain_fields (mkObj KObject
                  [("id", VNumber 5); ("title", VString "U"); ("author", VNumber 7)]
                  [("__prepared", VBool true)]) = true
  /\ diffEntities Examples.clone_id Examples.retitledBook Examples.retitledBook
                  Examples.registry tt
     = Some emptyObject.
Proof.
  split; [reflexivity|].
  apply (diffEntities_unchanged unit Examples.clone_id Examples.registry tt
           Examples.retitledBook
           (mkObj KObject [("id", VNumber 5); ("title", VString "U"); ("author", VNumber 7)]
                  [("__prepared", VBool true)]));
    reflexivity.
Defined.

Lemma renameKey_round_trip_witness :
  Heap.renameKey Examples.pairStore (Heap.RRef 0) "a" "c"
  = [Examples.cellOf [("c", Heap.RNumber 1); ("b", Heap.RNumber 2)]]
  /\ Heap.renameKey (Heap.renameKey Examples.pairStore (Heap.RRef 0) "a" "c")
                    (Heap.RRef 0) "c" "a"
     = Examples.pairStore.
Proof.
  split; [reflexivity|].
  apply (StoreFacts.renameKey_round_trip Examples.pairStore 0
           (mkObj KObject [("a", Heap.RNumber 1); ("b", Heap.RNumber 2)] []) "a" "c").
  - reflexivity.
  - reflexivity.
  - reflexivity.
  - repeat constructor; simpl; intuition discriminate.
  - intros k Hk. simpl in Hk. destruct Hk as [<-|[<-|[]]]; split; reflexivity.
  - reflexivity.
Defined.

